(** * iphone-browser-emulator: navigation history and viewport scaling

    A shallow embedding of the navigation logic
    ([useNavigation] in [src/composables/useDeviceConfig.ts], the Pinia store
    [useBrowserStore] in [src/main.ts]), of the URL helpers
    ([src/utils/url.ts]) and of the scale computation
    ([calculateScale] of [useViewport], also in [useDeviceConfig.ts]).

    JavaScript values are modelled as the language has them:
    - a string is its sequence of UTF-16 code units;
    - [undefined] where a string or an entry is expected is [None];
    - an array index is an integer ([Z]); indexing outside the array
      gives [undefined];
    - a [number] that carries a measure (pixels, a progress, a scale) is
      an IEEE-754 binary64 value (the primitive [float]); history
      positions and time stamps, which only ever hold small integers,
      are [Z];
    - the arithmetic of these numbers is the IEEE-754 specification of
      the Standard Library ([SpecFloat]): what is proved about rounded
      quotients and products is proved from it. *)

From Stdlib Require Import ZArith NArith QArith Qpower Bool String Ascii Floats
  Lia Lqa.
From stdpp Require Import base option list gmap.

Set Default Proof Using "Type".

(* ===================================================================== *)
(** * JavaScript strings, arrays and [Math] *)
(* ===================================================================== *)

Module Js.

(** A string is a list of UTF-16 code units. *)
Definition jsstring : Type := list N.

(** An ASCII literal of the source. *)
Definition str (s : string) : jsstring :=
  map N_of_ascii (list_ascii_of_string s).

(** [WhiteSpace] and [LineTerminator] of ECMAScript: what
    [String.prototype.trim] strips. *)
Definition is_whitespace (c : N) : bool :=
  ((9 <=? c) && (c <=? 13) || (c =? 32) || (c =? 160) || (c =? 5760)
   || (8192 <=? c) && (c <=? 8202) || (c =? 8232) || (c =? 8233)
   || (c =? 8239) || (c =? 8287) || (c =? 12288) || (c =? 65279))%N.

Fixpoint trimStart (s : jsstring) : jsstring :=
  match s with
  | c :: s' => if is_whitespace c then trimStart s' else s
  | [] => []
  end.

Definition trimEnd (s : jsstring) : jsstring := rev (trimStart (rev s)).

Definition trim (s : jsstring) : jsstring := trimEnd (trimStart s).

(** Case folding of the [i] flag of a regular expression without the
    [u] flag, on the code units the patterns of the source use: only
    the ASCII capitals fold onto the ASCII small letters. *)
Definition fold_case (c : N) : N :=
  if ((65 <=? c) && (c <=? 90))%N then (c + 32)%N else c.

(** [starts_with_ci pat s]: [s] starts with [pat] (given in small
    letters), ignoring case. *)
Fixpoint starts_with_ci (pat s : jsstring) : bool :=
  match pat, s with
  | [], _ => true
  | p :: pat', c :: s' => (fold_case c =? p)%N && starts_with_ci pat' s'
  | _ :: _, [] => false
  end.

(** [/^https?:\/\//i.test(s)] *)
Definition has_http_scheme (s : jsstring) : bool :=
  starts_with_ci (str "http://") s || starts_with_ci (str "https://") s.

(** [a.includes(x)] on an array of strings. *)
Definition includes (a : list jsstring) (x : jsstring) : bool :=
  existsb (fun y => bool_decide (y = x)) a.

(** [a[i]]: [undefined] outside the array. *)
Definition index {A} (a : list A) (i : Z) : option A :=
  if (0 <=? i)%Z then a !! Z.to_nat i else None.

(** [a.slice(0, e)]: a negative [e] counts from the end, and the
    bounds are clamped to the array. *)
Definition slice0 {A} (a : list A) (e : Z) : list A :=
  let len := Z.of_nat (length a) in
  let k := if (e <? 0)%Z then Z.max (len + e) 0 else Z.min e len in
  take (Z.to_nat k) a.

(** [a.length] *)
Definition len {A} (a : list A) : Z := Z.of_nat (length a).

(** [a[i] = v] at a position of the array. At [i >= a.length]
    JavaScript lengthens the array and leaves holes below [i]; the
    arrays of this model have no holes, and the write has no result
    there ([None]). *)
Definition set_at {A} (a : list A) (i : Z) (v : A) : option (list A) :=
  if ((0 <=? i) && (i <? len a))%Z then Some (<[Z.to_nat i := v]> a)
  else None.

(** [Math.max(a, b)] and [Math.min(a, b)] on binary64 values:
    [NaN] if an argument is [NaN], and [+0] is larger than [-0]. *)
Definition Math_max (a b : float) : float :=
  if is_nan a || is_nan b then nan
  else if (a <? b)%float then b
  else if (b <? a)%float then a
  else if get_sign a then b else a.

Definition Math_min (a b : float) : float :=
  if is_nan a || is_nan b then nan
  else if (a <? b)%float then a
  else if (b <? a)%float then b
  else if get_sign a then a else b.

End Js.

(* ===================================================================== *)
(** * The platform's URL parser *)
(* ===================================================================== *)

(** [new URL(s)] belongs to the browser, not to the repository. The code
    only looks at two things: whether the constructor throws, and the
    [protocol] of the parsed URL. [URL_protocol s] is [None] when
    [new URL(s)] throws and [Some p] when it returns a URL whose
    [protocol] is [p]. Everything below is stated for an arbitrary
    parser. *)
Class UrlPlatform : Type :=
  URL_protocol : Js.jsstring -> option Js.jsstring.

(** A small parser for the closed examples. It accepts
    [http://] or [https://] (in any case) followed by a host made of a
    small letter and then small letters and dots, optionally followed by
    [/] and visible ASCII characters, and it rejects every other string.
    The browser's parser accepts each of these strings with the same
    protocol, and it rejects [https://] and [http://], whose host is
    empty. *)
Module ExampleParser.

Definition is_lower (c : N) : bool := ((97 <=? c) && (c <=? 122))%N.
Definition is_visible (c : N) : bool := ((33 <=? c) && (c <=? 126))%N.

Fixpoint host_tail (s : Js.jsstring) : bool :=
  match s with
  | [] => true
  | c :: s' =>
      if (c =? 47)%N then forallb is_visible s'
      else (is_lower c || (c =? 46)%N) && host_tail s'
  end.

Definition host_and_path (s : Js.jsstring) : bool :=
  match s with
  | c :: s' => is_lower c && host_tail s'
  | [] => false
  end.

Definition protocol (s : Js.jsstring) : option Js.jsstring :=
  if Js.starts_with_ci (Js.str "https://") s then
    if host_and_path (drop 8 s) then Some (Js.str "https:") else None
  else if Js.starts_with_ci (Js.str "http://") s then
    if host_and_path (drop 7 s) then Some (Js.str "http:") else None
  else None.

Definition platform : UrlPlatform := protocol.

End ExampleParser.

(* ===================================================================== *)
(** * [src/utils/url.ts] *)
(* ===================================================================== *)

Module Url.
Section Url.
Context {platform : UrlPlatform}.

Definition normaliseUrl (url : Js.jsstring) : Js.jsstring :=
  let trimmed := Js.trim url in
  if bool_decide (trimmed = []) then []
  else if Js.has_http_scheme trimmed then trimmed
  else Js.str "https://" ++ trimmed.

Definition isValidUrl (url : Js.jsstring) : bool :=
  let normalised := normaliseUrl url in
  if bool_decide (normalised = []) then false
  else
    match URL_protocol normalised with
    | Some protocol => Js.includes [Js.str "http:"; Js.str "https:"] protocol
    | None => false
    end.

End Url.
End Url.

(* ===================================================================== *)
(** * [src/types/navigation.ts] *)
(* ===================================================================== *)

Inductive NavigationErrorType : Type :=
  | cors | invalid_url | network | blocked | timeout | ssl | unknown.

(** The optional fields of the interfaces are [option]s: [None] is an
    absent ([undefined]) field. *)
Module NavigationError.
Record t : Type := mk {
  type : NavigationErrorType;
  message : Js.jsstring;
  url : option Js.jsstring;
  timestamp : option Z;
  recoverable : option bool;
  originalError : option Js.jsstring
}.
End NavigationError.

Module NavigationEntry.
Record t : Type := mk {
  url : Js.jsstring;
  title : option Js.jsstring;
  timestamp : Z;
  favicon : option Js.jsstring;
  scrollPosition : option (float * float)
}.
End NavigationEntry.

(* ===================================================================== *)
(** * [useNavigation] *)
(* ===================================================================== *)

Module Nav.

(** [NavigationHistory]: the visited URLs and the cursor. *)
Record NavigationHistory : Type := mkHistory {
  entries : list Js.jsstring;
  currentIndex : Z
}.

(** The refs of the composable. [currentUrl] is [None] when the ref
    holds [undefined], which an array read outside the entries gives. *)
Record State : Type := mkState {
  history : NavigationHistory;
  currentUrl : option Js.jsstring;
  isLoading : bool;
  loadProgress : float;
  error : option NavigationError.t
}.

Definition initial : State :=
  {| history := {| entries := []; currentIndex := -1 |};
     currentUrl := Some [];
     isLoading := false;
     loadProgress := 0;
     error := None |}.

(** The computed properties. *)
Definition canGoBack (st : State) : bool :=
  (0 <? currentIndex (history st))%Z.

Definition canGoForward (st : State) : bool :=
  (currentIndex (history st) <? Js.len (entries (history st)) - 1)%Z.

(** [historyIndex] of the computed [state]. *)
Definition historyIndex (st : State) : Z := currentIndex (history st).

Section Nav.
Context {platform : UrlPlatform}.

Definition normaliseUrl (url : Js.jsstring) : Js.jsstring :=
  let normalised := Js.trim url in
  if negb (Js.has_http_scheme normalised)
  then Js.str "https://" ++ normalised
  else normalised.

Definition isValidUrl (url : Js.jsstring) : bool :=
  match URL_protocol (normaliseUrl url) with
  | Some protocol => Js.includes [Js.str "http:"; Js.str "https:"] protocol
  | None => false
  end.

Definition invalid_url_message : Js.jsstring :=
  Js.str "Please enter a valid URL (e.g., https://example.com)".

Definition navigate (url : Js.jsstring) (st : State) : State :=
  let normalisedUrl := normaliseUrl url in
  if negb (isValidUrl url) then
    {| history := history st;
       currentUrl := currentUrl st;
       isLoading := isLoading st;
       loadProgress := loadProgress st;
       error := Some {| NavigationError.type := invalid_url;
                        NavigationError.message := invalid_url_message;
                        NavigationError.url := None;
                        NavigationError.timestamp := None;
                        NavigationError.recoverable := None;
                        NavigationError.originalError := None |} |}
  else
    let newEntries :=
      Js.slice0 (entries (history st)) (currentIndex (history st) + 1)
      ++ [normalisedUrl] in
    {| history := {| entries := newEntries;
                     currentIndex := Js.len newEntries - 1 |};
       currentUrl := Some normalisedUrl;
       isLoading := true;
       loadProgress := 0;
       error := None |}.

End Nav.

Definition goBack (st : State) : State :=
  if negb (canGoBack st) then st
  else
    let index := (currentIndex (history st) - 1)%Z in
    {| history := {| entries := entries (history st); currentIndex := index |};
       currentUrl := Js.index (entries (history st)) index;
       isLoading := true;
       loadProgress := 0;
       error := None |}.

Definition goForward (st : State) : State :=
  if negb (canGoForward st) then st
  else
    let index := (currentIndex (history st) + 1)%Z in
    {| history := {| entries := entries (history st); currentIndex := index |};
       currentUrl := Js.index (entries (history st)) index;
       isLoading := true;
       loadProgress := 0;
       error := None |}.

(** [!currentUrl.value]: [undefined] and the empty string are falsy. *)
Definition falsy (s : option Js.jsstring) : bool :=
  match s with
  | None | Some [] => true
  | Some (_ :: _) => false
  end.

Definition refresh (st : State) : State :=
  if falsy (currentUrl st) then st
  else
    {| history := history st; currentUrl := currentUrl st;
       isLoading := true; loadProgress := 0; error := None |}.

Definition stop (st : State) : State :=
  {| history := history st; currentUrl := currentUrl st;
     isLoading := false; loadProgress := 100; error := error st |}.

Definition setProgress (progress : float) (st : State) : State :=
  {| history := history st; currentUrl := currentUrl st;
     isLoading := isLoading st;
     loadProgress := Js.Math_max 0 (Js.Math_min 100 progress);
     error := error st |}.

Definition onLoadComplete (st : State) : State :=
  {| history := history st; currentUrl := currentUrl st;
     isLoading := false; loadProgress := 100; error := None |}.

Definition onLoadError (err : NavigationError.t) (st : State) : State :=
  {| history := history st; currentUrl := currentUrl st;
     isLoading := false; loadProgress := 0; error := Some err |}.

Definition clear (st : State) : State :=
  {| history := {| entries := []; currentIndex := -1 |};
     currentUrl := Some [];
     isLoading := false; loadProgress := 0; error := None |}.

(** The actions the composable returns, and sequences of them. *)
Inductive Action : Type :=
  | Navigate (url : Js.jsstring)
  | GoBack | GoForward | Refresh | Stop
  | SetProgress (progress : float)
  | OnLoadComplete
  | OnLoadError (err : NavigationError.t)
  | Clear.

Definition step {platform : UrlPlatform} (a : Action) (st : State) : State :=
  match a with
  | Navigate url => navigate url st
  | GoBack => goBack st
  | GoForward => goForward st
  | Refresh => refresh st
  | Stop => stop st
  | SetProgress p => setProgress p st
  | OnLoadComplete => onLoadComplete st
  | OnLoadError err => onLoadError err st
  | Clear => clear st
  end.

Definition run {platform : UrlPlatform} (l : list Action) (st : State) : State :=
  fold_left (fun s a => step a s) l st.

Definition reachable {platform : UrlPlatform} (st : State) : Prop :=
  exists l, run l initial = st.

End Nav.

(* ===================================================================== *)
(** * [useBrowserStore] *)
(* ===================================================================== *)

(** The store keeps one [NavigationState] object and mutates it in
    place; [canGoBack] and [canGoForward] are fields of it, written by
    the actions. An action has no result ([None]) where the source
    leaves the typed state: reading [.url] of an [undefined] entry
    (a [TypeError]), or writing an entry outside the array. *)
Module BrowserStore.

Record NavigationState : Type := mkState {
  currentUrl : Js.jsstring;
  history : list NavigationEntry.t;
  historyIndex : Z;
  isLoading : bool;
  loadProgress : float;
  error : option NavigationError.t;
  canGoBack : bool;
  canGoForward : bool
}.

Definition initial : NavigationState :=
  {| currentUrl := Js.str "about:blank";
     history := [];
     historyIndex := -1;
     isLoading := false;
     loadProgress := 0;
     error := None;
     canGoBack := false;
     canGoForward := false |}.

(** The [options] of [navigate]: [{ replace?: boolean }]. *)
Record NavigateOptions : Type := mkOptions { replace : option bool }.

(** [options?.replace] as a condition. *)
Definition wants_replace (options : option NavigateOptions) : bool :=
  match options with
  | Some o => default false (replace o)
  | None => false
  end.

(** A string as a condition: [undefined] and [''] are falsy. *)
Definition truthy (s : option Js.jsstring) : bool :=
  match s with
  | Some (_ :: _) => true
  | _ => false
  end.

(** [navigate(url, options)]; [now] is the value of [Date.now()]. *)
Definition navigate (url : Js.jsstring) (options : option NavigateOptions)
    (now : Z) (state : NavigationState) : option NavigationState :=
  let entry :=
    {| NavigationEntry.url := url;
       NavigationEntry.timestamp := now;
       NavigationEntry.title := None;
       NavigationEntry.favicon := None;
       NavigationEntry.scrollPosition := None |} in
  hi ← (if wants_replace options && (0 <=? historyIndex state)%Z then
           h ← Js.set_at (history state) (historyIndex state) entry;
           Some (h, historyIndex state)
         else
           let h := Js.slice0 (history state) (historyIndex state + 1)
                    ++ [entry] in
           Some (h, (Js.len h - 1)%Z));
  Some {| currentUrl := url;
          history := hi.1;
          historyIndex := hi.2;
          isLoading := true;
          loadProgress := 0;
          error := None;
          canGoBack := (0 <? hi.2)%Z;
          canGoForward := false |}.

Definition goBack (state : NavigationState) : option NavigationState :=
  if (0 <? historyIndex state)%Z then
    let index := (historyIndex state - 1)%Z in
    entry ← Js.index (history state) index;
    Some {| currentUrl := NavigationEntry.url entry;
            history := history state;
            historyIndex := index;
            isLoading := true;
            loadProgress := 0;
            error := None;
            canGoBack := (0 <? index)%Z;
            canGoForward := true |}
  else Some state.

Definition goForward (state : NavigationState) : option NavigationState :=
  if (historyIndex state <? Js.len (history state) - 1)%Z then
    let index := (historyIndex state + 1)%Z in
    entry ← Js.index (history state) index;
    Some {| currentUrl := NavigationEntry.url entry;
            history := history state;
            historyIndex := index;
            isLoading := true;
            loadProgress := 0;
            error := None;
            canGoBack := true;
            canGoForward := (index <? Js.len (history state) - 1)%Z |}
  else Some state.

Definition reload (state : NavigationState) : NavigationState :=
  {| currentUrl := currentUrl state; history := history state;
     historyIndex := historyIndex state;
     isLoading := true; loadProgress := 0; error := None;
     canGoBack := canGoBack state; canGoForward := canGoForward state |}.

Definition stopLoading (state : NavigationState) : NavigationState :=
  {| currentUrl := currentUrl state; history := history state;
     historyIndex := historyIndex state;
     isLoading := false; loadProgress := loadProgress state;
     error := error state;
     canGoBack := canGoBack state; canGoForward := canGoForward state |}.

Definition setLoadProgress (progress : float) (state : NavigationState)
    : NavigationState :=
  {| currentUrl := currentUrl state; history := history state;
     historyIndex := historyIndex state;
     isLoading := isLoading state;
     loadProgress := Js.Math_max 0 (Js.Math_min 100 progress);
     error := error state;
     canGoBack := canGoBack state; canGoForward := canGoForward state |}.

(** [state.history[state.historyIndex] = { ...state.history[state.historyIndex], f }]
    for a change [f] of one field. *)
Definition update_current (f : NavigationEntry.t -> NavigationEntry.t)
    (state : NavigationState) : option (list NavigationEntry.t) :=
  entry ← Js.index (history state) (historyIndex state);
  Js.set_at (history state) (historyIndex state) (f entry).

Definition with_title (title : Js.jsstring) (e : NavigationEntry.t)
    : NavigationEntry.t :=
  {| NavigationEntry.url := NavigationEntry.url e;
     NavigationEntry.title := Some title;
     NavigationEntry.timestamp := NavigationEntry.timestamp e;
     NavigationEntry.favicon := NavigationEntry.favicon e;
     NavigationEntry.scrollPosition := NavigationEntry.scrollPosition e |}.

Definition with_favicon (favicon : Js.jsstring) (e : NavigationEntry.t)
    : NavigationEntry.t :=
  {| NavigationEntry.url := NavigationEntry.url e;
     NavigationEntry.title := NavigationEntry.title e;
     NavigationEntry.timestamp := NavigationEntry.timestamp e;
     NavigationEntry.favicon := Some favicon;
     NavigationEntry.scrollPosition := NavigationEntry.scrollPosition e |}.

Definition setLoadComplete (title : option Js.jsstring)
    (state : NavigationState) : option NavigationState :=
  h ← (if truthy title && (0 <=? historyIndex state)%Z
       then update_current (with_title (default [] title)) state
       else Some (history state));
  Some {| currentUrl := currentUrl state; history := h;
          historyIndex := historyIndex state;
          isLoading := false; loadProgress := 100;
          error := error state;
          canGoBack := canGoBack state; canGoForward := canGoForward state |}.

Definition setLoadError (err : NavigationError.t) (state : NavigationState)
    : NavigationState :=
  {| currentUrl := currentUrl state; history := history state;
     historyIndex := historyIndex state;
     isLoading := false; loadProgress := loadProgress state;
     error := Some err;
     canGoBack := canGoBack state; canGoForward := canGoForward state |}.

Definition clearError (state : NavigationState) : NavigationState :=
  {| currentUrl := currentUrl state; history := history state;
     historyIndex := historyIndex state;
     isLoading := isLoading state; loadProgress := loadProgress state;
     error := None;
     canGoBack := canGoBack state; canGoForward := canGoForward state |}.

Definition with_history (h : list NavigationEntry.t)
    (state : NavigationState) : NavigationState :=
  {| currentUrl := currentUrl state; history := h;
     historyIndex := historyIndex state;
     isLoading := isLoading state; loadProgress := loadProgress state;
     error := error state;
     canGoBack := canGoBack state; canGoForward := canGoForward state |}.

Definition updateTitle (title : Js.jsstring) (state : NavigationState)
    : option NavigationState :=
  if (0 <=? historyIndex state)%Z then
    h ← update_current (with_title title) state; Some (with_history h state)
  else Some state.

Definition updateFavicon (favicon : Js.jsstring) (state : NavigationState)
    : option NavigationState :=
  if (0 <=? historyIndex state)%Z then
    h ← update_current (with_favicon favicon) state; Some (with_history h state)
  else Some state.

Definition reset (state : NavigationState) : NavigationState := initial.

(** The actions of the store on [navigationState], and sequences of
    them. ([setToolbarVisibility], [setUrlBarMode] and [updateViewport]
    write other refs.) *)
Inductive Action : Type :=
  | Navigate (url : Js.jsstring) (options : option NavigateOptions) (now : Z)
  | GoBack | GoForward | Reload | StopLoading
  | SetLoadProgress (progress : float)
  | SetLoadComplete (title : option Js.jsstring)
  | SetLoadError (err : NavigationError.t)
  | ClearError
  | UpdateTitle (title : Js.jsstring)
  | UpdateFavicon (favicon : Js.jsstring)
  | Reset.

Definition step (a : Action) (state : NavigationState)
    : option NavigationState :=
  match a with
  | Navigate url options now => navigate url options now state
  | GoBack => goBack state
  | GoForward => goForward state
  | Reload => Some (reload state)
  | StopLoading => Some (stopLoading state)
  | SetLoadProgress p => Some (setLoadProgress p state)
  | SetLoadComplete title => setLoadComplete title state
  | SetLoadError err => Some (setLoadError err state)
  | ClearError => Some (clearError state)
  | UpdateTitle title => updateTitle title state
  | UpdateFavicon favicon => updateFavicon favicon state
  | Reset => Some (reset state)
  end.

Fixpoint run (l : list Action) (state : NavigationState)
    : option NavigationState :=
  match l with
  | [] => Some state
  | a :: l' => state' ← step a state; run l' state'
  end.

Definition reachable (state : NavigationState) : Prop :=
  exists l, run l initial = Some state.

End BrowserStore.

(* ===================================================================== *)
(** * [calculateScale] of [useViewport] *)
(* ===================================================================== *)

Module Viewport.

(** The arithmetic [calculateScale] uses: the operations of JavaScript
    numbers, which are binary64 values ([ieee]). *)
Class Arith (num : Type) : Type := {
  n0 : num;
  n1 : num;
  n2 : num;
  n20 : num;
  n40 : num;
  sub : num -> num -> num;
  mul : num -> num -> num;
  div : num -> num -> num;
  leb : num -> num -> bool;
  Math_max : num -> num -> num;
  Math_min : num -> num -> num
}.

#[global] Instance ieee : Arith float := {
  n0 := 0%float;
  n1 := 1%float;
  n2 := 2%float;
  n20 := 20%float;
  n40 := 40%float;
  sub := PrimFloat.sub;
  mul := PrimFloat.mul;
  div := PrimFloat.div;
  leb := PrimFloat.leb;
  Math_max := Js.Math_max;
  Math_min := Js.Math_min
}.

Record ScaleResult (num : Type) : Type := mkScaleResult {
  scale : num;
  scaledWidth : num;
  scaledHeight : num;
  fitsContainer : bool
}.
Arguments mkScaleResult {num}.
Arguments scale {num}.
Arguments scaledWidth {num}.
Arguments scaledHeight {num}.
Arguments fitsContainer {num}.

Section Scale.
Context {num : Type} {arith : Arith num}.

(** A computation together with the divisors of the divisions it
    performed, in order. *)
Definition Divs (A : Type) : Type := list num * A.

Definition ret {A} (a : A) : Divs A := ([], a).

Definition bind {A B} (m : Divs A) (f : A -> Divs B) : Divs B :=
  let r := f m.2 in (m.1 ++ r.1, r.2).

Definition divide (a b : num) : Divs num := ([b], div a b).

(** [calculateScale(containerW, containerH, deviceW, deviceH, paddingPx = 20)];
    an absent [paddingPx] is [None]. [Math.min(scaleX, scaleY, 1)] is
    the minimum of the three, taken two at a time. *)
Definition calculateScale_divs (containerW containerH deviceW deviceH : num)
    (paddingPx : option num) : Divs (ScaleResult num) :=
  let paddingPx := default n20 paddingPx in
  let availableWidth := Math_max n0 (sub containerW (mul paddingPx n2)) in
  let availableHeight := Math_max n0 (sub containerH (mul paddingPx n2)) in
  if leb deviceW n0 || leb deviceH n0
     || leb availableWidth n0 || leb availableHeight n0
  then
    ret {| scale := n1;
           scaledWidth := deviceW;
           scaledHeight := deviceH;
           fitsContainer := false |}
  else
    bind (divide availableWidth deviceW) (fun scaleX =>
    bind (divide availableHeight deviceH) (fun scaleY =>
    let scale := Math_min (Math_min scaleX scaleY) n1 in
    ret {| scale := scale;
           scaledWidth := mul deviceW scale;
           scaledHeight := mul deviceH scale;
           fitsContainer := leb n1 scaleX && leb n1 scaleY |})).

Definition calculateScale (containerW containerH deviceW deviceH : num)
    (paddingPx : option num) : ScaleResult num :=
  (calculateScale_divs containerW containerH deviceW deviceH paddingPx).2.

(** [calculateScaleFactor(deviceWidth, deviceHeight, containerWidth,
    containerHeight, padding = 40)] of [src/utils/dimensions.ts]: the
    same quotients, without the guard, and only the scale is returned. *)
Definition calculateScaleFactor_divs
    (deviceWidth deviceHeight containerWidth containerHeight : num)
    (padding : option num) : Divs num :=
  let padding := default n40 padding in
  let availableWidth := sub containerWidth (mul padding n2) in
  let availableHeight := sub containerHeight (mul padding n2) in
  bind (divide availableWidth deviceWidth) (fun scaleX =>
  bind (divide availableHeight deviceHeight) (fun scaleY =>
  ret (Math_min (Math_min scaleX scaleY) n1))).

End Scale.

End Viewport.


(* ===================================================================== *)
(** * The rest of [src/utils/url.ts] *)
(* ===================================================================== *)

(** The helpers below read more of the parsed URL than its protocol.
    [URL_parse s] is [None] when [new URL(s)] throws, and the fields of
    the URL object otherwise. *)
Module ParsedUrl.
Record t : Type := mk {
  protocol : Js.jsstring;
  hostname : Js.jsstring;
  port : Js.jsstring;
  pathname : Js.jsstring;
  search : Js.jsstring;
  hash : Js.jsstring;
  origin : Js.jsstring
}.
End ParsedUrl.

Class UrlParser : Type :=
  URL_parse : Js.jsstring -> option ParsedUrl.t.

(** The protocol such a parser reports. *)
#[global] Instance parser_platform {parser : UrlParser} : UrlPlatform :=
  fun s => ParsedUrl.protocol <$> URL_parse s.

Module UrlUtils.

(** [s.substring(0, e)] for an integer [e]: a negative [e] counts as 0
    and [e] is clamped to the length. *)
Definition substring0 (s : Js.jsstring) (e : Z) : Js.jsstring :=
  take (Z.to_nat e) s.

(** [s.startsWith(p)] and [s.endsWith(p)]. *)
Fixpoint startsWith (s p : Js.jsstring) : bool :=
  match p, s with
  | [], _ => true
  | c :: p', d :: s' => (d =? c)%N && startsWith s' p'
  | _ :: _, [] => false
  end.

Definition endsWith (s p : Js.jsstring) : bool :=
  startsWith (rev s) (rev p).

(** [hostname.replace(/^www\./i, '')] *)
Definition strip_www (hostname : Js.jsstring) : Js.jsstring :=
  if Js.starts_with_ci (Js.str "www.") hostname then drop 4 hostname
  else hostname.

(** The object [parseUrl] returns. *)
Record ParsedUrlResult : Type := mkParsedUrlResult {
  protocol : Js.jsstring;
  hostname : Js.jsstring;
  port : Js.jsstring;
  pathname : Js.jsstring;
  search : Js.jsstring;
  hash : Js.jsstring;
  origin : Js.jsstring;
  isSecure : bool
}.

Section UrlUtils.
Context {parser : UrlParser}.

Definition getHostname (url : Js.jsstring) : Js.jsstring :=
  match URL_parse (Url.normaliseUrl url) with
  | Some parsed => ParsedUrl.hostname parsed
  | None => url
  end.

Definition getDisplayDomain (url : Js.jsstring) : Js.jsstring :=
  strip_www (getHostname url).

Definition isSecureUrl (url : Js.jsstring) : bool :=
  match URL_parse (Url.normaliseUrl url) with
  | Some parsed => bool_decide (ParsedUrl.protocol parsed = Js.str "https:")
  | None => false
  end.

Definition isLocalhostUrl (url : Js.jsstring) : bool :=
  match URL_parse (Url.normaliseUrl url) with
  | Some parsed =>
      let hostname := ParsedUrl.hostname parsed in
      bool_decide (hostname = Js.str "localhost")
      || bool_decide (hostname = Js.str "127.0.0.1")
      || startsWith hostname (Js.str "192.168.")
      || startsWith hostname (Js.str "10.")
      || endsWith hostname (Js.str ".local")
  | None => false
  end.

Definition getFaviconUrl (url : Js.jsstring) : Js.jsstring :=
  match URL_parse (Url.normaliseUrl url) with
  | Some parsed => ParsedUrl.origin parsed ++ Js.str "/favicon.ico"
  | None => []
  end.

Definition parseUrl (url : Js.jsstring) : option ParsedUrlResult :=
  match URL_parse (Url.normaliseUrl url) with
  | Some parsed =>
      Some {| protocol := ParsedUrl.protocol parsed;
              hostname := ParsedUrl.hostname parsed;
              port := ParsedUrl.port parsed;
              pathname := ParsedUrl.pathname parsed;
              search := ParsedUrl.search parsed;
              hash := ParsedUrl.hash parsed;
              origin := ParsedUrl.origin parsed;
              isSecure :=
                bool_decide (ParsedUrl.protocol parsed = Js.str "https:") |}
  | None => None
  end.

(** [truncateUrl(url, maxLength = 50)], for an integer [maxLength]. *)
Definition truncateUrl (url : Js.jsstring) (maxLength : option Z)
    : Js.jsstring :=
  let maxLength := default 50%Z maxLength in
  if (Js.len url <=? maxLength)%Z then url
  else
    let domain := getDisplayDomain url in
    if (maxLength - 3 <=? Js.len domain)%Z then
      substring0 domain (maxLength - 3) ++ Js.str "..."
    else
      let remaining := (maxLength - Js.len domain - 3)%Z in
      match parseUrl url with
      | None => substring0 url (maxLength - 3) ++ Js.str "..."
      | Some parsed =>
          let path := pathname parsed ++ search parsed in
          if (remaining <? Js.len path)%Z then
            domain ++ substring0 path remaining ++ Js.str "..."
          else domain ++ path
      end.

End UrlUtils.
End UrlUtils.

(** A parser for the closed examples, on the strings [ExampleParser]
    accepts whose path and query are made of small letters, digits,
    [/], [-], [_], [=] and [&] (no dot segments, nothing to escape): the
    host runs to the first [/], the (possibly empty) rest is the path up
    to a [?] and the query from it; an empty path is [/]. *)
Module ExampleUrl.

Definition is_plain (c : N) : bool :=
  (ExampleParser.is_lower c || (48 <=? c) && (c <=? 57)
   || (c =? 47) || (c =? 45) || (c =? 95) || (c =? 61) || (c =? 38))%N.

Fixpoint before (stop : N) (s : Js.jsstring) : Js.jsstring :=
  match s with
  | [] => []
  | c :: s' => if (c =? stop)%N then [] else c :: before stop s'
  end.

Fixpoint from (stop : N) (s : Js.jsstring) : Js.jsstring :=
  match s with
  | [] => []
  | c :: s' => if (c =? stop)%N then s else from stop s'
  end.

Definition parse (s : Js.jsstring) : option ParsedUrl.t :=
  match ExampleParser.protocol s with
  | None => None
  | Some protocol =>
      let rest := drop (length protocol + 2) s in
      let host := before 47 rest in
      let tail := from 47 rest in
      let path := before 63 tail in
      let query := from 63 tail in
      if forallb is_plain path && forallb is_plain (drop 1 query) then
        Some {| ParsedUrl.protocol := protocol;
                ParsedUrl.hostname := host;
                ParsedUrl.port := [];
                ParsedUrl.pathname := if path is [] then Js.str "/" else path;
                ParsedUrl.search := if query is [_] then [] else query;
                ParsedUrl.hash := [];
                ParsedUrl.origin := protocol ++ Js.str "//" ++ host |}
      else None
  end.

Definition parser : UrlParser := parse.

End ExampleUrl.

(* ===================================================================== *)
(** * [src/config/devices.ts] *)
(* ===================================================================== *)

Module Devices.

Inductive NotchType : Type := dynamic_island | notch | no_notch.

Record SafeAreaInsets : Type := mkInsets {
  top : float;
  bottom : float;
  left : float;
  right : float
}.

Record DeviceModel : Type := mkDevice {
  id : Js.jsstring;
  name : Js.jsstring;
  screenWidth : float;
  screenHeight : float;
  devicePixelRatio : float;
  bezelRadius : float;
  notchType : NotchType;
  hasHomeButton : bool;
  safeAreaInsets : SafeAreaInsets
}.

Record DeviceOption : Type := mkOption {
  value : Js.jsstring;
  label : Js.jsstring;
  group : option Js.jsstring
}.

Inductive DeviceOrientation : Type := portrait | landscape.

#[global] Instance NotchType_eq_dec : EqDecision NotchType.
Proof. solve_decision. Defined.

Set Warnings "-inexact-float".

Definition iPhone15ProMax : DeviceModel :=
  {| id := Js.str "iphone-15-pro-max";
     name := Js.str "iPhone 15 Pro Max";
     screenWidth := 430;
     screenHeight := 932;
     devicePixelRatio := 3;
     bezelRadius := 55;
     notchType := dynamic_island;
     hasHomeButton := false;
     safeAreaInsets := {| top := 59; bottom := 34;
                          left := 0; right := 0 |} |}.

Definition iPhone15Pro : DeviceModel :=
  {| id := Js.str "iphone-15-pro";
     name := Js.str "iPhone 15 Pro";
     screenWidth := 393;
     screenHeight := 852;
     devicePixelRatio := 3;
     bezelRadius := 55;
     notchType := dynamic_island;
     hasHomeButton := false;
     safeAreaInsets := {| top := 59; bottom := 34;
                          left := 0; right := 0 |} |}.

Definition iPhone15Plus : DeviceModel :=
  {| id := Js.str "iphone-15-plus";
     name := Js.str "iPhone 15 Plus";
     screenWidth := 430;
     screenHeight := 932;
     devicePixelRatio := 3;
     bezelRadius := 55;
     notchType := dynamic_island;
     hasHomeButton := false;
     safeAreaInsets := {| top := 59; bottom := 34;
                          left := 0; right := 0 |} |}.

Definition iPhone15 : DeviceModel :=
  {| id := Js.str "iphone-15";
     name := Js.str "iPhone 15";
     screenWidth := 393;
     screenHeight := 852;
     devicePixelRatio := 3;
     bezelRadius := 55;
     notchType := dynamic_island;
     hasHomeButton := false;
     safeAreaInsets := {| top := 59; bottom := 34;
                          left := 0; right := 0 |} |}.

Definition iPhone14ProMax : DeviceModel :=
  {| id := Js.str "iphone-14-pro-max";
     name := Js.str "iPhone 14 Pro Max";
     screenWidth := 430;
     screenHeight := 932;
     devicePixelRatio := 3;
     bezelRadius := 55;
     notchType := dynamic_island;
     hasHomeButton := false;
     safeAreaInsets := {| top := 59; bottom := 34;
                          left := 0; right := 0 |} |}.

Definition iPhone14Pro : DeviceModel :=
  {| id := Js.str "iphone-14-pro";
     name := Js.str "iPhone 14 Pro";
     screenWidth := 393;
     screenHeight := 852;
     devicePixelRatio := 3;
     bezelRadius := 55;
     notchType := dynamic_island;
     hasHomeButton := false;
     safeAreaInsets := {| top := 59; bottom := 34;
                          left := 0; right := 0 |} |}.

Definition iPhone14Plus : DeviceModel :=
  {| id := Js.str "iphone-14-plus";
     name := Js.str "iPhone 14 Plus";
     screenWidth := 428;
     screenHeight := 926;
     devicePixelRatio := 3;
     bezelRadius := 47.33;
     notchType := notch;
     hasHomeButton := false;
     safeAreaInsets := {| top := 47; bottom := 34;
                          left := 0; right := 0 |} |}.

Definition iPhone14 : DeviceModel :=
  {| id := Js.str "iphone-14";
     name := Js.str "iPhone 14";
     screenWidth := 390;
     screenHeight := 844;
     devicePixelRatio := 3;
     bezelRadius := 47.33;
     notchType := notch;
     hasHomeButton := false;
     safeAreaInsets := {| top := 47; bottom := 34;
                          left := 0; right := 0 |} |}.

Definition iPhone13ProMax : DeviceModel :=
  {| id := Js.str "iphone-13-pro-max";
     name := Js.str "iPhone 13 Pro Max";
     screenWidth := 428;
     screenHeight := 926;
     devicePixelRatio := 3;
     bezelRadius := 47.33;
     notchType := notch;
     hasHomeButton := false;
     safeAreaInsets := {| top := 47; bottom := 34;
                          left := 0; right := 0 |} |}.

Definition iPhone13 : DeviceModel :=
  {| id := Js.str "iphone-13";
     name := Js.str "iPhone 13";
     screenWidth := 390;
     screenHeight := 844;
     devicePixelRatio := 3;
     bezelRadius := 47.33;
     notchType := notch;
     hasHomeButton := false;
     safeAreaInsets := {| top := 47; bottom := 34;
                          left := 0; right := 0 |} |}.

Definition iPhone12 : DeviceModel :=
  {| id := Js.str "iphone-12";
     name := Js.str "iPhone 12";
     screenWidth := 390;
     screenHeight := 844;
     devicePixelRatio := 3;
     bezelRadius := 47.33;
     notchType := notch;
     hasHomeButton := false;
     safeAreaInsets := {| top := 47; bottom := 34;
                          left := 0; right := 0 |} |}.

Definition iPhoneSE : DeviceModel :=
  {| id := Js.str "iphone-se";
     name := Js.str "iPhone SE";
     screenWidth := 375;
     screenHeight := 667;
     devicePixelRatio := 2;
     bezelRadius := 0;
     notchType := no_notch;
     hasHomeButton := true;
     safeAreaInsets := {| top := 20; bottom := 0;
                          left := 0; right := 0 |} |}.

Definition deviceModels : list DeviceModel :=
  [iPhone15ProMax;
   iPhone15Pro;
   iPhone15Plus;
   iPhone15;
   iPhone14ProMax;
   iPhone14Pro;
   iPhone14Plus;
   iPhone14;
   iPhone13ProMax;
   iPhone13;
   iPhone12;
   iPhoneSE].

Definition deviceOptions : list DeviceOption :=
  [{| value := Js.str "iphone-15-pro-max";
      label := Js.str "iPhone 15 Pro Max (430 x 932)";
      group := Some (Js.str "iPhone 15") |};
   {| value := Js.str "iphone-15-pro";
      label := Js.str "iPhone 15 Pro (393 x 852)";
      group := Some (Js.str "iPhone 15") |};
   {| value := Js.str "iphone-15-plus";
      label := Js.str "iPhone 15 Plus (430 x 932)";
      group := Some (Js.str "iPhone 15") |};
   {| value := Js.str "iphone-15";
      label := Js.str "iPhone 15 (393 x 852)";
      group := Some (Js.str "iPhone 15") |};
   {| value := Js.str "iphone-14-pro-max";
      label := Js.str "iPhone 14 Pro Max (430 x 932)";
      group := Some (Js.str "iPhone 14") |};
   {| value := Js.str "iphone-14-pro";
      label := Js.str "iPhone 14 Pro (393 x 852)";
      group := Some (Js.str "iPhone 14") |};
   {| value := Js.str "iphone-14-plus";
      label := Js.str "iPhone 14 Plus (428 x 926)";
      group := Some (Js.str "iPhone 14") |};
   {| value := Js.str "iphone-14";
      label := Js.str "iPhone 14 (390 x 844)";
      group := Some (Js.str "iPhone 14") |};
   {| value := Js.str "iphone-13-pro-max";
      label := Js.str "iPhone 13 Pro Max (428 x 926)";
      group := Some (Js.str "Older Models") |};
   {| value := Js.str "iphone-13";
      label := Js.str "iPhone 13 (390 x 844)";
      group := Some (Js.str "Older Models") |};
   {| value := Js.str "iphone-12";
      label := Js.str "iPhone 12 (390 x 844)";
      group := Some (Js.str "Older Models") |};
   {| value := Js.str "iphone-se";
      label := Js.str "iPhone SE (375 x 667)";
      group := Some (Js.str "Classic") |}].

Set Warnings "inexact-float".

(** [new Map(entries)]: the entries are inserted in order, so of two
    entries with one key the later one stays. *)
Definition map_of_entries {V} (entries : list (Js.jsstring * V))
    : gmap Js.jsstring V :=
  foldl (fun m kv => <[kv.1 := kv.2]> m) ∅ entries.

Definition deviceModelMap : gmap Js.jsstring DeviceModel :=
  map_of_entries (map (fun device => (id device, device)) deviceModels).

Definition getDeviceById (i : Js.jsstring) : DeviceModel :=
  default iPhone15Pro (deviceModelMap !! i).

Definition isValidDeviceId (i : Js.jsstring) : bool :=
  bool_decide (is_Some (deviceModelMap !! i)).

Definition defaultDevice : DeviceModel := iPhone15Pro.

Definition getDevicesByNotchType (n : NotchType) : list DeviceModel :=
  filter (fun device => notchType device = n) deviceModels.

End Devices.

(* ===================================================================== *)
(** * The rest of [src/utils/dimensions.ts] *)
(* ===================================================================== *)

Module Dimensions.

(** [BEZEL.WIDTH], [BREAKPOINTS] and [SCALE_FACTORS] of
    [config/constants.ts]. *)
Definition BEZEL_WIDTH : float := 12.
Definition BREAKPOINTS_MOBILE : float := 768.
Definition BREAKPOINTS_TABLET : float := 1024.
Definition SCALE_FACTORS_MOBILE : float := 0.5.
Definition SCALE_FACTORS_TABLET : float := 0.75.
Definition SCALE_FACTORS_DESKTOP : float := 1.

Record DeviceDimensions : Type := mkDeviceDimensions {
  screenWidth : float;
  screenHeight : float;
  frameWidth : float;
  frameHeight : float;
  bezelWidth : float
}.

Definition getDeviceDimensions (device : Devices.DeviceModel)
    (orientation : Devices.DeviceOrientation) : DeviceDimensions :=
  let screenWidth :=
    if orientation is Devices.portrait then Devices.screenWidth device
    else Devices.screenHeight device in
  let screenHeight :=
    if orientation is Devices.portrait then Devices.screenHeight device
    else Devices.screenWidth device in
  {| screenWidth := screenWidth;
     screenHeight := screenHeight;
     frameWidth := screenWidth + BEZEL_WIDTH * 2;
     frameHeight := screenHeight + BEZEL_WIDTH * 2;
     bezelWidth := BEZEL_WIDTH |}.

Definition getResponsiveScale (viewportWidth : float) : float :=
  if (viewportWidth <? BREAKPOINTS_MOBILE)%float then SCALE_FACTORS_MOBILE
  else if (viewportWidth <? BREAKPOINTS_TABLET)%float then SCALE_FACTORS_TABLET
  else SCALE_FACTORS_DESKTOP.

Definition isCompactMode (viewportWidth : float) : bool :=
  (viewportWidth <? BREAKPOINTS_TABLET)%float.

Record ViewportDimensions : Type := mkViewportDimensions {
  viewportWidth : float;
  viewportHeight : float;
  contentScale : float
}.

(** [calculateViewportDimensions(device, orientation,
    browserChromeHeight = 88)] *)
Definition calculateViewportDimensions (device : Devices.DeviceModel)
    (orientation : Devices.DeviceOrientation)
    (browserChromeHeight : option float) : ViewportDimensions :=
  let browserChromeHeight := default 88%float browserChromeHeight in
  let dims := getDeviceDimensions device orientation in
  let safeAreaTop := Devices.top (Devices.safeAreaInsets device) in
  let safeAreaBottom := Devices.bottom (Devices.safeAreaInsets device) in
  {| viewportWidth := screenWidth dims;
     viewportHeight :=
       screenHeight dims - safeAreaTop - safeAreaBottom - browserChromeHeight;
     contentScale := 1 |}.

End Dimensions.

(* ===================================================================== *)
(** * [useViewport] *)
(* ===================================================================== *)

Module UseViewport.

Set Warnings "-inexact-float".

(** The refs of the composable. *)
Record State : Type := mkState {
  containerWidth : float;
  containerHeight : float;
  deviceWidth : float;
  deviceHeight : float;
  orientation : Devices.DeviceOrientation;
  padding : float;
  autoFit : bool;
  manualScale : float
}.

Definition initial : State :=
  {| containerWidth := 0; containerHeight := 0;
     deviceWidth := 393; deviceHeight := 852;
     orientation := Devices.portrait;
     padding := 20; autoFit := true; manualScale := 1 |}.

(** [effectiveDeviceDimensions]: width and height. *)
Definition effectiveDeviceDimensions (st : State) : float * float :=
  (if orientation st is Devices.portrait then deviceWidth st
   else deviceHeight st,
   if orientation st is Devices.portrait then deviceHeight st
   else deviceWidth st).

Definition currentScale (st : State) : float :=
  if negb (autoFit st) then manualScale st
  else
    Viewport.scale
      (Viewport.calculateScale (containerWidth st) (containerHeight st)
         (effectiveDeviceDimensions st).1 (effectiveDeviceDimensions st).2
         (Some (padding st))).

Record ViewportDimensions : Type := mkViewportDimensions {
  width : float;
  height : float;
  scale : float;
  scaledWidth : float;
  scaledHeight : float
}.

Definition viewportDimensions (st : State) : ViewportDimensions :=
  let dims := effectiveDeviceDimensions st in
  let scale := currentScale st in
  {| width := dims.1; height := dims.2; scale := scale;
     scaledWidth := dims.1 * scale; scaledHeight := dims.2 * scale |}.

Definition setContainerDimensions (width height : float) (st : State)
    : State :=
  {| containerWidth := Js.Math_max 0 width;
     containerHeight := Js.Math_max 0 height;
     deviceWidth := deviceWidth st; deviceHeight := deviceHeight st;
     orientation := orientation st; padding := padding st;
     autoFit := autoFit st; manualScale := manualScale st |}.

Definition setDeviceDimensions (width height : float) (st : State) : State :=
  {| containerWidth := containerWidth st;
     containerHeight := containerHeight st;
     deviceWidth := Js.Math_max 1 width;
     deviceHeight := Js.Math_max 1 height;
     orientation := orientation st; padding := padding st;
     autoFit := autoFit st; manualScale := manualScale st |}.

Definition setDeviceFromModel (device : Devices.DeviceModel) (st : State)
    : State :=
  setDeviceDimensions (Devices.screenWidth device)
    (Devices.screenHeight device) st.

Definition setOrientation (newOrientation : Devices.DeviceOrientation)
    (st : State) : State :=
  {| containerWidth := containerWidth st;
     containerHeight := containerHeight st;
     deviceWidth := deviceWidth st; deviceHeight := deviceHeight st;
     orientation := newOrientation; padding := padding st;
     autoFit := autoFit st; manualScale := manualScale st |}.

Definition toggleAutoFit (st : State) : State :=
  {| containerWidth := containerWidth st;
     containerHeight := containerHeight st;
     deviceWidth := deviceWidth st; deviceHeight := deviceHeight st;
     orientation := orientation st; padding := padding st;
     autoFit := negb (autoFit st); manualScale := manualScale st |}.

Definition setManualScale (scale : float) (st : State) : State :=
  {| containerWidth := containerWidth st;
     containerHeight := containerHeight st;
     deviceWidth := deviceWidth st; deviceHeight := deviceHeight st;
     orientation := orientation st; padding := padding st;
     autoFit := false;
     manualScale := Js.Math_max 0.1 (Js.Math_min 2 scale) |}.

Definition enableAutoFit (st : State) : State :=
  {| containerWidth := containerWidth st;
     containerHeight := containerHeight st;
     deviceWidth := deviceWidth st; deviceHeight := deviceHeight st;
     orientation := orientation st; padding := padding st;
     autoFit := true; manualScale := manualScale st |}.

Definition setPadding (px : float) (st : State) : State :=
  {| containerWidth := containerWidth st;
     containerHeight := containerHeight st;
     deviceWidth := deviceWidth st; deviceHeight := deviceHeight st;
     orientation := orientation st; padding := Js.Math_max 0 px;
     autoFit := autoFit st; manualScale := manualScale st |}.

(** [onContainerResize(entries)]; an entry is the width and height of
    its [contentRect]. *)
Definition onContainerResize (entries : list (float * float)) (st : State)
    : State :=
  match entries with
  | entry :: _ => setContainerDimensions entry.1 entry.2 st
  | [] => st
  end.

Inductive Action : Type :=
  | SetContainerDimensions (width height : float)
  | SetDeviceDimensions (width height : float)
  | SetDeviceFromModel (device : Devices.DeviceModel)
  | SetOrientation (newOrientation : Devices.DeviceOrientation)
  | SetManualScale (scale : float)
  | EnableAutoFit
  | ToggleAutoFit
  | SetPadding (px : float)
  | OnContainerResize (entries : list (float * float)).

Definition step (a : Action) (st : State) : State :=
  match a with
  | SetContainerDimensions w h => setContainerDimensions w h st
  | SetDeviceDimensions w h => setDeviceDimensions w h st
  | SetDeviceFromModel device => setDeviceFromModel device st
  | SetOrientation o => setOrientation o st
  | SetManualScale scale => setManualScale scale st
  | EnableAutoFit => enableAutoFit st
  | ToggleAutoFit => toggleAutoFit st
  | SetPadding px => setPadding px st
  | OnContainerResize entries => onContainerResize entries st
  end.

Definition run (l : list Action) (st : State) : State :=
  fold_left (fun s a => step a s) l st.

(** The numbers an action is called with. *)
Definition arguments (a : Action) : list float :=
  match a with
  | SetContainerDimensions w h | SetDeviceDimensions w h => [w; h]
  | SetDeviceFromModel device =>
      [Devices.screenWidth device; Devices.screenHeight device]
  | SetManualScale x | SetPadding x => [x]
  | OnContainerResize (entry :: _) => [entry.1; entry.2]
  | _ => []
  end.

Set Warnings "inexact-float".

End UseViewport.

(* ===================================================================== *)
(** * [usePreferencesStore]: the URL history *)
(* ===================================================================== *)

Module Preferences.

(** [addToUrlHistory(url)] on the stored list. *)
Definition addToUrlHistory (url : Js.jsstring)
    (urlHistory : list Js.jsstring) : list Js.jsstring :=
  if bool_decide (url = []) then urlHistory
  else
    let filtered := filter (fun u => u <> url) urlHistory in
    Js.slice0 (url :: filtered) 50.

Definition clearUrlHistory (urlHistory : list Js.jsstring)
    : list Js.jsstring := [].

Definition removeFromUrlHistory (url : Js.jsstring)
    (urlHistory : list Js.jsstring) : list Js.jsstring :=
  filter (fun u => u <> url) urlHistory.

Definition recentUrls (urlHistory : list Js.jsstring) : list Js.jsstring :=
  Js.slice0 urlHistory 10.

Inductive Action : Type :=
  | AddToUrlHistory (url : Js.jsstring)
  | ClearUrlHistory
  | RemoveFromUrlHistory (url : Js.jsstring).

Definition step (a : Action) (urlHistory : list Js.jsstring)
    : list Js.jsstring :=
  match a with
  | AddToUrlHistory url => addToUrlHistory url urlHistory
  | ClearUrlHistory => clearUrlHistory urlHistory
  | RemoveFromUrlHistory url => removeFromUrlHistory url urlHistory
  end.

Definition run (l : list Action) (urlHistory : list Js.jsstring)
    : list Js.jsstring :=
  fold_left (fun h a => step a h) l urlHistory.

End Preferences.

(* ===================================================================== *)
(** * [useBrowserStore]: the getters *)
(* ===================================================================== *)

Definition store_currentEntry (state : BrowserStore.NavigationState)
    : option NavigationEntry.t :=
  if ((0 <=? BrowserStore.historyIndex state)
      && (BrowserStore.historyIndex state
          <? Js.len (BrowserStore.history state)))%Z
  then Js.index (BrowserStore.history state) (BrowserStore.historyIndex state)
  else None.

(** [currentEntry.value?.title ?? ''] *)
Definition store_currentTitle (state : BrowserStore.NavigationState)
    : Js.jsstring :=
  match store_currentEntry state with
  | Some entry => default [] (NavigationEntry.title entry)
  | None => []
  end.

(* ===================================================================== *)
(** * The order of binary64 numbers *)
(* ===================================================================== *)

(** A key for the numbers other than [NaN]: sign class, exponent,
    mantissa, compared one after the other. Both zeros have one key. *)
Definition rank (x : spec_float) : Z * Z * Z :=
  match x with
  | S754_nan => (0, 0, 0)
  | S754_zero _ => (0, 0, 0)
  | S754_infinity true => (-2, 0, 0)
  | S754_infinity false => (2, 0, 0)
  | S754_finite true m e => (-1, - e, Z.neg m)
  | S754_finite false m e => (1, e, Z.pos m)
  end%Z.

Definition frank (x : float) : Z * Z * Z := rank (Prim2SF x).

Definition lt3 (a b : Z * Z * Z) : Prop :=
  (a.1.1 < b.1.1
   \/ (a.1.1 = b.1.1
       /\ (a.1.2 < b.1.2 \/ (a.1.2 = b.1.2 /\ a.2 < b.2))))%Z.

Definition le3 (a b : Z * Z * Z) : Prop := lt3 a b \/ a = b.

(* ===================================================================== *)
(** * Binary64 values as rational numbers *)
(* ===================================================================== *)

(** Powers of two as rationals. *)
Definition pow2 (e : Z) : Q := (2 ^ e)%Q.

(** The rational number a finite binary64 value stands for. *)
Definition SF2Q (x : spec_float) : Q :=
  match x with
  | S754_finite s m e =>
      ((if s then - inject_Z (Z.pos m) else inject_Z (Z.pos m)) * pow2 e)%Q
  | _ => 0%Q
  end.

(** What [shr] keeps of a number [x] it shifts: the integer part, and
    whether the fraction reaches one half. *)
Definition shr_inv (x : Q) (mrs : shr_record) : Prop :=
  (0 <= shr_m mrs)%Z
  /\ (inject_Z (shr_m mrs) <= x)%Q
  /\ (x < inject_Z (shr_m mrs) + 1)%Q
  /\ (shr_r mrs = true -> inject_Z (shr_m mrs) + (1 # 2) <= x)%Q.

(** [binary_round_aux] rounds a number [X] to [m1 * 2^e1]: [e1] is the
    exponent of the binade of [X] (53-bit mantissas; [-1074] for the
    subnormal range), and [m1] is an integer next to [X / 2^e1], never
    more than one half above it. *)
Record rounds_to (X : Q) (m1 e1 : Z) : Prop := {
  rt_emin : (-1074 <= e1)%Z;
  rt_top : (X < pow2 (53 + e1))%Q;
  rt_normal : e1 = (-1074)%Z \/ (pow2 (52 + e1) <= X)%Q;
  rt_nonneg : (0 <= m1)%Z;
  rt_upper : (inject_Z m1 * pow2 e1 <= X + pow2 (e1 - 1))%Q;
  rt_lower : (X < (inject_Z m1 + 1) * pow2 e1)%Q
}.

(** The binary64 value returned for the rounded [m1 * 2^e1]: a zero, a
    valid finite number of that value, or an infinity when the value
    reaches [2^1024]. *)
Inductive round_result (s : bool) (m1 e1 : Z) : spec_float -> Prop :=
  | rr_zero : m1 = 0%Z -> round_result s m1 e1 (S754_zero s)
  | rr_finite m e :
      (0 < m1)%Z ->
      valid_binary (S754_finite s m e) = true ->
      (inject_Z (Z.pos m) * pow2 e == inject_Z m1 * pow2 e1)%Q ->
      round_result s m1 e1 (S754_finite s m e)
  | rr_infinity :
      (pow2 1024 <= inject_Z m1 * pow2 e1)%Q ->
      round_result s m1 e1 (S754_infinity s).

(** [2^-1022], the smallest normal number; 1; and [1 + 2^-52]. *)
Definition SF_tiny : spec_float := S754_finite false 4503599627370496 (-1074).
Definition SF_one : spec_float := S754_finite false 4503599627370496 (-52).
Definition SF_one_eps : spec_float := S754_finite false 4503599627370497 (-52).

(* ===================================================================== *)
(** * State invariants *)
(* ===================================================================== *)

(** [useNavigation]: the cursor is [-1] or a position of [entries], and
    [currentUrl] is the entry under the cursor (the empty string when
    the cursor is [-1]). *)
Definition nav_inv (st : Nav.State) : Prop :=
  let h := Nav.history st in
  (-1 <= Nav.currentIndex h < Js.len (Nav.entries h))%Z
  /\ Nav.currentUrl st =
       if (Nav.currentIndex h =? -1)%Z then Some []
       else Js.index (Nav.entries h) (Nav.currentIndex h).

(** What the claims say of [canGoBack] and [canGoForward]. *)
Definition flags_agree (index length : Z) (back forward : bool) : Prop :=
  back = (0 <? index)%Z /\ forward = (index <? length - 1)%Z.

(** [useBrowserStore]: the cursor is [-1] or a position of [history]
    ([-1] only on an empty history),
    [currentUrl] is the [url] of the entry under the cursor, [canGoBack]
    is up to date, and [canGoForward] is only set where a forward entry
    exists. *)
Definition store_inv (st : BrowserStore.NavigationState) : Prop :=
  (-1 <= BrowserStore.historyIndex st < Js.len (BrowserStore.history st))%Z
  /\ (BrowserStore.historyIndex st = (-1)%Z -> BrowserStore.history st = [])
  /\ (0 <= BrowserStore.historyIndex st ->
       NavigationEntry.url <$>
         Js.index (BrowserStore.history st) (BrowserStore.historyIndex st)
       = Some (BrowserStore.currentUrl st))%Z
  /\ BrowserStore.canGoBack st = (0 <? BrowserStore.historyIndex st)%Z
  /\ (BrowserStore.canGoForward st = true ->
       BrowserStore.historyIndex st < Js.len (BrowserStore.history st) - 1)%Z.

(** The store actions that overwrite the entry under the cursor:
    [navigate] with a truthy [replace]. *)
Definition store_replacing (a : BrowserStore.Action) : bool :=
  match a with
  | BrowserStore.Navigate _ options _ => BrowserStore.wants_replace options
  | _ => false
  end.

(** A history entry of [useNavigation] that went through the
    validation: it starts with [http://] or [https://] and the parser
    gives it the protocol [http:] or [https:]. *)
Definition nav_entry_ok {platform : UrlPlatform} (u : Js.jsstring) : Prop :=
  Js.has_http_scheme u = true
  /\ exists protocol,
       URL_protocol u = Some protocol
       /\ Js.includes [Js.str "http:"; Js.str "https:"] protocol = true.

(** [useNavigation]: the cursor is [-1] exactly on the empty history,
    and every entry went through the validation. *)
Definition nav_entries_inv {platform : UrlPlatform} (st : Nav.State) : Prop :=
  (Nav.historyIndex st = (-1)%Z -> Nav.entries (Nav.history st) = [])
  /\ Forall nav_entry_ok (Nav.entries (Nav.history st)).

(** A progress between 0 and 100. *)
Definition progress_in_range (p : float) : Prop :=
  (0 <=? p)%float = true /\ (p <=? 100)%float = true.

(** The [setProgress] calls of a sequence pass a number, not [NaN]. *)
Definition nav_progress_given (a : Nav.Action) : Prop :=
  match a with
  | Nav.SetProgress p => is_nan p = false
  | _ => True
  end.

Set Warnings "-inexact-float".

(** [useViewport]: sizes are not negative, the device is at least one
    pixel wide and high, and the manual scale lies in [[0.1, 2]]. *)
Definition viewport_inv (st : UseViewport.State) : Prop :=
  (0 <=? UseViewport.containerWidth st)%float = true
  /\ (0 <=? UseViewport.containerHeight st)%float = true
  /\ (1 <=? UseViewport.deviceWidth st)%float = true
  /\ (1 <=? UseViewport.deviceHeight st)%float = true
  /\ (0 <=? UseViewport.padding st)%float = true
  /\ (0.1 <=? UseViewport.manualScale st)%float = true
  /\ (UseViewport.manualScale st <=? 2)%float = true.

Set Warnings "inexact-float".

(** The stored URL history: no URL twice, at most 50 entries. *)
Definition url_history_inv (urlHistory : list Js.jsstring) : Prop :=
  NoDup urlHistory /\ (length urlHistory <= 50)%nat.

(* ===================================================================== *)
(** * Arrays *)
(* ===================================================================== *)

Section ArrayFacts.
Context {A : Type}.
Implicit Types (a : list A) (i e : Z).

Lemma len_nonneg a : (0 <= Js.len a)%Z.
Proof. unfold Js.len. lia. Qed.

Lemma len_app a b : Js.len (a ++ b) = (Js.len a + Js.len b)%Z.
Proof. unfold Js.len. rewrite length_app. lia. Qed.

Lemma slice0_take a e :
  (0 <= e)%Z -> Js.slice0 a e = take (Z.to_nat e) a.
Proof.
  intros He. unfold Js.slice0.
  destruct (e <? 0)%Z eqn:Hneg; [lia|].
  destruct (Z.le_gt_cases e (Z.of_nat (length a))) as [Hle | Hgt].
  - by rewrite Z.min_l.
  - rewrite Z.min_r by lia. rewrite Nat2Z.id.
    rewrite !take_ge; [done | lia | lia].
Qed.

Lemma len_slice0 a e :
  (0 <= e <= Js.len a)%Z -> Js.len (Js.slice0 a e) = e.
Proof.
  intros [He Hle]. rewrite slice0_take by done.
  unfold Js.len in *. rewrite length_take. lia.
Qed.

Lemma index_in_range a i :
  (0 <= i < Js.len a)%Z -> is_Some (Js.index a i).
Proof.
  intros [Hi Hlt]. unfold Js.index, Js.len in *.
  destruct (0 <=? i)%Z eqn:E; [|lia].
  apply lookup_lt_is_Some. lia.
Qed.

Lemma index_Some_lt a i x :
  Js.index a i = Some x -> (0 <= i < Js.len a)%Z.
Proof.
  unfold Js.index, Js.len. destruct (0 <=? i)%Z eqn:E; [|done].
  intros H%lookup_lt_Some. lia.
Qed.

Lemma index_slice0_app a e x :
  (0 <= e <= Js.len a)%Z -> Js.index (Js.slice0 a e ++ [x]) e = Some x.
Proof.
  intros He. unfold Js.index. destruct (0 <=? e)%Z eqn:E; [|lia].
  rewrite lookup_app_r; rewrite slice0_take by lia; rewrite length_take;
    unfold Js.len in He.
  - replace (Z.to_nat e - Z.to_nat e `min` length a) with 0 by lia. done.
  - lia.
Qed.

Lemma index_set_at a i x a' :
  Js.set_at a i x = Some a' ->
  Js.index a' i = Some x /\ Js.len a' = Js.len a.
Proof.
  unfold Js.set_at, Js.index, Js.len.
  destruct ((0 <=? i)%Z && (i <? Z.of_nat (length a))%Z) eqn:E; [|done].
  apply andb_true_iff in E as [E1 E2]. intros [= <-]. rewrite E1.
  rewrite length_insert. split; [|done].
  apply list_lookup_insert_eq. lia.
Qed.

Lemma set_at_in_range a i x :
  (0 <= i < Js.len a)%Z -> is_Some (Js.set_at a i x).
Proof.
  intros [Hi Hlt]. unfold Js.set_at.
  destruct ((0 <=? i)%Z && (i <? Js.len a)%Z) eqn:E; [eauto|].
  apply andb_false_iff in E as [E | E]; lia.
Qed.

End ArrayFacts.

(* ===================================================================== *)
(** * URL normalisation *)
(* ===================================================================== *)

Lemma url_normaliseUrl_blank (s : Js.jsstring) :
  Js.trim s = [] -> Url.normaliseUrl s = [].
Proof. intros H. unfold Url.normaliseUrl. by rewrite H. Qed.

Lemma nav_normaliseUrl_no_scheme (s : Js.jsstring) :
  Js.has_http_scheme (Js.trim s) = false ->
  Nav.normaliseUrl s = Js.str "https://" ++ Js.trim s.
Proof. intros H. unfold Nav.normaliseUrl. by rewrite H. Qed.

(** C7, as the code has it: for every string [s] whose trimmed form is
    not empty and does not start with [http://] or [https://] (in any
    case), both [normaliseUrl] functions ([utils/url.ts] and
    [useNavigation]) return ["https://"] followed by the trimmed
    string. *)
Theorem normaliseUrl_prepends_https (s : Js.jsstring) :
  Js.trim s <> [] ->
  Js.has_http_scheme (Js.trim s) = false ->
  Url.normaliseUrl s = Js.str "https://" ++ Js.trim s
  /\ Nav.normaliseUrl s = Js.str "https://" ++ Js.trim s.
Proof.
  intros Hne Hscheme. split.
  - unfold Url.normaliseUrl. rewrite bool_decide_eq_false_2 by done.
    by rewrite Hscheme.
  - by apply nav_normaliseUrl_no_scheme.
Qed.

Lemma normaliseUrl_prepends_https_witness :
  let s := Js.str " example.com " in
  (Js.trim s <> [] /\ Js.has_http_scheme (Js.trim s) = false)
  /\ Url.normaliseUrl s = Js.str "https://example.com"
  /\ Nav.normaliseUrl s = Js.str "https://example.com".
Proof.
  assert (H1 : Js.trim (Js.str " example.com ") <> [])
    by (vm_compute; discriminate).
  assert (H2 : Js.has_http_scheme (Js.trim (Js.str " example.com ")) = false)
    by reflexivity.
  split; [split; assumption|].
  exact (normaliseUrl_prepends_https (Js.str " example.com ") H1 H2).
Defined.

(** C7 as stated fails in [utils/url.ts]: a string of one space is not
    empty and its trimmed form has no scheme, but the result is the
    empty string, not ["https://"]. *)
Lemma normaliseUrl_blank_counterexample :
  let s := Js.str " " in
  s <> []
  /\ Js.has_http_scheme (Js.trim s) = false
  /\ Url.normaliseUrl s = []
  /\ Url.normaliseUrl s <> Js.str "https://" ++ Js.trim s.
Proof. vm_compute. repeat split; discriminate. Qed.

(* ===================================================================== *)
(** * [useNavigation]: the invariant *)
(* ===================================================================== *)

Section NavFacts.
Context {platform : UrlPlatform}.
Implicit Types (st : Nav.State) (url : Js.jsstring).

Lemma nav_navigate_invalid url st :
  Nav.isValidUrl url = false ->
  Nav.navigate url st =
    {| Nav.history := Nav.history st;
       Nav.currentUrl := Nav.currentUrl st;
       Nav.isLoading := Nav.isLoading st;
       Nav.loadProgress := Nav.loadProgress st;
       Nav.error :=
         Some (NavigationError.mk invalid_url Nav.invalid_url_message
                 None None None None) |}.
Proof. intros H. unfold Nav.navigate. by rewrite H. Qed.

Lemma nav_navigate_valid url st :
  Nav.isValidUrl url = true ->
  Nav.navigate url st =
    let newEntries :=
      Js.slice0 (Nav.entries (Nav.history st))
        (Nav.currentIndex (Nav.history st) + 1)
      ++ [Nav.normaliseUrl url] in
    {| Nav.history := {| Nav.entries := newEntries;
                         Nav.currentIndex := Js.len newEntries - 1 |};
       Nav.currentUrl := Some (Nav.normaliseUrl url);
       Nav.isLoading := true;
       Nav.loadProgress := 0;
       Nav.error := None |}.
Proof. intros H. unfold Nav.navigate. by rewrite H. Qed.

Lemma nav_inv_initial : nav_inv Nav.initial.
Proof. split; [unfold Js.len; simpl; lia | reflexivity]. Qed.

Lemma nav_inv_navigate url st : nav_inv st -> nav_inv (Nav.navigate url st).
Proof.
  intros [Hidx Hurl].
  destruct (Nav.isValidUrl url) eqn:Hvalid.
  - rewrite nav_navigate_valid by done. unfold nav_inv. cbn.
    set (e := (Nav.currentIndex (Nav.history st) + 1)%Z).
    assert (He : (0 <= e <= Js.len (Nav.entries (Nav.history st)))%Z)
      by (subst e; lia).
    rewrite len_app, len_slice0 by done.
    change (Js.len [Nav.normaliseUrl url]) with 1%Z.
    replace (e + 1 - 1)%Z with e by lia.
    split; [lia|].
    destruct (e =? -1)%Z eqn:E; [lia|].
    symmetry. by apply index_slice0_app.
  - rewrite nav_navigate_invalid by done. by split.
Qed.

Lemma nav_inv_goBack st : nav_inv st -> nav_inv (Nav.goBack st).
Proof.
  intros [Hidx Hurl]. unfold Nav.goBack, Nav.canGoBack.
  destruct (0 <? Nav.currentIndex (Nav.history st))%Z eqn:E; cbn; [|by split].
  apply Z.ltb_lt in E. split; cbn; [lia|].
  destruct (Nav.currentIndex (Nav.history st) - 1 =? -1)%Z eqn:E'; [lia|done].
Qed.

Lemma nav_inv_goForward st : nav_inv st -> nav_inv (Nav.goForward st).
Proof.
  intros [Hidx Hurl]. unfold Nav.goForward, Nav.canGoForward.
  destruct (Nav.currentIndex (Nav.history st)
            <? Js.len (Nav.entries (Nav.history st)) - 1)%Z eqn:E;
    cbn; [|by split].
  apply Z.ltb_lt in E. split; cbn; [lia|].
  destruct (Nav.currentIndex (Nav.history st) + 1 =? -1)%Z eqn:E'; [lia|done].
Qed.

Lemma nav_inv_step a st : nav_inv st -> nav_inv (Nav.step a st).
Proof.
  intros H. destruct a; cbn.
  - by apply nav_inv_navigate.
  - by apply nav_inv_goBack.
  - by apply nav_inv_goForward.
  - unfold Nav.refresh. by destruct (Nav.falsy _).
  - exact H.
  - exact H.
  - exact H.
  - exact H.
  - apply nav_inv_initial.
Qed.

Lemma nav_run_snoc l a st :
  Nav.run (l ++ [a]) st = Nav.step a (Nav.run l st).
Proof. unfold Nav.run. by rewrite fold_left_app. Qed.

Lemma nav_inv_run l : nav_inv (Nav.run l Nav.initial).
Proof.
  induction l as [|a l IH] using rev_ind.
  - apply nav_inv_initial.
  - rewrite nav_run_snoc. by apply nav_inv_step.
Qed.

Lemma nav_inv_reachable st : Nav.reachable st -> nav_inv st.
Proof. intros [l <-]. apply nav_inv_run. Qed.

(** The invariant of claim C1 on [useNavigation]: after every sequence
    of actions the cursor is within [-1 .. entries.length - 1], and the
    two computed flags are what the claim says. *)
Lemma nav_cursor_and_flags l :
  let st := Nav.run l Nav.initial in
  (-1 <= Nav.historyIndex st < Js.len (Nav.entries (Nav.history st)))%Z
  /\ flags_agree (Nav.historyIndex st) (Js.len (Nav.entries (Nav.history st)))
       (Nav.canGoBack st) (Nav.canGoForward st).
Proof.
  cbn. destruct (nav_inv_run l) as [Hidx _]. split; [exact Hidx|].
  by split.
Qed.

End NavFacts.

(* ===================================================================== *)
(** * [useBrowserStore]: the invariant *)
(* ===================================================================== *)

Section StoreFacts.
Implicit Types (st : BrowserStore.NavigationState).

Lemma store_inv_initial : store_inv BrowserStore.initial.
Proof.
  unfold store_inv, Js.len. simpl.
  repeat split; try lia; try done.
Qed.

(** Writing the entry under the cursor keeps the invariant when the
    new entry has the URL the state shows. *)
Lemma store_inv_set_current st entry url back :
  store_inv st ->
  (0 <= BrowserStore.historyIndex st)%Z ->
  NavigationEntry.url entry = url ->
  back = (0 <? BrowserStore.historyIndex st)%Z ->
  exists h,
    Js.set_at (BrowserStore.history st) (BrowserStore.historyIndex st) entry
      = Some h
    /\ forall loading progress err forward,
        (forward = true ->
         BrowserStore.historyIndex st < Js.len (BrowserStore.history st) - 1)%Z ->
        store_inv
          (BrowserStore.mkState url h (BrowserStore.historyIndex st)
             loading progress err back forward).
Proof.
  intros (Hidx & Hempty & Hurl & Hback & Hfwd) Hpos Hentry ->.
  destruct (set_at_in_range (BrowserStore.history st)
              (BrowserStore.historyIndex st) entry) as [h Hh]; [lia|].
  exists h. split; [done|]. intros loading progress err forward Hforward.
  destruct (index_set_at _ _ _ _ Hh) as [Hget Hlen].
  unfold store_inv; cbn. rewrite Hget, Hlen. cbn.
  repeat split; try lia; try done; try congruence.
Qed.

Lemma store_navigate_push url options now st :
  BrowserStore.wants_replace options && (0 <=? BrowserStore.historyIndex st)%Z
    = false ->
  BrowserStore.navigate url options now st =
    let h := Js.slice0 (BrowserStore.history st)
               (BrowserStore.historyIndex st + 1)
             ++ [NavigationEntry.mk url None now None None] in
    Some (BrowserStore.mkState url h (Js.len h - 1) true 0 None
            (0 <? Js.len h - 1)%Z false).
Proof. intros H. unfold BrowserStore.navigate. by rewrite H. Qed.

Lemma store_navigate_total url options now st :
  store_inv st ->
  exists st', BrowserStore.navigate url options now st = Some st'
              /\ store_inv st'.
Proof.
  intros Hinv.
  destruct (BrowserStore.wants_replace options
            && (0 <=? BrowserStore.historyIndex st)%Z) eqn:E.
  - pose proof E as [_ Hpos%Z.leb_le]%andb_true_iff.
    destruct (store_inv_set_current st
                (NavigationEntry.mk url None now None None) url
                (0 <? BrowserStore.historyIndex st)%Z Hinv Hpos eq_refl eq_refl)
      as (h & Hh & Hkeep).
    eexists. split.
    + unfold BrowserStore.navigate. rewrite E. cbn. rewrite Hh. cbn.
      reflexivity.
    + apply Hkeep. done.
  - rewrite store_navigate_push by done. cbn. eexists; split; [done|].
    destruct Hinv as (Hidx & _).
    set (e := (BrowserStore.historyIndex st + 1)%Z).
    assert (He : (0 <= e <= Js.len (BrowserStore.history st))%Z)
      by (subst e; lia).
    unfold store_inv; cbn.
    rewrite len_app, len_slice0 by done.
    change (Js.len [_]) with 1%Z.
    replace (e + 1 - 1)%Z with e by lia.
    rewrite index_slice0_app by done. cbn.
    repeat split; try lia; try done.
Qed.

Lemma store_goBack_total st :
  store_inv st ->
  exists st', BrowserStore.goBack st = Some st' /\ store_inv st'.
Proof.
  intros Hinv. pose proof Hinv as (Hidx & Hempty & Hurl & Hback & Hfwd).
  unfold BrowserStore.goBack.
  destruct (0 <? BrowserStore.historyIndex st)%Z eqn:E; [|eauto].
  apply Z.ltb_lt in E.
  destruct (index_in_range (BrowserStore.history st)
              (BrowserStore.historyIndex st - 1)) as [entry Hentry]; [lia|].
  rewrite Hentry. cbn. eexists; split; [done|].
  unfold store_inv; cbn. rewrite Hentry. cbn.
  repeat split; try lia; try done.
Qed.

Lemma store_goForward_total st :
  store_inv st ->
  exists st', BrowserStore.goForward st = Some st' /\ store_inv st'.
Proof.
  intros Hinv. pose proof Hinv as (Hidx & Hempty & Hurl & Hback & Hfwd).
  unfold BrowserStore.goForward.
  destruct (BrowserStore.historyIndex st
            <? Js.len (BrowserStore.history st) - 1)%Z eqn:E; [|eauto].
  apply Z.ltb_lt in E.
  assert (Hpos : (0 <= BrowserStore.historyIndex st)%Z).
  { destruct (Z.eq_dec (BrowserStore.historyIndex st) (-1)%Z) as [Hm|]; [|lia].
    rewrite (Hempty Hm) in E. unfold Js.len in E. simpl in E. lia. }
  destruct (index_in_range (BrowserStore.history st)
              (BrowserStore.historyIndex st + 1)) as [entry Hentry]; [lia|].
  rewrite Hentry. cbn. eexists; split; [done|].
  unfold store_inv; cbn. rewrite Hentry. cbn.
  repeat split; try lia; try done;
    try (symmetry; apply Z.ltb_lt; lia); try (intros H%Z.ltb_lt; lia).
Qed.

Lemma store_update_current_total f st :
  store_inv st ->
  (0 <= BrowserStore.historyIndex st)%Z ->
  (forall e, NavigationEntry.url (f e) = NavigationEntry.url e) ->
  exists h, BrowserStore.update_current f st = Some h
            /\ store_inv (BrowserStore.with_history h st).
Proof.
  intros Hinv Hpos Hf. pose proof Hinv as (Hidx & Hempty & Hurl & Hback & Hfwd).
  unfold BrowserStore.update_current.
  destruct (index_in_range (BrowserStore.history st)
              (BrowserStore.historyIndex st)) as [entry Hentry]; [lia|].
  rewrite Hentry. cbn.
  destruct (store_inv_set_current st (f entry) (BrowserStore.currentUrl st)
              (BrowserStore.canGoBack st) Hinv Hpos) as (h & Hh & Hkeep).
  - rewrite Hf. specialize (Hurl Hpos). rewrite Hentry in Hurl. by injection Hurl.
  - done.
  - exists h. split; [done|]. apply Hkeep. done.
Qed.

Lemma store_step_total a st :
  store_inv st ->
  exists st', BrowserStore.step a st = Some st' /\ store_inv st'.
Proof.
  intros Hinv. destruct a; cbn.
  - by apply store_navigate_total.
  - by apply store_goBack_total.
  - by apply store_goForward_total.
  - eexists; split; [done|]. exact Hinv.
  - eexists; split; [done|]. exact Hinv.
  - eexists; split; [done|]. exact Hinv.
  - unfold BrowserStore.setLoadComplete.
    destruct (BrowserStore.truthy title
              && (0 <=? BrowserStore.historyIndex st)%Z) eqn:E.
    + apply andb_true_iff in E as [_ Hpos%Z.leb_le].
      destruct (store_update_current_total
                  (BrowserStore.with_title (default [] title)) st Hinv Hpos)
        as (h & -> & Hh); [done|].
      cbn. eexists; split; [done|]. exact Hh.
    + cbn. eexists; split; [done|]. exact Hinv.
  - eexists; split; [done|]. exact Hinv.
  - eexists; split; [done|]. exact Hinv.
  - unfold BrowserStore.updateTitle.
    destruct (0 <=? BrowserStore.historyIndex st)%Z eqn:E; [|eauto].
    apply Z.leb_le in E.
    destruct (store_update_current_total
                (BrowserStore.with_title title) st Hinv E)
      as (h & -> & Hh); [done|]. cbn. eauto.
  - unfold BrowserStore.updateFavicon.
    destruct (0 <=? BrowserStore.historyIndex st)%Z eqn:E; [|eauto].
    apply Z.leb_le in E.
    destruct (store_update_current_total
                (BrowserStore.with_favicon favicon) st Hinv E)
      as (h & -> & Hh); [done|]. cbn. eauto.
  - eexists; split; [done|]. apply store_inv_initial.
Qed.

(** No sequence of actions leaves the typed state, and the invariant
    holds after each of them. *)
Lemma store_run_total l st :
  store_inv st ->
  exists st', BrowserStore.run l st = Some st' /\ store_inv st'.
Proof.
  revert st. induction l as [|a l IH]; intros st Hinv; cbn; [eauto|].
  destruct (store_step_total a st Hinv) as (st1 & -> & Hinv1). cbn.
  by apply IH.
Qed.

Lemma store_inv_reachable st : BrowserStore.reachable st -> store_inv st.
Proof.
  intros [l Hrun].
  destruct (store_run_total l _ store_inv_initial) as (st' & Hrun' & Hinv).
  congruence.
Qed.

End StoreFacts.

(* ===================================================================== *)
(** * Navigation: the claims *)
(* ===================================================================== *)

(** The store's counterparts do less: [setLoadComplete] keeps a recorded
    error and [stopLoading] keeps the progress. *)
Lemma store_setLoadComplete_keeps_error title st st' :
  BrowserStore.setLoadComplete title st = Some st' ->
  BrowserStore.error st' = BrowserStore.error st
  /\ BrowserStore.isLoading st' = false
  /\ BrowserStore.loadProgress st' = 100%float.
Proof.
  unfold BrowserStore.setLoadComplete.
  destruct (if BrowserStore.truthy title && _ then _ else _) as [h|];
    [|done].
  cbn. by intros [= <-].
Qed.

Lemma store_stopLoading_keeps_progress st :
  BrowserStore.isLoading (BrowserStore.stopLoading st) = false
  /\ BrowserStore.loadProgress (BrowserStore.stopLoading st)
     = BrowserStore.loadProgress st.
Proof. done. Qed.

(** C6, as the code has it. In [useNavigation], in every state,
    [onLoadComplete] sets [isLoading = false], [loadProgress = 100] and
    [error = null], whatever error was recorded before; the history
    and the URL are not touched. In the store, on every reachable
    state, [setLoadComplete] succeeds and sets [isLoading = false] and
    [loadProgress = 100] the same way, but it leaves [error] as it
    was. *)
Theorem onLoadComplete_clears_error (st : Nav.State)
    (title : option Js.jsstring) (s : BrowserStore.NavigationState) :
  BrowserStore.reachable s ->
  (Nav.isLoading (Nav.onLoadComplete st) = false
   /\ Nav.loadProgress (Nav.onLoadComplete st) = 100%float
   /\ Nav.error (Nav.onLoadComplete st) = None
   /\ Nav.history (Nav.onLoadComplete st) = Nav.history st
   /\ Nav.currentUrl (Nav.onLoadComplete st) = Nav.currentUrl st)
  /\ exists s',
       BrowserStore.setLoadComplete title s = Some s'
       /\ BrowserStore.isLoading s' = false
       /\ BrowserStore.loadProgress s' = 100%float
       /\ BrowserStore.error s' = BrowserStore.error s.
Proof.
  intros Hs%store_inv_reachable.
  split; [unfold Nav.onLoadComplete; cbn; repeat split|].
  destruct (store_step_total (BrowserStore.SetLoadComplete title) s Hs)
    as (s' & Hstep & _).
  cbn in Hstep. exists s'.
  destruct (store_setLoadComplete_keeps_error _ _ _ Hstep) as (He & Hl & Hp).
  done.
Qed.

Lemma onLoadComplete_clears_error_witness :
  let err := NavigationError.mk network (Js.str "offline") None None None None in
  let st := Nav.onLoadError err Nav.initial in
  exists s,
    BrowserStore.run [BrowserStore.SetLoadError err] BrowserStore.initial
    = Some s
    /\ Nav.error st = Some err
    /\ Nav.error (Nav.onLoadComplete st) = None
    /\ exists s',
         BrowserStore.setLoadComplete (Some (Js.str "Home")) s = Some s'
         /\ BrowserStore.loadProgress s' = 100%float
         /\ BrowserStore.error s' = Some err.
Proof.
  intros err st. eexists. split; [reflexivity|].
  set (s := BrowserStore.setLoadError err BrowserStore.initial).
  assert (Hs : BrowserStore.reachable s)
    by (exists [BrowserStore.SetLoadError err]; reflexivity).
  destruct (onLoadComplete_clears_error st (Some (Js.str "Home")) s Hs)
    as ((_ & _ & Herr & _) & s' & Hs' & _ & Hp & He).
  split; [reflexivity|]. split; [exact Herr|].
  exists s'. split; [exact Hs'|]. split; [exact Hp | exact He].
Defined.

(** C6 as stated fails on the store: after [setLoadError], a
    [setLoadComplete] ends the loading and leaves the error in
    place. *)
Lemma setLoadComplete_error_counterexample :
  let err := NavigationError.mk network (Js.str "offline") None None None None in
  let r := BrowserStore.run
             [BrowserStore.SetLoadError err; BrowserStore.SetLoadComplete None]
             BrowserStore.initial in
  (BrowserStore.isLoading <$> r) = Some false
  /\ (BrowserStore.loadProgress <$> r) = Some 100%float
  /\ (BrowserStore.error <$> r) = Some (Some err)
  /\ (BrowserStore.error <$> r) <> Some None.
Proof.
  cbv zeta. split; [reflexivity|]. split; [reflexivity|].
  split; [reflexivity | discriminate].
Qed.



Section NavClaims.
Context {platform : UrlPlatform}.

(** C10: in [useNavigation], after every sequence of actions from the
    initial state, either the cursor is [-1] and [currentUrl] is the
    empty string, or the cursor is a position of [entries] and
    [currentUrl] is the URL stored there. *)
Theorem currentUrl_is_entry_under_cursor (l : list Nav.Action) :
  let st := Nav.run l Nav.initial in
  (Nav.historyIndex st = (-1)%Z /\ Nav.currentUrl st = Some [])
  \/ ((0 <= Nav.historyIndex st)%Z
      /\ exists url, Js.index (Nav.entries (Nav.history st))
                       (Nav.historyIndex st) = Some url
                     /\ Nav.currentUrl st = Some url).
Proof.
  cbn. destruct (nav_inv_run l) as [Hidx Hurl]. unfold Nav.historyIndex.
  destruct (Nav.currentIndex _ =? -1)%Z eqn:E.
  - left. split; [lia | done].
  - right. split; [lia|].
    destruct (index_in_range (Nav.entries (Nav.history (Nav.run l Nav.initial)))
                (Nav.currentIndex (Nav.history (Nav.run l Nav.initial))))
      as [url Hget]; [lia|].
    exists url. split; [done | congruence].
Qed.

(** C2, as the code has it: in [useNavigation], for every state and
    every input that fails the validation, [navigate] leaves [entries],
    the cursor, [currentUrl], [isLoading] and [loadProgress] as they
    were, and sets [error] to an error of type ['invalid-url'] with the
    fixed message and no other field: [recoverable] is absent, not
    [false]. *)
Theorem navigate_invalid_url (url : Js.jsstring) (st : Nav.State) :
  Nav.isValidUrl url = false ->
  let st' := Nav.navigate url st in
  Nav.entries (Nav.history st') = Nav.entries (Nav.history st)
  /\ Nav.historyIndex st' = Nav.historyIndex st
  /\ Nav.currentUrl st' = Nav.currentUrl st
  /\ Nav.isLoading st' = Nav.isLoading st
  /\ Nav.loadProgress st' = Nav.loadProgress st
  /\ Nav.error st' =
       Some {| NavigationError.type := invalid_url;
               NavigationError.message := Nav.invalid_url_message;
               NavigationError.url := None;
               NavigationError.timestamp := None;
               NavigationError.recoverable := None;
               NavigationError.originalError := None |}.
Proof. intros H. cbn. by rewrite nav_navigate_invalid. Qed.

End NavClaims.

(** C3: [navigate] with a valid URL (in the store: without [replace])
    from a cursor inside the history keeps the entries at positions
    [0 .. historyIndex], appends the new entry and moves the cursor to
    it, the new last position. Entries after the cursor are dropped; at
    a non-tail cursor there are some. *)
Theorem navigate_truncates_then_appends {platform : UrlPlatform}
    (url : Js.jsstring) (st : Nav.State)
    (options : option BrowserStore.NavigateOptions) (now : Z)
    (s : BrowserStore.NavigationState) :
  Nav.isValidUrl url = true ->
  (-1 <= Nav.historyIndex st < Js.len (Nav.entries (Nav.history st)))%Z ->
  BrowserStore.wants_replace options = false ->
  (-1 <= BrowserStore.historyIndex s < Js.len (BrowserStore.history s))%Z ->
  (let st' := Nav.navigate url st in
   Nav.entries (Nav.history st') =
     take (Z.to_nat (Nav.historyIndex st + 1)) (Nav.entries (Nav.history st))
     ++ [Nav.normaliseUrl url]
   /\ Nav.historyIndex st' = (Nav.historyIndex st + 1)%Z
   /\ Nav.historyIndex st' = (Js.len (Nav.entries (Nav.history st')) - 1)%Z)
  /\ exists s',
       BrowserStore.navigate url options now s = Some s'
       /\ BrowserStore.history s' =
            take (Z.to_nat (BrowserStore.historyIndex s + 1))
              (BrowserStore.history s)
            ++ [NavigationEntry.mk url None now None None]
       /\ BrowserStore.historyIndex s' = (BrowserStore.historyIndex s + 1)%Z
       /\ BrowserStore.historyIndex s'
          = (Js.len (BrowserStore.history s') - 1)%Z.
Proof.
  intros Hvalid Hidx Hreplace Hsidx. split.
  - cbn. rewrite nav_navigate_valid by done. cbn. unfold Nav.historyIndex in *.
    cbn. rewrite len_app, len_slice0 by lia.
    rewrite slice0_take by lia. change (Js.len [_]) with 1%Z.
    repeat split; lia.
  - rewrite store_navigate_push by (by rewrite Hreplace).
    cbn. eexists. split; [done|]. cbn.
    rewrite len_app, len_slice0 by lia.
    rewrite slice0_take by lia. change (Js.len [_]) with 1%Z.
    repeat split; lia.
Qed.

(** The example of the specification: from [[A, B, C]] with the cursor
    at [A], [navigate(D)] gives [[A, D]] with the cursor at 1. *)
Lemma navigate_truncates_then_appends_witness :
  let A := Js.str "https://a.example/" in
  let B := Js.str "https://b.example/" in
  let C := Js.str "https://c.example/" in
  let D := Js.str "https://d.example/" in
  let st := {| Nav.history := {| Nav.entries := [A; B; C];
                                 Nav.currentIndex := 0 |};
               Nav.currentUrl := Some A; Nav.isLoading := false;
               Nav.loadProgress := 100; Nav.error := None |} in
  let entry u t := NavigationEntry.mk u None t None None in
  let s := BrowserStore.mkState A [entry A 1; entry B 2; entry C 3]%Z 0
             false 100 None false true in
  (Nav.entries (Nav.history (Nav.navigate (platform := ExampleParser.platform) D st))
     = [A; D]
   /\ Nav.historyIndex (Nav.navigate (platform := ExampleParser.platform) D st)
      = 1%Z)
  /\ exists s', BrowserStore.navigate D None 4 s = Some s'
                /\ BrowserStore.history s' = [entry A 1%Z; entry D 4%Z]
                /\ BrowserStore.historyIndex s' = 1%Z.
Proof.
  intros A B C D st entry s.
  assert (H1 : Nav.isValidUrl (platform := ExampleParser.platform) D = true)
    by reflexivity.
  assert (H2 : (-1 <= Nav.historyIndex st
                < Js.len (Nav.entries (Nav.history st)))%Z)
    by (unfold st, Nav.historyIndex, Js.len; simpl; lia).
  assert (H3 : BrowserStore.wants_replace None = false) by reflexivity.
  assert (H4 : (-1 <= BrowserStore.historyIndex s
                < Js.len (BrowserStore.history s))%Z)
    by (unfold s, Js.len; simpl; lia).
  destruct (navigate_truncates_then_appends (platform := ExampleParser.platform)
              D st None 4 s H1 H2 H3 H4)
    as [(Hentries & Hcursor & _) (s' & Hs' & Hhist & Hscursor & _)].
  split; [split; [exact Hentries | exact Hcursor]|].
  exists s'. split; [exact Hs'|]. split; [exact Hhist | exact Hscursor].
Defined.

(** C2 as stated fails on both [navigate] functions. The empty string
    fails the validation ([new URL("https://")] throws). In
    [useNavigation] the recorded error has no [recoverable] field, so
    the flag is [undefined], not [false]; [useBrowserStore.navigate]
    does not validate: it appends the entry and records no error. *)
Lemma navigate_invalid_url_counterexample :
  let url : Js.jsstring := [] in
  let st' := Nav.navigate (platform := ExampleParser.platform) url Nav.initial in
  (Nav.isValidUrl (platform := ExampleParser.platform) url = false
   /\ Url.isValidUrl (platform := ExampleParser.platform) url = false)
  /\ (NavigationError.recoverable <$> Nav.error st') = Some None
  /\ (NavigationError.recoverable <$> Nav.error st') <> Some (Some false)
  /\ exists s',
       BrowserStore.navigate url None 0 BrowserStore.initial = Some s'
       /\ BrowserStore.history s' <> BrowserStore.history BrowserStore.initial
       /\ BrowserStore.historyIndex s' = 0%Z
       /\ BrowserStore.error s' = None.
Proof.
  cbv zeta. split; [split; reflexivity|].
  split; [reflexivity|]. split; [discriminate|].
  eexists. split; [reflexivity|]. split; [discriminate|]. split; reflexivity.
Qed.

Lemma navigate_invalid_url_witness :
  let url : Js.jsstring := Js.str "  " in
  let st := Nav.navigate (platform := ExampleParser.platform)
              (Js.str "a.example") Nav.initial in
  let st' := Nav.navigate (platform := ExampleParser.platform) url st in
  Nav.isValidUrl (platform := ExampleParser.platform) url = false
  /\ Nav.entries (Nav.history st') = [Js.str "https://a.example"]
  /\ Nav.historyIndex st' = 0%Z
  /\ Nav.currentUrl st' = Some (Js.str "https://a.example")
  /\ (NavigationError.type <$> Nav.error st') = Some invalid_url.
Proof.
  cbv zeta.
  assert (H : Nav.isValidUrl (platform := ExampleParser.platform)
                (Js.str "  ") = false) by reflexivity.
  split; [exact H|].
  destruct (navigate_invalid_url (platform := ExampleParser.platform)
              (Js.str "  ")
              (Nav.navigate (platform := ExampleParser.platform)
                 (Js.str "a.example") Nav.initial) H)
    as (He & Hi & Hu & _ & _ & Herr).
  split; [exact He|]. split; [exact Hi|]. split; [exact Hu|].
  rewrite Herr. reflexivity.
Defined.

(** C4, as the code has it: from a reachable state where [goBack] can
    move (the cursor is above 0) or [goForward] cannot (the cursor is
    at the last entry), [goBack] and then [goForward] bring
    [currentUrl] and the cursor back to what they were. This holds in
    [useNavigation] and in the store. *)
Theorem goBack_then_goForward_restores {platform : UrlPlatform}
    (st : Nav.State) (s : BrowserStore.NavigationState) :
  Nav.reachable st ->
  (0 < Nav.historyIndex st
   \/ Js.len (Nav.entries (Nav.history st)) - 1 <= Nav.historyIndex st)%Z ->
  BrowserStore.reachable s ->
  (0 < BrowserStore.historyIndex s
   \/ Js.len (BrowserStore.history s) - 1 <= BrowserStore.historyIndex s)%Z ->
  (Nav.currentUrl (Nav.goForward (Nav.goBack st)) = Nav.currentUrl st
   /\ Nav.historyIndex (Nav.goForward (Nav.goBack st)) = Nav.historyIndex st)
  /\ exists s1 s2,
       BrowserStore.goBack s = Some s1
       /\ BrowserStore.goForward s1 = Some s2
       /\ BrowserStore.currentUrl s2 = BrowserStore.currentUrl s
       /\ BrowserStore.historyIndex s2 = BrowserStore.historyIndex s.
Proof.
  intros [Hidx Hurl]%nav_inv_reachable Hcase
         (Hsidx & Hsempty & Hsurl & Hsback & Hsfwd)%store_inv_reachable Hscase.
  split.
  - unfold Nav.historyIndex in *.
    unfold Nav.goBack, Nav.canGoBack.
    destruct (0 <? Nav.currentIndex (Nav.history st))%Z eqn:Eback; cbn.
    + apply Z.ltb_lt in Eback.
      unfold Nav.goForward, Nav.canGoForward. cbn.
      destruct (Nav.currentIndex (Nav.history st) - 1
                <? Js.len (Nav.entries (Nav.history st)) - 1)%Z eqn:Efwd;
        [|apply Z.ltb_ge in Efwd; lia].
      cbn.
      replace (Nav.currentIndex (Nav.history st) - 1 + 1)%Z
        with (Nav.currentIndex (Nav.history st)) by lia.
      split; [|done]. rewrite Hurl.
      destruct (Nav.currentIndex (Nav.history st) =? -1)%Z eqn:E; [lia|done].
    + apply Z.ltb_ge in Eback.
      unfold Nav.goForward, Nav.canGoForward.
      destruct (Nav.currentIndex (Nav.history st)
                <? Js.len (Nav.entries (Nav.history st)) - 1)%Z eqn:Efwd;
        [apply Z.ltb_lt in Efwd; lia|].
      done.
  - unfold BrowserStore.goBack.
    destruct (0 <? BrowserStore.historyIndex s)%Z eqn:Eback.
    + apply Z.ltb_lt in Eback.
      destruct (index_in_range (BrowserStore.history s)
                  (BrowserStore.historyIndex s - 1)) as [e1 He1]; [lia|].
      specialize (Hsurl ltac:(lia)).
      destruct (Js.index (BrowserStore.history s) (BrowserStore.historyIndex s))
        as [e|] eqn:He; [|done].
      cbn in Hsurl. injection Hsurl as Hsurl.
      rewrite He1. cbn. eexists. eexists. split; [done|].
      unfold BrowserStore.goForward. cbn.
      destruct (BrowserStore.historyIndex s - 1
                <? Js.len (BrowserStore.history s) - 1)%Z eqn:Efwd;
        [|apply Z.ltb_ge in Efwd; lia].
      replace (BrowserStore.historyIndex s - 1 + 1)%Z
        with (BrowserStore.historyIndex s) by lia.
      rewrite He. cbn.
      split; [reflexivity|]. cbn. by split.
    + apply Z.ltb_ge in Eback. exists s, s. split; [done|].
      unfold BrowserStore.goForward.
      destruct (BrowserStore.historyIndex s
                <? Js.len (BrowserStore.history s) - 1)%Z eqn:Efwd;
        [apply Z.ltb_lt in Efwd; lia|].
      done.
Qed.

Lemma goBack_then_goForward_restores_witness :
  let A := Js.str "a.example" in
  let B := Js.str "b.example" in
  let st := Nav.run (platform := ExampleParser.platform)
              [Nav.Navigate A; Nav.Navigate B] Nav.initial in
  let s := BrowserStore.mkState B
             [NavigationEntry.mk A None 1 None None;
              NavigationEntry.mk B None 2 None None]%Z
             1 true 0 None true false in
  (Nav.historyIndex st = 1%Z /\ BrowserStore.historyIndex s = 1%Z)
  /\ (Nav.currentUrl (Nav.goForward (Nav.goBack st)) = Nav.currentUrl st
      /\ Nav.historyIndex (Nav.goForward (Nav.goBack st)) = Nav.historyIndex st)
  /\ exists s1 s2,
       BrowserStore.goBack s = Some s1
       /\ BrowserStore.goForward s1 = Some s2
       /\ BrowserStore.currentUrl s2 = BrowserStore.currentUrl s
       /\ BrowserStore.historyIndex s2 = BrowserStore.historyIndex s.
Proof.
  intros A B st s. split; [split; reflexivity|].
  apply (goBack_then_goForward_restores (platform := ExampleParser.platform)).
  - exists [Nav.Navigate A; Nav.Navigate B]. reflexivity.
  - left. unfold st, Nav.historyIndex. vm_compute. reflexivity.
  - exists [BrowserStore.Navigate A None 1; BrowserStore.Navigate B None 2].
    reflexivity.
  - left. unfold s. simpl. lia.
Defined.

(** C4 as stated fails: after [navigate(A); navigate(B); goBack()] the
    cursor is 0 with [B] ahead. There [goBack] does nothing and
    [goForward] moves to [B], so the pair does not restore the state;
    the same happens in the store. *)
Lemma goBack_then_goForward_counterexample :
  let A := Js.str "a.example" in
  let B := Js.str "b.example" in
  let st := Nav.run (platform := ExampleParser.platform)
              [Nav.Navigate A; Nav.Navigate B; Nav.GoBack] Nav.initial in
  (Nav.reachable (platform := ExampleParser.platform) st
   /\ Nav.historyIndex st = 0%Z
   /\ Nav.historyIndex (Nav.goForward (Nav.goBack st)) = 1%Z
   /\ Nav.currentUrl st = Some (Js.str "https://a.example")
   /\ Nav.currentUrl (Nav.goForward (Nav.goBack st))
      = Some (Js.str "https://b.example"))
  /\ exists s s1 s2,
       BrowserStore.run [BrowserStore.Navigate A None 1;
                         BrowserStore.Navigate B None 2;
                         BrowserStore.GoBack] BrowserStore.initial = Some s
       /\ BrowserStore.goBack s = Some s1
       /\ BrowserStore.goForward s1 = Some s2
       /\ BrowserStore.historyIndex s = 0%Z
       /\ BrowserStore.historyIndex s2 = 1%Z
       /\ BrowserStore.currentUrl s = A
       /\ BrowserStore.currentUrl s2 = B.
Proof.
  cbv zeta. split.
  - split; [eexists; reflexivity|]. repeat split; reflexivity.
  - do 3 eexists. repeat split; reflexivity.
Qed.

(* ===================================================================== *)
(** * The stored flags of [useBrowserStore] *)
(* ===================================================================== *)

Lemma store_update_current_len f s h :
  BrowserStore.update_current f s = Some h ->
  Js.len h = Js.len (BrowserStore.history s).
Proof.
  unfold BrowserStore.update_current.
  destruct (Js.index _ _) as [e|]; [|done]. cbn.
  intros H. by destruct (index_set_at _ _ _ _ H).
Qed.

(** An action other than a replacing [navigate] keeps [canGoForward]
    up to date. *)
Lemma store_step_canGoForward a s s' :
  store_replacing a = false ->
  store_inv s ->
  BrowserStore.canGoForward s
    = (BrowserStore.historyIndex s <? Js.len (BrowserStore.history s) - 1)%Z ->
  BrowserStore.step a s = Some s' ->
  BrowserStore.canGoForward s'
    = (BrowserStore.historyIndex s' <? Js.len (BrowserStore.history s') - 1)%Z.
Proof.
  intros Hrep (Hidx & _) Hfwd Hstep. destruct a; cbn in Hrep, Hstep.
  - rewrite store_navigate_push in Hstep by (by rewrite Hrep).
    cbn in Hstep. injection Hstep as <-. cbn.
    symmetry. apply Z.ltb_ge. lia.
  - unfold BrowserStore.goBack in Hstep.
    destruct (0 <? BrowserStore.historyIndex s)%Z eqn:E;
      [|by injection Hstep as <-].
    apply Z.ltb_lt in E.
    destruct (Js.index _ _) as [e|]; [|done]. cbn in Hstep.
    injection Hstep as <-. cbn. symmetry. apply Z.ltb_lt. lia.
  - unfold BrowserStore.goForward in Hstep.
    destruct (BrowserStore.historyIndex s
              <? Js.len (BrowserStore.history s) - 1)%Z eqn:E;
      [|injection Hstep as <-; congruence].
    destruct (Js.index _ _) as [e|]; [|done]. cbn in Hstep.
    by injection Hstep as <-.
  - by injection Hstep as <-.
  - by injection Hstep as <-.
  - by injection Hstep as <-.
  - unfold BrowserStore.setLoadComplete in Hstep.
    destruct (BrowserStore.truthy title
              && (0 <=? BrowserStore.historyIndex s)%Z).
    + destruct (BrowserStore.update_current _ s) as [h|] eqn:Hh; [|done].
      cbn in Hstep. injection Hstep as <-. cbn.
      by rewrite (store_update_current_len _ _ _ Hh).
    + cbn in Hstep. by injection Hstep as <-.
  - by injection Hstep as <-.
  - by injection Hstep as <-.
  - unfold BrowserStore.updateTitle in Hstep.
    destruct (0 <=? BrowserStore.historyIndex s)%Z;
      [|by injection Hstep as <-].
    destruct (BrowserStore.update_current _ s) as [h|] eqn:Hh; [|done].
    cbn in Hstep. injection Hstep as <-. cbn.
    by rewrite (store_update_current_len _ _ _ Hh).
  - unfold BrowserStore.updateFavicon in Hstep.
    destruct (0 <=? BrowserStore.historyIndex s)%Z;
      [|by injection Hstep as <-].
    destruct (BrowserStore.update_current _ s) as [h|] eqn:Hh; [|done].
    cbn in Hstep. injection Hstep as <-. cbn.
    by rewrite (store_update_current_len _ _ _ Hh).
  - by injection Hstep as <-.
Qed.

(** The invariant of claim C1 on [useBrowserStore], for the sequences
    of actions that never replace an entry: the sequence runs, the
    cursor stays within [-1 .. history.length - 1], and the two stored
    flags are what the claim says. *)
Lemma store_cursor_and_flags_without_replace l s :
  forallb (fun a => negb (store_replacing a)) l = true ->
  store_inv s ->
  BrowserStore.canGoForward s
    = (BrowserStore.historyIndex s <? Js.len (BrowserStore.history s) - 1)%Z ->
  exists s',
    BrowserStore.run l s = Some s'
    /\ (-1 <= BrowserStore.historyIndex s' < Js.len (BrowserStore.history s'))%Z
    /\ flags_agree (BrowserStore.historyIndex s')
         (Js.len (BrowserStore.history s'))
         (BrowserStore.canGoBack s') (BrowserStore.canGoForward s').
Proof.
  revert s. induction l as [|a l IH]; intros s Hl Hinv Hfwd; cbn.
  - exists s. split; [done|].
    destruct Hinv as (Hidx & _ & _ & Hback & _).
    split; [exact Hidx|]. by split.
  - cbn in Hl. apply andb_true_iff in Hl as [Ha%negb_true_iff Hl].
    destruct (store_step_total a s Hinv) as (s1 & Hstep & Hinv1).
    rewrite Hstep. cbn. apply IH; [done | done |].
    by apply (store_step_canGoForward a s s1).
Qed.

(** C1 in [useBrowserStore]: [navigate] with [replace] sets
    [canGoForward] to [false] also when entries remain after the
    cursor. After [navigate(A); navigate(B); goBack();
    navigate(C, {replace: true})] the history is [[C, B]] with the
    cursor at 0: [canGoForward] is [false] although
    [historyIndex < history.length - 1], and [goForward] does move to
    [B]. *)
Theorem store_replace_loses_canGoForward :
  let A := Js.str "https://a.example/" in
  let B := Js.str "https://b.example/" in
  let C := Js.str "https://c.example/" in
  let replace := Some (BrowserStore.mkOptions (Some true)) in
  exists s s',
    BrowserStore.run [BrowserStore.Navigate A None 1;
                      BrowserStore.Navigate B None 2;
                      BrowserStore.GoBack;
                      BrowserStore.Navigate C replace 3] BrowserStore.initial
      = Some s
    /\ NavigationEntry.url <$> BrowserStore.history s = [C; B]
    /\ BrowserStore.historyIndex s = 0%Z
    /\ BrowserStore.canGoForward s = false
    /\ (BrowserStore.historyIndex s <? Js.len (BrowserStore.history s) - 1)%Z
       = true
    /\ ~ flags_agree (BrowserStore.historyIndex s)
           (Js.len (BrowserStore.history s))
           (BrowserStore.canGoBack s) (BrowserStore.canGoForward s)
    /\ BrowserStore.goForward s = Some s'
    /\ BrowserStore.historyIndex s' = 1%Z
    /\ BrowserStore.currentUrl s' = B.
Proof.
  cbv zeta. do 2 eexists. split; [reflexivity|].
  split; [reflexivity|]. split; [reflexivity|]. split; [reflexivity|].
  split; [reflexivity|]. split; [|by repeat split].
  intros [_ H]. discriminate H.
Qed.

(* ===================================================================== *)
(** * Binary64 comparisons *)
(* ===================================================================== *)

Section FloatFacts.
Local Open Scope float_scope.

Lemma Prim2SF_zero : Prim2SF 0 = S754_zero false.
Proof. reflexivity. Qed.

Lemma SFeqb_refl_of_non_nan (x : spec_float) :
  x <> S754_nan -> SFeqb x x = true.
Proof.
  destruct x as [s|s| |s m e]; intros H; try done; unfold SFeqb; cbn.
  - by destruct s.
  - destruct s; rewrite Z.compare_refl, Pos.compare_cont_refl; done.
Qed.

(** A number that is at most 0 is not [NaN] and is not above 0. *)
Lemma float_nonpos (x : float) :
  (x <=? 0) = true -> is_nan x = false /\ (0 <? x) = false.
Proof.
  unfold is_nan.
  rewrite FloatAxioms.leb_spec, FloatAxioms.ltb_spec, FloatAxioms.eqb_spec,
    Prim2SF_zero.
  intros H. split.
  - rewrite SFeqb_refl_of_non_nan; [done|].
    intros E. by rewrite E in H.
  - destruct (Prim2SF x) as [s|s| |s m e]; try done;
      destruct s; done.
Qed.

(** A number that equals 0 (either zero) is at most 0. *)
Lemma float_eqb_zero_leb (x : float) :
  (x =? 0) = true -> (x <=? 0) = true.
Proof.
  rewrite FloatAxioms.leb_spec, FloatAxioms.eqb_spec, Prim2SF_zero.
  unfold SFeqb, SFleb.
  by destruct (SFcompare _ _) as [[]|].
Qed.

(** [Math.max(0, x)] is [+0] when [x] is at most 0. *)
Lemma Math_max_zero_nonpos (x : float) :
  (x <=? 0) = true -> Js.Math_max 0 x = 0.
Proof.
  intros [Hnan Hlt]%float_nonpos. unfold Js.Math_max.
  rewrite Hnan, Hlt. change (is_nan 0) with false. cbn.
  change (get_sign 0) with false. by destruct (x <? 0).
Qed.

End FloatFacts.

(* ===================================================================== *)
(** * [calculateScale]: the degenerate inputs *)
(* ===================================================================== *)

Section ScaleIeee.
Local Open Scope float_scope.
Implicit Types (containerW containerH deviceW deviceH : float).

(** C5: when the device width or height, or the container width or
    height less twice the padding, is zero or negative, [calculateScale]
    returns [{scale: 1, scaledWidth: deviceW, scaledHeight: deviceH,
    fitsContainer: false}] and performs no division at all. The function
    is total: there is no input on which it throws. *)
Theorem calculateScale_degenerate containerW containerH deviceW deviceH
    (paddingPx : option float) :
  let padding := default 20 paddingPx in
  (deviceW <=? 0) = true \/ (deviceH <=? 0) = true
  \/ (containerW - padding * 2 <=? 0) = true
  \/ (containerH - padding * 2 <=? 0) = true ->
  Viewport.calculateScale_divs containerW containerH deviceW deviceH paddingPx
  = ([], {| Viewport.scale := 1;
            Viewport.scaledWidth := deviceW;
            Viewport.scaledHeight := deviceH;
            Viewport.fitsContainer := false |})
  /\ Viewport.calculateScale containerW containerH deviceW deviceH paddingPx
     = {| Viewport.scale := 1;
          Viewport.scaledWidth := deviceW;
          Viewport.scaledHeight := deviceH;
          Viewport.fitsContainer := false |}.
Proof.
  cbv zeta. intros H.
  assert (Hguard :
    (deviceW <=? 0)
    || (deviceH <=? 0)
    || (Js.Math_max 0 (containerW - default 20 paddingPx * 2) <=? 0)
    || (Js.Math_max 0 (containerH - default 20 paddingPx * 2) <=? 0) = true).
  { destruct H as [H | [H | [H | H]]].
    - by rewrite H.
    - rewrite H. by rewrite orb_true_r.
    - rewrite (Math_max_zero_nonpos _ H).
      change (0 <=? 0) with true. by rewrite orb_true_r.
    - rewrite (Math_max_zero_nonpos _ H).
      change (0 <=? 0) with true. by rewrite orb_true_r. }
  unfold Viewport.calculateScale, Viewport.calculateScale_divs. cbn.
  rewrite Hguard. done.
Qed.

(** A container that has not been measured yet (0 by 0). *)
Lemma calculateScale_degenerate_witness :
  ((393 <=? 0) = true \/ (852 <=? 0) = true
   \/ (0 - 20 * 2 <=? 0) = true \/ (0 - 20 * 2 <=? 0) = true)
  /\ Viewport.calculateScale_divs 0 0 393 852 None
     = ([], {| Viewport.scale := 1;
               Viewport.scaledWidth := 393;
               Viewport.scaledHeight := 852;
               Viewport.fitsContainer := false |}).
Proof.
  assert (H : (393 <=? 0) = true \/ (852 <=? 0) = true
              \/ (0 - 20 * 2 <=? 0) = true \/ (0 - 20 * 2 <=? 0) = true)
    by (right; right; left; reflexivity).
  split; [exact H|].
  exact (proj1 (calculateScale_degenerate 0 0 393 852 None H)).
Defined.

(** On every input, each division [calculateScale] performs has a
    divisor other than zero. *)
Lemma calculateScale_divisors_nonzero containerW containerH deviceW deviceH
    (paddingPx : option float) (d : float) :
  d ∈ (Viewport.calculateScale_divs containerW containerH deviceW deviceH
         paddingPx).1 ->
  (d =? 0) = false.
Proof.
  unfold Viewport.calculateScale_divs. cbn.
  destruct (deviceW <=? 0) eqn:Ew; cbn; [by intros ?%elem_of_nil|].
  destruct (deviceH <=? 0) eqn:Eh; cbn; [by intros ?%elem_of_nil|].
  destruct (_ || _); cbn; [by intros ?%elem_of_nil|].
  intros Hd. apply not_true_is_false. intros Hz%float_eqb_zero_leb.
  apply elem_of_cons in Hd as [-> | Hd]; [congruence|].
  apply elem_of_cons in Hd as [-> | Hd]; [congruence|].
  by apply elem_of_nil in Hd.
Qed.

(** [calculateScaleFactor] of [utils/dimensions.ts] has no such guard:
    for a device of width 0 it divides by 0. *)
Lemma calculateScaleFactor_divides_by_zero :
  (Viewport.calculateScaleFactor_divs 0 852 500 500 None).1 = [0; 852]
  /\ (420 / 0 =? infinity) = true.
Proof. split; reflexivity. Qed.

End ScaleIeee.

(* ===================================================================== *)
(** * Binary64: comparisons through the key *)
(* ===================================================================== *)

Section FloatOrder.
Local Open Scope float_scope.
Implicit Types (x y z : float).

Lemma SFcompare_rank (a b : spec_float) :
  a <> S754_nan -> b <> S754_nan ->
  exists c, SFcompare a b = Some c
    /\ (c = Lt <-> lt3 (rank a) (rank b))
    /\ (c = Eq <-> rank a = rank b)
    /\ (c = Gt <-> lt3 (rank b) (rank a)).
Proof.
  intros Ha Hb.
  destruct a as [sa|sa| |sa ma ea], b as [sb|sb| |sb mb eb]; try done;
    try destruct sa; try destruct sb; cbn; unfold lt3; cbn;
    try (eexists; split; [reflexivity|]; repeat split;
         (lia || congruence || intros; simplify_eq; lia)).
  all: change (Pos.compare_cont Eq ma mb) with (ma ?= mb)%positive;
    destruct (Z.compare_spec ea eb), (Pos.compare_spec ma mb); cbn;
    (eexists; split; [reflexivity|]; repeat split;
     try (intros; simplify_eq; lia); try congruence; try lia;
     try (intros; f_equal; try f_equal; lia)).
Qed.

Lemma is_nan_false x : is_nan x = false <-> Prim2SF x <> S754_nan.
Proof.
  unfold is_nan. rewrite FloatAxioms.eqb_spec. split.
  - intros H E. rewrite E in H. done.
  - intros H. by rewrite SFeqb_refl_of_non_nan.
Qed.

Lemma is_nan_true x : is_nan x = true <-> Prim2SF x = S754_nan.
Proof.
  destruct (is_nan x) eqn:E.
  - split; [|done]. intros _.
    destruct (Prim2SF x) eqn:Ex; try done;
      apply not_false_iff_true in E; exfalso; apply E, is_nan_false;
      by rewrite Ex.
  - apply is_nan_false in E. split; [done | by intros ?].
Qed.

Lemma fltb_true x y :
  (x <? y) = true <->
  is_nan x = false /\ is_nan y = false /\ lt3 (frank x) (frank y).
Proof.
  rewrite FloatAxioms.ltb_spec, !is_nan_false. unfold frank, SFltb. split.
  - intros H.
    assert (Hx : Prim2SF x <> S754_nan) by (intros E; by rewrite E in H).
    assert (Hy : Prim2SF y <> S754_nan)
      by (intros E; rewrite E in H; by destruct (Prim2SF x)).
    destruct (SFcompare_rank _ _ Hx Hy) as (c & Hc & Hlt & _).
    rewrite Hc in H. destruct c; try done. repeat split; try done.
    by apply Hlt.
  - intros (Hx & Hy & Hlt).
    destruct (SFcompare_rank _ _ Hx Hy) as (c & Hc & Hclt & _).
    rewrite Hc. apply Hclt in Hlt. by subst c.
Qed.

Lemma fleb_true x y :
  (x <=? y) = true <->
  is_nan x = false /\ is_nan y = false /\ le3 (frank x) (frank y).
Proof.
  rewrite FloatAxioms.leb_spec, !is_nan_false. unfold frank, SFleb, le3. split.
  - intros H.
    assert (Hx : Prim2SF x <> S754_nan) by (intros E; by rewrite E in H).
    assert (Hy : Prim2SF y <> S754_nan)
      by (intros E; rewrite E in H; by destruct (Prim2SF x)).
    destruct (SFcompare_rank _ _ Hx Hy) as (c & Hc & Hlt & Heq & _).
    rewrite Hc in H. destruct c; try done; repeat split; try done.
    + right. by apply Heq.
    + left. by apply Hlt.
  - intros (Hx & Hy & Hle).
    destruct (SFcompare_rank _ _ Hx Hy) as (c & Hc & Hlt & Heq & _).
    rewrite Hc. destruct Hle as [H | H].
    + apply Hlt in H. by subst c.
    + apply Heq in H. by subst c.
Qed.

Lemma fltb_false x y :
  is_nan x = false -> is_nan y = false ->
  ((x <? y) = false <-> le3 (frank y) (frank x)).
Proof.
  intros Hx Hy. destruct (x <? y) eqn:E.
  - apply fltb_true in E as (_ & _ & E). split; [done|].
    unfold le3, lt3 in *. intros [H | H]; [lia | rewrite H in E; lia].
  - split; [|done]. intros _.
    assert (~ lt3 (frank x) (frank y)) as Hn.
    { intros H. assert ((x <? y) = true) by (by apply fltb_true). congruence. }
    unfold le3, lt3 in *.
    destruct (frank x) as [[a1 a2] a3], (frank y) as [[b1 b2] b3]. cbn in *.
    destruct (Z.lt_trichotomy a1 b1) as [?|[?|?]],
             (Z.lt_trichotomy a2 b2) as [?|[?|?]],
             (Z.lt_trichotomy a3 b3) as [?|[?|?]];
      try (exfalso; apply Hn; lia); try (left; lia).
    right. by subst.
Qed.

Lemma fleb_refl x : is_nan x = false -> (x <=? x) = true.
Proof. intros H. apply fleb_true. repeat split; try done. by right. Qed.

Lemma fltb_fleb x y : (x <? y) = true -> (x <=? y) = true.
Proof.
  intros (Hx & Hy & H)%fltb_true. apply fleb_true.
  repeat split; try done. by left.
Qed.

Lemma fleb_of_not_fltb x y :
  is_nan x = false -> is_nan y = false ->
  (y <? x) = false -> (x <=? y) = true.
Proof.
  intros Hx Hy H%fltb_false; try done. by apply fleb_true.
Qed.

(** [Math.max] and [Math.min] of two numbers: one of the two, on the
    right side of both. *)
Lemma Math_max_spec x y :
  is_nan x = false -> is_nan y = false ->
  (Js.Math_max x y = x \/ Js.Math_max x y = y)
  /\ (x <=? Js.Math_max x y) = true
  /\ (y <=? Js.Math_max x y) = true.
Proof.
  intros Hx Hy. unfold Js.Math_max. rewrite Hx, Hy. cbn [orb].
  destruct (x <? y) eqn:E1.
  - split; [by right|]. split; [by apply fltb_fleb | by apply fleb_refl].
  - destruct (y <? x) eqn:E2.
    + split; [by left|]. split; [by apply fleb_refl | by apply fltb_fleb].
    + destruct (get_sign x).
      * split; [by right|].
        split; [by apply fleb_of_not_fltb | by apply fleb_refl].
      * split; [by left|].
        split; [by apply fleb_refl | by apply fleb_of_not_fltb].
Qed.

Lemma Math_min_spec x y :
  is_nan x = false -> is_nan y = false ->
  (Js.Math_min x y = x \/ Js.Math_min x y = y)
  /\ (Js.Math_min x y <=? x) = true
  /\ (Js.Math_min x y <=? y) = true.
Proof.
  intros Hx Hy. unfold Js.Math_min. rewrite Hx, Hy. cbn [orb].
  destruct (x <? y) eqn:E1.
  - split; [by left|]. split; [by apply fleb_refl | by apply fltb_fleb].
  - destruct (y <? x) eqn:E2.
    + split; [by right|]. split; [by apply fltb_fleb | by apply fleb_refl].
    + destruct (get_sign x).
      * split; [by left|].
        split; [by apply fleb_refl | by apply fleb_of_not_fltb].
      * split; [by right|].
        split; [by apply fleb_of_not_fltb | by apply fleb_refl].
Qed.

Lemma Math_max_nan x y :
  is_nan x = true \/ is_nan y = true -> Js.Math_max x y = nan.
Proof.
  intros H. unfold Js.Math_max.
  destruct H as [-> | ->]; [done | by rewrite orb_true_r].
Qed.

Lemma Math_min_nan x y :
  is_nan x = true \/ is_nan y = true -> Js.Math_min x y = nan.
Proof.
  intros H. unfold Js.Math_min.
  destruct H as [-> | ->]; [done | by rewrite orb_true_r].
Qed.

Lemma Math_max_not_nan x y :
  is_nan x = false -> is_nan y = false -> is_nan (Js.Math_max x y) = false.
Proof.
  intros Hx Hy. by destruct (Math_max_spec x y Hx Hy) as ([-> | ->] & _).
Qed.

Lemma Math_min_not_nan x y :
  is_nan x = false -> is_nan y = false -> is_nan (Js.Math_min x y) = false.
Proof.
  intros Hx Hy. by destruct (Math_min_spec x y Hx Hy) as ([-> | ->] & _).
Qed.

(** [Math.max(lo, Math.min(hi, x))] for bounds [lo <= hi]. *)
Lemma clamp_in_range lo hi x :
  (lo <=? hi) = true -> is_nan x = false ->
  let r := Js.Math_max lo (Js.Math_min hi x) in
  (lo <=? r) = true /\ (r <=? hi) = true.
Proof.
  intros Hle Hx. cbn.
  pose proof Hle as (Hlo & Hhi & _)%fleb_true.
  destruct (Math_min_spec hi x Hhi Hx) as (Hm & Hmhi & _).
  assert (Hmn : is_nan (Js.Math_min hi x) = false)
    by (by apply Math_min_not_nan).
  destruct (Math_max_spec lo _ Hlo Hmn) as ([-> | ->] & Hlor & _);
    split; done.
Qed.

Lemma clamp_below lo hi x :
  (lo <=? hi) = true -> (x <? lo) = true ->
  Js.Math_max lo (Js.Math_min hi x) = lo.
Proof.
  intros (Hlo & Hhi & Hle)%fleb_true (Hx & _ & Hlt)%fltb_true.
  assert (Hmin : Js.Math_min hi x = x).
  { unfold Js.Math_min. rewrite Hhi, Hx. cbn [orb].
    assert ((hi <? x) = false) as ->.
    { apply fltb_false; try done. unfold le3, lt3 in *.
      destruct Hle as [Hle | Hle]; [|rewrite <- Hle; by left].
      left. lia. }
    assert ((x <? hi) = true) as ->; [|done].
    apply fltb_true. repeat split; try done. unfold le3, lt3 in *.
    destruct Hle as [Hle | Hle]; [lia | by rewrite <- Hle]. }
  rewrite Hmin. unfold Js.Math_max. rewrite Hlo, Hx. cbn [orb].
  assert ((lo <? x) = false) as ->.
  { apply fltb_false; try done. by left. }
  assert ((x <? lo) = true) as ->; [|done].
  by apply fltb_true.
Qed.

Lemma clamp_above lo hi x :
  (lo <=? hi) = true -> (hi <? x) = true ->
  Js.Math_max lo (Js.Math_min hi x) = Js.Math_max lo hi.
Proof.
  intros _ Hlt. pose proof Hlt as (Hhi & Hx & _)%fltb_true.
  unfold Js.Math_min. by rewrite Hhi, Hx, Hlt.
Qed.

Lemma clamp_inside lo hi x :
  (lo <? x) = true -> (x <? hi) = true ->
  Js.Math_max lo (Js.Math_min hi x) = x.
Proof.
  intros Hlo Hhi.
  pose proof Hlo as (Hnlo & Hnx & Hlt1)%fltb_true.
  pose proof Hhi as (_ & Hnhi & Hlt2)%fltb_true.
  assert (Hmin : Js.Math_min hi x = x).
  { unfold Js.Math_min. rewrite Hnhi, Hnx. cbn [orb].
    assert ((hi <? x) = false) as ->; [|by rewrite Hhi].
    apply fltb_false; try done. by left. }
  rewrite Hmin. unfold Js.Math_max. by rewrite Hnlo, Hnx, Hlo.
Qed.

End FloatOrder.

(* ===================================================================== *)
(** * Binary64: powers of two and digits *)
(* ===================================================================== *)

Section Pow2.

Lemma pow2_pos e : (0 < pow2 e)%Q.
Proof. by apply Qpower_0_lt. Qed.

Lemma pow2_add a b : (pow2 (a + b) == pow2 a * pow2 b)%Q.
Proof. by apply Qpower_plus. Qed.

Lemma pow2_0 : (pow2 0 == 1)%Q.
Proof. reflexivity. Qed.

Lemma pow2_succ e : (pow2 (e + 1) == 2 * pow2 e)%Q.
Proof. rewrite pow2_add. change (pow2 1) with 2%Q. ring. Qed.

Lemma pow2_pred e : (2 * pow2 (e - 1) == pow2 e)%Q.
Proof. rewrite <- pow2_succ. by replace (e - 1 + 1)%Z with e by lia. Qed.

Lemma pow2_le a b : (a <= b)%Z -> (pow2 a <= pow2 b)%Q.
Proof. intros H. by apply Qpower_le_compat_l. Qed.

Lemma pow2_lt a b : (a < b)%Z -> (2 * pow2 a <= pow2 b)%Q.
Proof.
  intros H. rewrite <- pow2_succ. apply pow2_le. lia.
Qed.

Lemma pow2_Z n : (0 <= n)%Z -> (pow2 n == inject_Z (2 ^ n))%Q.
Proof. intros H. by rewrite Zpower_Qpower. Qed.

Lemma pow2_shift a b : (pow2 a == pow2 (a - b) * pow2 b)%Q.
Proof. rewrite <- pow2_add. by replace (a - b + b)%Z with a by lia. Qed.

Lemma pow2_cancel a : (pow2 a * pow2 (- a) == 1)%Q.
Proof. rewrite <- pow2_add. by replace (a + - a)%Z with 0%Z by lia. Qed.

(** An integer below a rational bound. *)
Lemma inject_Z_lt_succ m n (x : Q) :
  (inject_Z m <= x)%Q -> (x < inject_Z n + 1)%Q -> (m <= n)%Z.
Proof.
  intros H1 H2.
  assert (H : (inject_Z m < inject_Z (n + 1))%Q).
  { rewrite inject_Z_plus. change (inject_Z 1) with 1%Q. lra. }
  rewrite <- Zlt_Qlt in H. lia.
Qed.

End Pow2.

Section Digits.

Lemma digits2_pos_size p : digits2_pos p = Pos.size p.
Proof. induction p as [p IH|p IH|]; cbn; by rewrite ?IH. Qed.

Lemma Zdigits2_nonneg m : (0 <= Zdigits2 m)%Z.
Proof. by destruct m. Qed.

Lemma Zdigits2_bounds m :
  (0 < m)%Z -> (2 ^ (Zdigits2 m - 1) <= m < 2 ^ Zdigits2 m)%Z.
Proof.
  destruct m as [|p|p]; [lia| |lia]. intros _. cbn [Zdigits2].
  rewrite digits2_pos_size.
  pose proof (Pos.size_gt p) as Hgt. pose proof (Pos.size_le p) as Hle.
  apply Pos2Z.pos_lt_pos in Hgt. apply Pos2Z.pos_le_pos in Hle.
  rewrite Pos2Z.inj_pow in Hgt, Hle.
  change (Z.pos p~0) with (2 * Z.pos p)%Z in Hle.
  split; [|exact Hgt].
  replace (2 ^ Z.pos (Pos.size p))%Z
    with (2 * 2 ^ (Z.pos (Pos.size p) - 1))%Z in Hle; [lia|].
  rewrite <- Z.pow_succ_r by lia. f_equal. lia.
Qed.

Lemma Zdigits2_lower m :
  (0 < m)%Z -> (pow2 (Zdigits2 m - 1) <= inject_Z m)%Q.
Proof.
  intros Hm. destruct (Zdigits2_bounds m Hm) as [H _].
  assert (0 < Zdigits2 m)%Z by (destruct m; cbn in *; lia).
  rewrite pow2_Z by lia. by rewrite <- Zle_Qle.
Qed.

Lemma Zdigits2_upper m :
  (0 <= m)%Z -> (inject_Z m + 1 <= pow2 (Zdigits2 m))%Q.
Proof.
  intros Hm. destruct (Z.eq_dec m 0%Z) as [->|Hne]; [done|].
  destruct (Zdigits2_bounds m) as [_ H]; [lia|].
  rewrite pow2_Z by apply Zdigits2_nonneg.
  change 1%Q with (inject_Z 1). rewrite <- inject_Z_plus, <- Zle_Qle. lia.
Qed.

(** The number of digits, from bounds. *)
Lemma Zdigits2_ge m k :
  (pow2 k <= inject_Z m)%Q -> (k + 1 <= Zdigits2 m)%Z.
Proof.
  intros H.
  assert (Hm : (0 < m)%Z).
  { rewrite Zlt_Qlt. pose proof (pow2_pos k). change (inject_Z 0) with 0%Q. lra. }
  pose proof (Zdigits2_upper m ltac:(lia)) as Hu.
  assert (Hlt : (pow2 k < pow2 (Zdigits2 m))%Q) by lra.
  apply Qpower_lt_compat_l_inv in Hlt; [lia | done].
Qed.

Lemma Zdigits2_le m k :
  (0 <= m)%Z -> (0 <= k)%Z -> (inject_Z m < pow2 k)%Q -> (Zdigits2 m <= k)%Z.
Proof.
  intros Hm Hk H. destruct (Z.eq_dec m 0%Z) as [->|Hne]; [done|].
  pose proof (Zdigits2_lower m ltac:(lia)) as Hl.
  assert (Hlt : (pow2 (Zdigits2 m - 1) < pow2 k)%Q) by lra.
  apply Qpower_lt_compat_l_inv in Hlt; [lia | done].
Qed.

End Digits.

Section Shr.

Lemma shr_inv_ext x y mrs : (x == y)%Q -> shr_inv x mrs -> shr_inv y mrs.
Proof.
  intros E (H0 & H1 & H2 & H3). split; [done|].
  split; [by rewrite <- E|]. split; [by rewrite <- E|].
  intros Hr. rewrite <- E. by apply H3.
Qed.

Lemma inject_Z_xO p : (inject_Z (Z.pos p~0) == 2 * inject_Z (Z.pos p))%Q.
Proof. rewrite Pos2Z.inj_xO, inject_Z_mult. reflexivity. Qed.

Lemma inject_Z_xI p : (inject_Z (Z.pos p~1) == 2 * inject_Z (Z.pos p) + 1)%Q.
Proof. rewrite Pos2Z.inj_xI, inject_Z_plus, inject_Z_mult. reflexivity. Qed.

(** One shift halves the number and keeps the invariant. *)
Lemma shr_1_inv x mrs : shr_inv x mrs -> shr_inv (x * (1 # 2)) (shr_1 mrs).
Proof.
  destruct mrs as [m r s]. unfold shr_inv. cbn [shr_m shr_r].
  intros (H0 & H1 & H2 & H3).
  destruct m as [|[p|p|]|p]; [| | | |lia]; cbn -[inject_Z Qmult Qplus Qle Qlt].
  - change (inject_Z 0) with 0%Q in *.
    split; [lia|]. split; [lra|]. split; [lra | done].
  - rewrite inject_Z_xI in H1, H2.
    split; [lia|]. split; [lra|]. split; [lra | intros _; lra].
  - rewrite inject_Z_xO in H1, H2.
    split; [lia|]. split; [lra|]. split; [lra | done].
  - change (inject_Z 1) with 1%Q in *. change (inject_Z 0) with 0%Q.
    split; [lia|]. split; [lra|]. split; [lra | intros _; lra].
Qed.

Lemma iter_pos_shr_inv p x mrs :
  shr_inv x mrs -> shr_inv (x * pow2 (- Z.pos p)) (SpecFloat.iter_pos shr_1 p mrs).
Proof.
  revert x mrs. induction p as [p IH|p IH|]; intros x mrs H; cbn [SpecFloat.iter_pos].
  - apply shr_1_inv, IH, IH in H. revert H. apply shr_inv_ext.
    replace (- Z.pos p~1)%Z with (-1 + (- Z.pos p + - Z.pos p))%Z by lia.
    rewrite !pow2_add. change (pow2 (-1)) with (1 # 2). ring.
  - apply IH, IH in H. revert H. apply shr_inv_ext.
    replace (- Z.pos p~0)%Z with (- Z.pos p + - Z.pos p)%Z by lia.
    rewrite !pow2_add. ring.
  - by apply shr_1_inv in H.
Qed.

Lemma shr_spec x mrs e n :
  (0 <= n)%Z -> shr_inv x mrs ->
  exists mrs', shr mrs e n = (mrs', (e + n)%Z) /\ shr_inv (x * pow2 (- n)) mrs'.
Proof.
  intros Hn H. destruct n as [|p|p]; [| |lia]; cbn.
  - exists mrs. rewrite Z.add_0_r. split; [done|].
    revert H. apply shr_inv_ext. change (pow2 (- 0)) with 1%Q. ring.
  - eexists. split; [done|]. by apply iter_pos_shr_inv.
Qed.

Lemma round_nearest_even_cases mrs :
  let m1 := round_nearest_even (shr_m mrs) (loc_of_shr_record mrs) in
  m1 = shr_m mrs \/ (m1 = (shr_m mrs + 1)%Z /\ shr_r mrs = true).
Proof.
  destruct mrs as [m [|] [|]]; cbn; auto.
  destruct (Z.even m); auto.
Qed.

End Shr.

(* ===================================================================== *)
(** * Binary64: what [binary_round_aux] returns *)
(* ===================================================================== *)

Section Round.

Lemma fexp_eq e : fexp prec emax e = Z.max (e - 53) (-1074).
Proof. reflexivity. Qed.

Lemma le_scale X e a : (a <= X * pow2 (- e))%Q -> (a * pow2 e <= X)%Q.
Proof.
  intros H. pose proof (pow2_pos e) as Hp.
  apply (Qmult_le_compat_r _ _ (pow2 e)) in H; [|lra].
  rewrite <- Qmult_assoc, (Qmult_comm (pow2 (- e))), pow2_cancel in H. lra.
Qed.

Lemma lt_scale X e a : (X * pow2 (- e) < a)%Q -> (X < a * pow2 e)%Q.
Proof.
  intros H. pose proof (pow2_pos e) as Hp.
  apply (Qmult_lt_compat_r _ _ (pow2 e)) in H; [|lra].
  rewrite <- Qmult_assoc, (Qmult_comm (pow2 (- e))), pow2_cancel in H. lra.
Qed.

Lemma le_unscale X e a : (a * pow2 e <= X)%Q -> (a <= X * pow2 (- e))%Q.
Proof.
  intros H. pose proof (pow2_pos (- e)) as Hp.
  apply (Qmult_le_compat_r _ _ (pow2 (- e))) in H; [|lra].
  rewrite <- Qmult_assoc, pow2_cancel in H. lra.
Qed.

Lemma lt_unscale X e a : (X < a * pow2 e)%Q -> (X * pow2 (- e) < a)%Q.
Proof.
  intros H. pose proof (pow2_pos (- e)) as Hp.
  apply (Qmult_lt_compat_r _ _ (pow2 (- e))) in H; [|lra].
  rewrite <- (Qmult_assoc a), pow2_cancel in H. lra.
Qed.

Lemma shr_m_of_loc m l : shr_m (shr_record_of_loc m l) = m.
Proof. by destruct l as [|[| |]]. Qed.

Lemma inject_Z_pow2_le n m :
  (0 <= n)%Z -> (2 ^ n <= m)%Z <-> (pow2 n <= inject_Z m)%Q.
Proof. intros Hn. by rewrite pow2_Z, <- Zle_Qle. Qed.

Lemma inject_Z_pow2_lt n m :
  (0 <= n)%Z -> (m < 2 ^ n)%Z <-> (inject_Z m < pow2 n)%Q.
Proof. intros Hn. by rewrite pow2_Z, <- Zlt_Qlt. Qed.

(** The last step of [binary_round_aux]: a mantissa of at most 53 bits
    (or [2^53], after a carry) at the exponent of its binade. *)
Lemma finalize_spec s m1 e1 :
  (-1074 <= e1)%Z -> (0 <= m1 <= 2 ^ 53)%Z ->
  (e1 = -1074 \/ 2 ^ 52 <= m1)%Z ->
  round_result s m1 e1
    (let '(mrs, e) := shr_fexp prec emax m1 e1 loc_Exact in
     match shr_m mrs with
     | Z0 => S754_zero s
     | Z.pos m =>
         if (e <=? emax - prec)%Z then S754_finite s m e
         else S754_infinity s
     | Z.neg _ => S754_nan
     end).
Proof.
  intros He1 Hm1 Hnorm.
  destruct (Z.eq_dec m1 0%Z) as [->|Hne0].
  { unfold shr_fexp.
    set (n := (fexp prec emax (Zdigits2 0 + e1) - e1)%Z).
    assert (Hn : (n <= 0)%Z) by (subst n; rewrite fexp_eq; cbn [Zdigits2]; lia).
    destruct n; [| lia |]; cbn; by constructor. }
  destruct (Z.eq_dec m1 (2 ^ 53)%Z) as [->|Hne1].
  { unfold shr_fexp. change (Zdigits2 (2 ^ 53)) with 54%Z. rewrite fexp_eq.
    replace (Z.max (54 + e1 - 53) (-1074) - e1)%Z with 1%Z by lia.
    change (shr (shr_record_of_loc (2 ^ 53) loc_Exact) e1 1)
      with ({| shr_m := Z.pos 4503599627370496; shr_r := false;
               shr_s := false |}, (e1 + 1)%Z).
    cbv beta iota zeta delta [shr_m].
    destruct (e1 + 1 <=? emax - prec)%Z eqn:E.
    - apply Z.leb_le in E. constructor; [done| |].
      + unfold SpecFloat.valid_binary, bounded, canonical_mantissa.
        change (Z.pos (digits2_pos 4503599627370496)) with 53%Z.
        rewrite fexp_eq. apply andb_true_intro. split.
        * apply Z.eqb_eq. lia.
        * by apply Z.leb_le.
      + rewrite pow2_succ. change (inject_Z (2 ^ 53)) with (2 * inject_Z (2 ^ 52))%Q.
        change (Z.pos 4503599627370496) with (2 ^ 52)%Z. ring.
    - apply Z.leb_gt in E. change (emax - prec)%Z with 971%Z in E.
      constructor. change (inject_Z (2 ^ 53)) with (pow2 53).
      rewrite <- pow2_add. apply pow2_le. lia. }
  assert (Hd : (Zdigits2 m1 <= 53)%Z).
  { apply Zdigits2_le; [lia | lia |]. apply inject_Z_pow2_lt; lia. }
  assert (Hcan : fexp prec emax (Zdigits2 m1 + e1) = e1).
  { rewrite fexp_eq. destruct Hnorm as [->|Hn]; [lia|].
    apply inject_Z_pow2_le in Hn; [|lia]. apply Zdigits2_ge in Hn. lia. }
  unfold shr_fexp. rewrite Hcan, Z.sub_diag. cbn [shr].
  rewrite shr_m_of_loc || cbn [shr_record_of_loc shr_m].
  destruct m1 as [|m|m]; [lia| |lia].
  destruct (e1 <=? emax - prec)%Z eqn:E.
  - apply Z.leb_le in E. constructor; [lia| |done].
    unfold SpecFloat.valid_binary, bounded, canonical_mantissa.
    cbn [Zdigits2] in Hcan. rewrite Hcan. apply andb_true_intro. split.
    + by apply Z.eqb_eq.
    + by apply Z.leb_le.
  - apply Z.leb_gt in E. change (emax - prec)%Z with 971%Z in E.
    constructor. destruct Hnorm as [->|Hn]; [lia|].
    apply inject_Z_pow2_le in Hn; [|lia].
    replace 1024%Z with (52 + 972)%Z by lia. rewrite pow2_add.
    pose proof (pow2_le 972 e1 ltac:(lia)) as Hp.
    pose proof (pow2_pos 972). pose proof (pow2_pos 52).
    apply Qmult_le_compat_nonneg; split; lra.
Qed.

(** [binary_round_aux] on a mantissa [mx] at exponent [ex], with a
    location that describes a number [X] between [mx * 2^ex] and the
    next multiple of [2^ex]: provided [ex] is not above the exponent of
    the binade, the result is [X] rounded. *)
Lemma binary_round_aux_spec s mx ex lx X :
  (0 <= mx)%Z ->
  (ex <= fexp prec emax (Zdigits2 mx + ex))%Z ->
  shr_inv (X * pow2 (- ex)) (shr_record_of_loc mx lx) ->
  exists m1 e1,
    rounds_to X m1 e1
    /\ round_result s m1 e1 (binary_round_aux prec emax s mx ex lx).
Proof.
  intros Hmx Hex Hinv.
  pose proof (pow2_pos) as Hpos.
  set (e1 := fexp prec emax (Zdigits2 mx + ex)) in *.
  assert (He1 : e1 = Z.max (Zdigits2 mx + ex - 53) (-1074)) by apply fexp_eq.
  destruct (shr_spec _ _ ex (e1 - ex) ltac:(lia) Hinv) as (mrs' & Hshr & Hinv').
  replace (ex + (e1 - ex))%Z with e1 in Hshr by lia.
  assert (Hstep : shr_fexp prec emax mx ex lx = (mrs', e1)) by exact Hshr.
  apply (shr_inv_ext _ (X * pow2 (- e1))) in Hinv'.
  2:{ rewrite <- Qmult_assoc, <- pow2_add. by replace (- ex + - (e1 - ex))%Z
        with (- e1)%Z by lia. }
  destruct Hinv as (_ & Hlo0 & Hhi0 & _). rewrite shr_m_of_loc in Hlo0, Hhi0.
  destruct Hinv' as (Hm0 & Hlo & Hhi & Hr).
  set (m' := shr_m mrs') in *.
  (* the binade of [X] *)
  assert (Htop : (X < pow2 (53 + e1))%Q).
  { apply lt_scale in Hhi0.
    pose proof (Zdigits2_upper mx Hmx) as Hu.
    apply (Qmult_le_compat_r _ _ (pow2 ex)) in Hu; [|specialize (Hpos ex); lra].
    rewrite <- pow2_add in Hu.
    pose proof (pow2_le (Zdigits2 mx + ex) (53 + e1) ltac:(lia)). lra. }
  assert (Hnormal : e1 = (-1074)%Z \/ (pow2 (52 + e1) <= X)%Q).
  { destruct (Z.eq_dec e1 (-1074)%Z) as [|Hne]; [by left | right].
    assert (Hmx' : (0 < mx)%Z).
    { destruct (Z.eq_dec mx 0%Z) as [->|]; [|lia]. cbn [Zdigits2] in He1. lia. }
    apply le_scale in Hlo0.
    pose proof (Zdigits2_lower mx Hmx') as Hl.
    apply (Qmult_le_compat_r _ _ (pow2 ex)) in Hl; [|specialize (Hpos ex); lra].
    rewrite <- pow2_add in Hl.
    replace (Zdigits2 mx - 1 + ex)%Z with (52 + e1)%Z in Hl by lia. lra. }
  assert (Hm'top : (m' < 2 ^ 53)%Z).
  { apply inject_Z_pow2_lt; [lia|].
    pose proof Htop as Htop'. rewrite pow2_add in Htop'.
    apply lt_unscale in Htop'. lra. }
  assert (Hm'norm : (e1 = -1074 \/ 2 ^ 52 <= m')%Z).
  { destruct Hnormal as [|Hn]; [by left | right].
    rewrite pow2_add in Hn. apply le_unscale in Hn.
    assert (H : (inject_Z (2 ^ 52) < inject_Z (m' + 1))%Q).
    { rewrite inject_Z_plus, <- pow2_Z by lia. change (inject_Z 1) with 1%Q. lra. }
    rewrite <- Zlt_Qlt in H. lia. }
  pose proof (round_nearest_even_cases mrs') as Hm1. cbn zeta in Hm1. fold m' in Hm1.
  set (m1 := round_nearest_even m' (loc_of_shr_record mrs')) in *.
  exists m1, e1. split.
  - split; [lia | done | done | lia | |].
    + destruct Hm1 as [-> | [-> Hrt]].
      * apply le_scale in Hlo. specialize (Hpos (e1 - 1)%Z). lra.
      * specialize (Hr Hrt). apply le_scale in Hr.
        rewrite inject_Z_plus. change (inject_Z 1) with 1%Q.
        pose proof (pow2_pred e1). lra.
    + apply lt_scale in Hhi.
      destruct Hm1 as [-> | [-> Hrt]]; [done|].
      rewrite inject_Z_plus. change (inject_Z 1) with 1%Q.
      specialize (Hpos e1). lra.
  - unfold binary_round_aux. rewrite Hstep. fold m' m1.
    apply finalize_spec; lia.
Qed.

End Round.

(* ===================================================================== *)
(** * Binary64: the order of valid numbers, and rounding to nearest *)
(* ===================================================================== *)

Section Order.

Lemma valid_finite_inv s m e :
  valid_binary (S754_finite s m e) = true ->
  (-1074 <= e <= 971)%Z
  /\ (Z.pos m < 2 ^ 53)%Z
  /\ (e = -1074 \/ 2 ^ 52 <= Z.pos m)%Z.
Proof.
  unfold SpecFloat.valid_binary, bounded, canonical_mantissa.
  intros [Hc He]%andb_true_iff. apply Z.eqb_eq in Hc. apply Z.leb_le in He.
  rewrite fexp_eq in Hc. change (emax - prec)%Z with 971%Z in He.
  change (Z.pos (digits2_pos m)) with (Zdigits2 (Z.pos m)) in Hc.
  destruct (Zdigits2_bounds (Z.pos m) ltac:(lia)) as [Hl Hu].
  split; [lia|]. split.
  - eapply Z.lt_le_trans; [exact Hu|]. apply Z.pow_le_mono_r; lia.
  - destruct (Z.eq_dec e (-1074)%Z) as [|Hne]; [by left | right].
    replace (Zdigits2 (Z.pos m) - 1)%Z with 52%Z in Hl by lia. done.
Qed.

(** The same bounds on the value, as rationals. *)
Lemma valid_finite_value s m e :
  valid_binary (S754_finite s m e) = true ->
  (-1074 <= e <= 971)%Z
  /\ (inject_Z (Z.pos m) + 1 <= pow2 53)%Q
  /\ (e = (-1074)%Z \/ pow2 52 <= inject_Z (Z.pos m))%Q.
Proof.
  intros (He & Hm & Hn)%valid_finite_inv. split; [done|]. split.
  - rewrite pow2_Z by lia. change 1%Q with (inject_Z 1).
    rewrite <- inject_Z_plus, <- Zle_Qle. lia.
  - destruct Hn as [|Hn]; [by left | right]. by apply inject_Z_pow2_le.
Qed.

Lemma Qmult_pow2_le a b e : (a * pow2 e <= b * pow2 e)%Q <-> (a <= b)%Q.
Proof. apply Qmult_le_r, pow2_pos. Qed.

Lemma Qmult_pow2_lt a b e : (a * pow2 e < b * pow2 e)%Q <-> (a < b)%Q.
Proof. apply Qmult_lt_r, pow2_pos. Qed.

(** Moving a mantissa to a smaller exponent. *)
Lemma align_value m e e' :
  (e' <= e)%Z ->
  (inject_Z m * pow2 e == inject_Z (m * 2 ^ (e - e')) * pow2 e')%Q.
Proof.
  intros H. rewrite inject_Z_mult, <- pow2_Z by lia.
  rewrite <- Qmult_assoc, <- pow2_add. by replace (e - e' + e')%Z with e by lia.
Qed.

(** Two valid positive numbers compare as their exponent and mantissa do. *)
Lemma canonical_le m1 e1 m2 e2 :
  valid_binary (S754_finite false m1 e1) = true ->
  valid_binary (S754_finite false m2 e2) = true ->
  (inject_Z (Z.pos m1) * pow2 e1 <= inject_Z (Z.pos m2) * pow2 e2)%Q
  <-> (e1 < e2 \/ (e1 = e2 /\ Z.pos m1 <= Z.pos m2))%Z.
Proof.
  intros (He1 & Hm1 & Hn1)%valid_finite_value (He2 & Hm2 & Hn2)%valid_finite_value.
  pose proof (pow2_pos e1) as Hp1. pose proof (pow2_pos e2) as Hp2.
  assert (Hbig : forall ma ea mb eb,
            (inject_Z ma + 1 <= pow2 53)%Q -> (pow2 52 <= inject_Z mb)%Q ->
            (ea < eb)%Z ->
            (inject_Z ma * pow2 ea < inject_Z mb * pow2 eb)%Q).
  { intros ma ea mb eb Ha Hb Hlt.
    pose proof (pow2_pos ea). pose proof (pow2_pos eb).
    pose proof (pow2_lt ea eb Hlt) as H2.
    assert (inject_Z ma * pow2 ea < pow2 53 * pow2 ea)%Q
      by (apply Qmult_pow2_lt; lra).
    assert (pow2 52 * pow2 eb <= inject_Z mb * pow2 eb)%Q
      by (by apply Qmult_pow2_le).
    assert (pow2 53 == 2 * pow2 52)%Q by (rewrite <- pow2_succ; reflexivity).
    assert (0 < pow2 52)%Q by apply pow2_pos.
    nra. }
  split.
  - intros Hle. destruct (Z.lt_trichotomy e1 e2) as [Hlt|[->|Hgt]].
    + by left.
    + right. split; [done|]. apply Qmult_pow2_le in Hle. by rewrite Zle_Qle.
    + exfalso. destruct Hn1 as [->|Hn1]; [lia|].
      pose proof (Hbig _ _ _ _ Hm2 Hn1 Hgt). lra.
  - intros [Hlt | [-> Hle]].
    + destruct Hn2 as [->|Hn2]; [lia|].
      pose proof (Hbig _ _ _ _ Hm1 Hn2 Hlt). lra.
    + apply Qmult_pow2_le. by rewrite <- Zle_Qle.
Qed.

Lemma SFleb_finite m1 e1 m2 e2 :
  SFleb (S754_finite false m1 e1) (S754_finite false m2 e2) = true
  <-> (e1 < e2 \/ (e1 = e2 /\ Z.pos m1 <= Z.pos m2))%Z.
Proof.
  unfold SFleb, SFcompare.
  destruct (Z.compare_spec e1 e2) as [->|Hlt|Hgt].
  - change (Pos.compare_cont Eq m1 m2) with (Pos.compare m1 m2).
    destruct (Pos.compare_spec m1 m2) as [->|H|H];
      split; intros; try done; try lia.
  - split; [by left | done].
  - split; [done | lia].
Qed.

Lemma SFltb_finite m1 e1 m2 e2 :
  SFltb (S754_finite false m1 e1) (S754_finite false m2 e2) = true
  <-> (e1 < e2 \/ (e1 = e2 /\ Z.pos m1 < Z.pos m2))%Z.
Proof.
  unfold SFltb, SFcompare.
  destruct (Z.compare_spec e1 e2) as [->|Hlt|Hgt].
  - change (Pos.compare_cont Eq m1 m2) with (Pos.compare m1 m2).
    destruct (Pos.compare_spec m1 m2) as [->|H|H];
      split; intros; try done; try lia.
  - split; [by left | done].
  - split; [done | lia].
Qed.

Lemma SFleb_value m1 e1 m2 e2 :
  valid_binary (S754_finite false m1 e1) = true ->
  valid_binary (S754_finite false m2 e2) = true ->
  SFleb (S754_finite false m1 e1) (S754_finite false m2 e2) = true
  <-> (SF2Q (S754_finite false m1 e1) <= SF2Q (S754_finite false m2 e2))%Q.
Proof.
  intros H1 H2. rewrite SFleb_finite. symmetry. by apply canonical_le.
Qed.

End Order.

Section Nearest.

Lemma rounds_to_mantissa X m1 e1 :
  rounds_to X m1 e1 -> (m1 <= 2 ^ 53)%Z.
Proof.
  intros [He Htop Hn Hm Hup Hlo].
  pose proof (pow2_pos e1) as Hp. pose proof (pow2_pred e1) as Hh.
  rewrite pow2_add in Htop.
  assert (H : (inject_Z m1 * pow2 e1 < (pow2 53 + 1) * pow2 e1)%Q) by lra.
  apply Qmult_pow2_lt in H. rewrite pow2_Z in H by lia.
  change 1%Q with (inject_Z 1) in H.
  rewrite <- inject_Z_plus, <- Zlt_Qlt in H. lia.
Qed.

Lemma rounds_to_normal X m1 e1 :
  rounds_to X m1 e1 -> (-1074 < e1)%Z -> (2 ^ 52 <= m1)%Z.
Proof.
  intros [He Htop Hn Hm Hup Hlo] Hgt. destruct Hn as [->|Hn]; [lia|].
  rewrite pow2_add in Hn.
  assert (H : (pow2 52 * pow2 e1 < (inject_Z m1 + 1) * pow2 e1)%Q) by lra.
  apply Qmult_pow2_lt in H. rewrite pow2_Z in H by lia.
  change 1%Q with (inject_Z 1) in H.
  rewrite <- inject_Z_plus, <- Zlt_Qlt in H. lia.
Qed.

(** Rounding does not pass a representable number from below: a number
    below the midpoint above [z] rounds to at most [z]. *)
Lemma rounds_to_le X m1 e1 mz ez :
  rounds_to X m1 e1 ->
  valid_binary (S754_finite false mz ez) = true ->
  (X < (inject_Z (Z.pos mz) + (1 # 2)) * pow2 ez)%Q ->
  (inject_Z m1 * pow2 e1 <= inject_Z (Z.pos mz) * pow2 ez)%Q.
Proof.
  intros Hrt (Hez & Hmz & Hnz)%valid_finite_value HX.
  pose proof (rounds_to_mantissa _ _ _ Hrt) as Hm53.
  pose proof (rounds_to_normal _ _ _ Hrt) as Hm52.
  destruct Hrt as [He Htop Hn Hm Hup Hlo].
  pose proof (pow2_pos e1) as Hp1. pose proof (pow2_pos ez) as Hpz.
  pose proof (pow2_pos 52) as Hp52.
  assert (H53 : (pow2 53 == 2 * pow2 52)%Q) by (rewrite <- pow2_succ; reflexivity).
  destruct (Z.lt_trichotomy e1 ez) as [Hlt|[->|Hgt]].
  - destruct Hnz as [->|Hnz]; [lia|].
    pose proof (pow2_lt e1 ez Hlt) as H2.
    assert (inject_Z m1 <= pow2 53)%Q
      by (rewrite pow2_Z by lia; by rewrite <- Zle_Qle).
    assert (inject_Z m1 * pow2 e1 <= pow2 53 * pow2 e1)%Q
      by (by apply Qmult_pow2_le).
    assert (pow2 52 * pow2 ez <= inject_Z (Z.pos mz) * pow2 ez)%Q
      by (by apply Qmult_pow2_le).
    nra.
  - pose proof (pow2_pred ez) as Hh.
    assert (H : (inject_Z m1 * pow2 ez < (inject_Z (Z.pos mz) + 1) * pow2 ez)%Q)
      by lra.
    apply Qmult_pow2_lt in H. change 1%Q with (inject_Z 1) in H.
    rewrite <- inject_Z_plus, <- Zlt_Qlt in H.
    apply Qmult_pow2_le. rewrite <- Zle_Qle. lia.
  - exfalso. destruct Hn as [->|Hn]; [lia|].
    rewrite pow2_add in Hn.
    pose proof (pow2_lt ez e1 Hgt) as H2.
    assert ((inject_Z (Z.pos mz) + (1 # 2)) * pow2 ez < pow2 53 * pow2 ez)%Q
      by (apply Qmult_pow2_lt; lra).
    nra.
Qed.

(** Rounding does not pass a representable number from above. *)
Lemma rounds_to_ge X m1 e1 mz ez :
  rounds_to X m1 e1 ->
  valid_binary (S754_finite false mz ez) = true ->
  (inject_Z (Z.pos mz) * pow2 ez <= X)%Q ->
  (inject_Z (Z.pos mz) * pow2 ez <= inject_Z m1 * pow2 e1)%Q.
Proof.
  intros Hrt (Hez & Hmz & Hnz)%valid_finite_value HX.
  pose proof (rounds_to_normal _ _ _ Hrt) as Hm52.
  destruct Hrt as [He Htop Hn Hm Hup Hlo].
  pose proof (pow2_pos e1) as Hp1. pose proof (pow2_pos ez) as Hpz.
  pose proof (pow2_pos 52) as Hp52.
  assert (H53 : (pow2 53 == 2 * pow2 52)%Q) by (rewrite <- pow2_succ; reflexivity).
  destruct (Z_lt_le_dec ez e1) as [Hlt|Hge].
  - specialize (Hm52 ltac:(lia)).
    pose proof (pow2_lt ez e1 Hlt) as H2.
    assert (pow2 52 <= inject_Z m1)%Q by (by apply inject_Z_pow2_le).
    assert (pow2 52 * pow2 e1 <= inject_Z m1 * pow2 e1)%Q
      by (by apply Qmult_pow2_le).
    assert (inject_Z (Z.pos mz) * pow2 ez < pow2 53 * pow2 ez)%Q
      by (apply Qmult_pow2_lt; lra).
    nra.
  - rewrite (align_value (Z.pos mz) ez e1 Hge) in HX |- *.
    assert (H : (inject_Z (Z.pos mz * 2 ^ (ez - e1)) * pow2 e1
                 < (inject_Z m1 + 1) * pow2 e1)%Q) by lra.
    apply Qmult_pow2_lt in H. change 1%Q with (inject_Z 1) in H.
    rewrite <- inject_Z_plus, <- Zlt_Qlt in H.
    apply Qmult_pow2_le. rewrite <- Zle_Qle. lia.
Qed.

End Nearest.

Section Results.

Lemma valid_value_pos m e : (0 < inject_Z (Z.pos m) * pow2 e)%Q.
Proof.
  pose proof (pow2_pos e). apply Qmult_lt_0_compat; [|done].
  change 0%Q with (inject_Z 0). rewrite <- Zlt_Qlt. lia.
Qed.

Lemma valid_value_lt s m e :
  valid_binary (S754_finite s m e) = true ->
  (inject_Z (Z.pos m) * pow2 e < pow2 1024)%Q.
Proof.
  intros (He & Hm & _)%valid_finite_value.
  pose proof (pow2_pos e). pose proof (pow2_le e 971 ltac:(lia)).
  assert (inject_Z (Z.pos m) * pow2 e < pow2 53 * pow2 e)%Q
    by (apply Qmult_pow2_lt; lra).
  assert (pow2 1024 == pow2 53 * pow2 971)%Q by (by rewrite <- pow2_add).
  pose proof (pow2_pos 53). nra.
Qed.

(** The same two facts for the numbers returned, in the order of
    binary64 values. *)
Lemma round_result_le X m1 e1 r mz ez :
  rounds_to X m1 e1 -> round_result false m1 e1 r ->
  valid_binary (S754_finite false mz ez) = true ->
  (X < (inject_Z (Z.pos mz) + (1 # 2)) * pow2 ez)%Q ->
  SFleb r (S754_finite false mz ez) = true.
Proof.
  intros Hrt Hr Hz HX. pose proof (rounds_to_le _ _ _ _ _ Hrt Hz HX) as Hle.
  destruct Hr as [Hm|m e Hm Hv Hval|Hinf].
  - reflexivity.
  - apply SFleb_value; [done|done|]. cbn [SF2Q]. by rewrite Hval.
  - exfalso. pose proof (valid_value_lt _ _ _ Hz). lra.
Qed.

Lemma round_result_ge X m1 e1 r mz ez :
  rounds_to X m1 e1 -> round_result false m1 e1 r ->
  valid_binary (S754_finite false mz ez) = true ->
  (inject_Z (Z.pos mz) * pow2 ez <= X)%Q ->
  SFleb (S754_finite false mz ez) r = true.
Proof.
  intros Hrt Hr Hz HX. pose proof (rounds_to_ge _ _ _ _ _ Hrt Hz HX) as Hle.
  destruct Hr as [Hm|m e Hm Hv Hval|Hinf].
  - exfalso. subst m1. pose proof (valid_value_pos mz ez).
    change (inject_Z 0) with 0%Q in Hle. lra.
  - apply SFleb_value; [done|done|]. cbn [SF2Q]. by rewrite Hval.
  - reflexivity.
Qed.

(** A number of at least [2^1024] rounds to [+Infinity]. *)
Lemma round_result_overflow X m1 e1 r :
  rounds_to X m1 e1 -> round_result false m1 e1 r ->
  (pow2 1024 <= X)%Q ->
  r = S754_infinity false.
Proof.
  intros Hrt Hr HX. destruct Hr as [Hm|m e Hm Hv Hval|Hinf]; [| |done]; exfalso.
  - subst m1. destruct Hrt as [He Htop Hn _ Hup Hlo].
    change (inject_Z 0 + 1)%Q with 1%Q in Hlo.
    pose proof (pow2_le e1 1024) as Hle. pose proof (pow2_pos e1).
    destruct (Z_lt_le_dec 1024 e1) as [Hbig|Hsmall].
    + destruct Hn as [->|Hn]; [lia|].
      pose proof (pow2_lt e1 (52 + e1) ltac:(lia)). lra.
    + specialize (Hle Hsmall).
      destruct Hn as [->|Hn].
      * pose proof (pow2_lt (-1074) 1024 ltac:(lia)). lra.
      * pose proof (pow2_lt e1 (52 + e1) ltac:(lia)). lra.
  - pose proof (valid_value_lt _ _ _ Hv) as Hlt. rewrite Hval in Hlt.
    destruct Hrt as [He Htop Hn _ Hup Hlo].
    pose proof (pow2_pos e1) as Hp.
    assert (He1 : (e1 < 1024)%Z).
    { destruct (Z_lt_le_dec e1 1024) as [|Hge]; [done | exfalso].
      pose proof (pow2_le 1024 e1 Hge).
      assert (1 <= inject_Z m1)%Q
        by (change 1%Q with (inject_Z 1); rewrite <- Zle_Qle; lia).
      assert (1 * pow2 e1 <= inject_Z m1 * pow2 e1)%Q
        by (by apply Qmult_pow2_le).
      lra. }
    assert (E : (pow2 1024 == inject_Z (2 ^ (1024 - e1)) * pow2 e1)%Q).
    { rewrite (pow2_shift 1024 e1). by rewrite (pow2_Z (1024 - e1)) by lia. }
    rewrite E in Hlt, HX.
    assert (H1 : (inject_Z m1 * pow2 e1
                  < inject_Z (2 ^ (1024 - e1)) * pow2 e1)%Q) by lra.
    assert (H2 : (inject_Z (2 ^ (1024 - e1)) * pow2 e1
                  < (inject_Z m1 + 1) * pow2 e1)%Q) by lra.
    apply Qmult_pow2_lt in H1, H2. change 1%Q with (inject_Z 1) in H2.
    rewrite <- inject_Z_plus in H2. rewrite <- Zlt_Qlt in H1, H2. lia.
Qed.

End Results.

Section Operations.

Lemma Zdigits2_mul mx my :
  (0 < mx)%Z -> (0 < my)%Z ->
  (Zdigits2 mx + Zdigits2 my - 1 <= Zdigits2 (mx * my))%Z.
Proof.
  intros Hx Hy.
  destruct (Zdigits2_bounds mx Hx) as [Hlx _].
  destruct (Zdigits2_bounds my Hy) as [Hly _].
  assert (0 < Zdigits2 mx)%Z by (destruct mx; cbn; lia).
  assert (0 < Zdigits2 my)%Z by (destruct my; cbn; lia).
  assert (Hp : (2 ^ (Zdigits2 mx - 1 + (Zdigits2 my - 1)) <= mx * my)%Z).
  { rewrite Z.pow_add_r by lia. apply Z.mul_le_mono_nonneg; lia. }
  apply inject_Z_pow2_le in Hp; [|lia]. apply Zdigits2_ge in Hp. lia.
Qed.

Lemma valid_canonical s m e :
  valid_binary (S754_finite s m e) = true ->
  e = Z.max (Zdigits2 (Z.pos m) + e - 53) (-1074).
Proof.
  unfold SpecFloat.valid_binary, bounded, canonical_mantissa.
  intros [Hc _]%andb_true_iff. apply Z.eqb_eq in Hc.
  rewrite fexp_eq in Hc. by rewrite <- Hc at 1.
Qed.

(** The product of two positive finite numbers is their exact product,
    rounded. *)
Lemma SFmul_rounds mx ex my ey :
  valid_binary (S754_finite false mx ex) = true ->
  valid_binary (S754_finite false my ey) = true ->
  exists m1 e1,
    rounds_to (SF2Q (S754_finite false mx ex) * SF2Q (S754_finite false my ey))
      m1 e1
    /\ round_result false m1 e1
         (SF64mul (S754_finite false mx ex) (S754_finite false my ey)).
Proof.
  intros Hx Hy. unfold SF64mul, SFmul. cbn [xorb SF2Q].
  apply binary_round_aux_spec; [lia | |].
  - pose proof (valid_canonical _ _ _ Hx) as Hcx.
    pose proof (valid_canonical _ _ _ Hy) as Hcy.
    pose proof (Zdigits2_mul (Z.pos mx) (Z.pos my) ltac:(lia) ltac:(lia)) as Hd.
    change (Z.pos mx * Z.pos my)%Z with (Z.pos (mx * my)) in Hd.
    assert (0 < Zdigits2 (Z.pos mx))%Z by (cbn; lia).
    assert (0 < Zdigits2 (Z.pos my))%Z by (cbn; lia).
    rewrite fexp_eq. lia.
  - assert (E : (inject_Z (Z.pos mx) * pow2 ex * (inject_Z (Z.pos my) * pow2 ey)
                 * pow2 (- (ex + ey)) == inject_Z (Z.pos (mx * my)))%Q).
    { rewrite Pos2Z.inj_mul, inject_Z_mult.
      transitivity (inject_Z (Z.pos mx) * inject_Z (Z.pos my)
                    * (pow2 (ex + ey) * pow2 (- (ex + ey))))%Q.
      - rewrite pow2_add. ring.
      - rewrite pow2_cancel. ring. }
    unfold shr_inv. cbn [shr_record_of_loc shr_m shr_r]. rewrite E.
    split; [lia|]. split; [lra|]. split; [lra | done].
Qed.

Lemma new_location_round my r :
  (0 < my)%Z -> (0 <= r)%Z ->
  shr_r (shr_record_of_loc 0 (new_location my r)) = true -> (my <= 2 * r)%Z.
Proof.
  intros Hmy Hr. unfold new_location, new_location_even, new_location_odd.
  destruct (Z.even my); destruct (r =? 0)%Z; try done.
  - destruct (Z.compare_spec (2 * r) my); cbn; intros; try done; lia.
  - destruct (Z.compare_spec (2 * r + 1) my); cbn; intros; try done; lia.
Qed.

Lemma shr_r_of_loc m l :
  shr_r (shr_record_of_loc m l) = shr_r (shr_record_of_loc 0 l).
Proof. by destruct l as [|[| |]]. Qed.

End Operations.

(* ===================================================================== *)
(** * Binary64: the quotient *)
(* ===================================================================== *)

Section Division.

(** The quotient of two positive finite numbers is their exact
    quotient, rounded. *)
Lemma SFdiv_rounds mx ex my ey :
  valid_binary (S754_finite false mx ex) = true ->
  valid_binary (S754_finite false my ey) = true ->
  exists m1 e1,
    rounds_to (SF2Q (S754_finite false mx ex) / SF2Q (S754_finite false my ey))
      m1 e1
    /\ round_result false m1 e1
         (SF64div (S754_finite false mx ex) (S754_finite false my ey)).
Proof.
  intros Hx Hy. unfold SF64div, SFdiv, SFdiv_core_binary. cbn [xorb SF2Q].
  set (d1 := Zdigits2 (Z.pos mx)). set (d2 := Zdigits2 (Z.pos my)).
  set (e' := Z.min (fexp prec emax (d1 + ex - (d2 + ey))) (ex - ey)).
  set (s := (ex - ey - e')%Z).
  assert (Hs : (0 <= s)%Z) by lia.
  set (m' := match s with
             | 0%Z => Z.pos mx
             | Z.pos _ => Z.shiftl (Z.pos mx) s
             | Z.neg _ => 0%Z
             end).
  assert (Hm' : m' = (Z.pos mx * 2 ^ s)%Z).
  { subst m'. destruct s as [|p|p] eqn:E; [lia | | lia].
    by rewrite Z.shiftl_mul_pow2. }
  clearbody m'.
  destruct (Z.div_eucl m' (Z.pos my)) as [q r] eqn:Ediv.
  pose proof (Z_div_mod m' (Z.pos my) ltac:(lia)) as Hdm.
  rewrite Ediv in Hdm. destruct Hdm as [Hdiv Hr].
  assert (Hpow : (0 < 2 ^ s)%Z) by (apply Z.pow_pos_nonneg; lia).
  assert (Hq : (0 <= q)%Z) by nia.
  apply binary_round_aux_spec; [done | |].
  - rewrite fexp_eq. destruct (Z_le_gt_dec e' (-1074)) as [|Hgt]; [lia|].
    assert (He' : (e' <= d1 + ex - (d2 + ey) - 53)%Z).
    { subst e'. rewrite fexp_eq in *. lia. }
    set (k := (d1 - 1 + s - d2)%Z).
    assert (Hk : (52 <= k)%Z) by (subst k s; lia).
    destruct (Zdigits2_bounds (Z.pos mx) ltac:(lia)) as [Hl1 _].
    destruct (Zdigits2_bounds (Z.pos my) ltac:(lia)) as [_ Hu2].
    fold d1 in Hl1. fold d2 in Hu2.
    assert (0 < d1)%Z by (subst d1; cbn; lia).
    assert (0 < d2)%Z by (subst d2; cbn; lia).
    assert (Hkq : (2 ^ k <= q)%Z).
    { assert (E1 : (2 ^ k * 2 ^ d2 = 2 ^ (d1 - 1) * 2 ^ s)%Z).
      { rewrite <- !Z.pow_add_r by lia. f_equal. lia. }
      assert (0 < 2 ^ k)%Z by (apply Z.pow_pos_nonneg; lia).
      assert (0 < 2 ^ (d1 - 1))%Z by (apply Z.pow_pos_nonneg; lia).
      nia. }
    apply inject_Z_pow2_le in Hkq; [|lia]. apply Zdigits2_ge in Hkq.
    subst k s. lia.
  - set (Y := inject_Z (Z.pos my)).
    set (x' := ((inject_Z (Z.pos mx) * pow2 ex / (Y * pow2 ey)) * pow2 (- e'))%Q).
    assert (HY : (0 < Y)%Q).
    { subst Y. change 0%Q with (inject_Z 0). rewrite <- Zlt_Qlt. lia. }
    assert (E0 : (inject_Z m' == Y * inject_Z q + inject_Z r)%Q).
    { subst Y. by rewrite Hdiv, inject_Z_plus, inject_Z_mult. }
    assert (E : (x' * Y == Y * inject_Z q + inject_Z r)%Q).
    { rewrite <- E0, Hm', inject_Z_mult, <- pow2_Z by lia. subst x'.
      replace ex with (s + ey + e')%Z at 1 by (subst s; lia).
      rewrite !pow2_add.
      assert (Ei : (pow2 (- e') == / pow2 e')%Q) by apply Qpower_opp.
      rewrite Ei.
      pose proof (pow2_pos ey). pose proof (pow2_pos e').
      field. repeat split; lra. }
    assert (Hr0 : (0 <= inject_Z r)%Q)
      by (change 0%Q with (inject_Z 0); rewrite <- Zle_Qle; lia).
    assert (Hr1 : (inject_Z r < Y)%Q) by (subst Y; rewrite <- Zlt_Qlt; lia).
    unfold shr_inv. rewrite shr_m_of_loc, shr_r_of_loc.
    split; [done|]. split; [|split].
    + apply (Qmult_le_r _ _ Y); [done | lra].
    + apply (Qmult_lt_r _ _ Y); [done | lra].
    + intros Hround%new_location_round; [|lia|lia].
      assert (Y <= 2 * inject_Z r)%Q.
      { subst Y. change 2%Q with (inject_Z 2).
        rewrite <- inject_Z_mult, <- Zle_Qle. lia. }
      apply (Qmult_le_r _ _ Y); [done | lra].
Qed.

End Division.

(* ===================================================================== *)
(** * Binary64: a rounded product against a rounded bound *)
(* ===================================================================== *)

Section QuotientBound.

Lemma valid_finite_intro s m e :
  (-1074 <= e <= 971)%Z -> (Z.pos m < 2 ^ 53)%Z ->
  (e = -1074 \/ 2 ^ 52 <= Z.pos m)%Z ->
  valid_binary (S754_finite s m e) = true.
Proof.
  intros He Hm Hn.
  unfold SpecFloat.valid_binary, bounded, canonical_mantissa.
  change (Z.pos (digits2_pos m)) with (Zdigits2 (Z.pos m)).
  assert (Hd : (Zdigits2 (Z.pos m) <= 53)%Z).
  { apply Zdigits2_le; [lia | lia |]. apply inject_Z_pow2_lt; lia. }
  apply andb_true_intro. split.
  - apply Z.eqb_eq. rewrite fexp_eq. destruct Hn as [->|Hn]; [lia|].
    apply inject_Z_pow2_le in Hn; [|lia]. apply Zdigits2_ge in Hn. lia.
  - apply Z.leb_le. change (emax - prec)%Z with 971%Z. lia.
Qed.

(** A value [M * 2^E] with a 53-bit [M] (or [M = 2^53]) below [2^1024]
    is a binary64 number. *)
Lemma representable M E :
  (-1074 <= E)%Z -> (2 ^ 52 <= M <= 2 ^ 53)%Z ->
  (inject_Z M * pow2 E < pow2 1024)%Q ->
  exists mz ez,
    valid_binary (S754_finite false mz ez) = true
    /\ (inject_Z (Z.pos mz) * pow2 ez == inject_Z M * pow2 E)%Q.
Proof.
  intros HE HM Hlt.
  assert (HE' : (E + 52 < 1024)%Z).
  { destruct (Z_lt_le_dec (E + 52) 1024) as [|Hge]; [done | exfalso].
    pose proof (pow2_le 1024 (52 + E) ltac:(lia)) as Hp. rewrite pow2_add in Hp.
    assert (pow2 52 * pow2 E <= inject_Z M * pow2 E)%Q.
    { apply Qmult_pow2_le. apply inject_Z_pow2_le; lia. }
    lra. }
  destruct (Z.eq_dec M (2 ^ 53)%Z) as [->|Hne].
  - exists 4503599627370496%positive, (E + 1)%Z. split.
    + apply valid_finite_intro; [|done|by right].
      destruct (Z_le_gt_dec (E + 1) 971) as [|Hgt]; [lia | exfalso].
      replace E with 971%Z in Hlt by lia. revert Hlt. by vm_compute.
    + rewrite pow2_succ.
      change (inject_Z (2 ^ 53)) with (2 * inject_Z (2 ^ 52))%Q.
      change (Z.pos 4503599627370496) with (2 ^ 52)%Z. ring.
  - destruct M as [|mz|mz]; [lia | | lia].
    exists mz, E. split; [|done].
    apply valid_finite_intro; [lia | lia | right; lia].
Qed.

Lemma round_result_le_trans m1 e1 r1 m2 e2 r2 mz ez :
  round_result false m1 e1 r1 -> round_result false m2 e2 r2 ->
  SFleb r1 (S754_finite false mz ez) = true ->
  SFleb (S754_finite false mz ez) r2 = true ->
  SFleb r1 r2 = true.
Proof.
  intros [H1|ma ea H1 Hva _|H1] [H2|mb eb H2 Hvb _|H2] Hle1 Hle2;
    try done.
  apply SFleb_finite. apply SFleb_finite in Hle1, Hle2. lia.
Qed.

Lemma round_result_le_infinity m1 e1 r1 :
  round_result false m1 e1 r1 -> SFleb r1 (S754_infinity false) = true.
Proof. by intros [H1|ma ea H1 Hva _|H1]. Qed.

(** The rounded quotient [q] of [a] by [d], when it is not below the
    normal range, exceeds the exact quotient by at most a factor
    [1 / (1 - 2^-53)]; so does [d * s] exceed [a], for [s <= q] and
    [s <= 1]. *)
Lemma quotient_bound ma ea md ed ms es :
  valid_binary (S754_finite false ma ea) = true ->
  valid_binary (S754_finite false md ed) = true ->
  valid_binary (S754_finite false ms es) = true ->
  let q := SF64div (S754_finite false ma ea) (S754_finite false md ed) in
  SFleb SF_tiny q = true ->
  SFleb (S754_finite false ms es) q = true ->
  SFleb (S754_finite false ms es) SF_one = true ->
  (SF2Q (S754_finite false md ed) * SF2Q (S754_finite false ms es)
     * (pow2 53 - 1)
   <= SF2Q (S754_finite false ma ea) * pow2 53)%Q.
Proof.
  intros Ha Hd Hs q Htiny Hsq Hs1.
  destruct (SFdiv_rounds ma ea md ed Ha Hd) as (m1 & e1 & Hrt & Hr).
  fold q in Hr.
  set (A := SF2Q (S754_finite false ma ea)) in *.
  set (D := SF2Q (S754_finite false md ed)) in *.
  set (S := SF2Q (S754_finite false ms es)).
  assert (HA : (0 < A)%Q) by apply valid_value_pos.
  assert (HD : (0 < D)%Q) by apply valid_value_pos.
  assert (HS : (0 < S)%Q) by apply valid_value_pos.
  assert (HX : (A / D * D == A)%Q) by (field; lra).
  set (X := (A / D)%Q) in *.
  assert (H53 : (pow2 53 == inject_Z (2 ^ 53))%Q) by (by rewrite pow2_Z).
  assert (H53' : (1 < pow2 53)%Q) by (rewrite H53; done).
  assert (HS1 : (S <= 1)%Q).
  { apply SFleb_value in Hs1; [|done|done]. change (S <= SF2Q SF_one)%Q in Hs1.
    assert (E1 : (SF2Q SF_one == 1)%Q) by (by vm_compute).
    by rewrite E1 in Hs1. }
  pose proof (rounds_to_normal _ _ _ Hrt) as Hnorm.
  destruct Hrt as [He Htop Hn Hm Hup Hlo].
  pose proof (pow2_pos e1) as Hp1. pose proof (pow2_pred e1) as Hh.
  assert (Hgoal : (S * (pow2 53 - 1) <= X * pow2 53)%Q -> 
                  (D * S * (pow2 53 - 1) <= A * pow2 53)%Q).
  { intros H. rewrite <- HX. nra. }
  apply Hgoal. clear Hgoal.
  destruct Hr as [Hm0|m e Hm0 Hv Hval|Hinf].
  - done.
  - (* a finite quotient *)
    apply SFleb_value in Htiny; [|done|done].
    apply SFleb_value in Hsq; [|done|done].
    fold S in Hsq. cbn [SF2Q] in Hsq, Htiny. unfold SF_tiny in Htiny.
    cbn [SF2Q] in Htiny. rewrite Hval in Hsq, Htiny.
    assert (Hm52 : (pow2 52 <= inject_Z m1)%Q).
    { apply inject_Z_pow2_le; [lia|].
      destruct (Z.eq_dec e1 (-1074)%Z) as [->|Hne]; [|apply Hnorm; lia].
      apply Qmult_pow2_le in Htiny. by rewrite <- Zle_Qle in Htiny. }
    assert (pow2 52 * pow2 e1 <= inject_Z m1 * pow2 e1)%Q
      by (by apply Qmult_pow2_le).
    assert (H52 : (pow2 53 == 2 * pow2 52)%Q)
      by (rewrite <- pow2_succ; reflexivity).
    pose proof (pow2_pos 52).
    set (V := (inject_Z m1 * pow2 e1)%Q) in *.
    set (u := pow2 e1) in *. set (h := pow2 (e1 - 1)) in *.
    set (p := pow2 52) in *. set (P := pow2 53) in *.
    clearbody V u h p P S X. nra.
  - (* the quotient overflows: [a / d >= 1] *)
    assert (H1 : (1 <= inject_Z m1)%Q).
    { change 1%Q with (inject_Z 1). rewrite <- Zle_Qle.
      destruct (Z.eq_dec m1 0%Z) as [->|]; [|lia]. exfalso.
      pose proof (pow2_pos 1024). change (inject_Z 0) with 0%Q in Hinf. lra. }
    assert (1 * pow2 e1 <= inject_Z m1 * pow2 e1)%Q
      by (by apply Qmult_pow2_le).
    assert (H1024 : (2 <= pow2 1024)%Q) by (by vm_compute).
    assert (HX1 : (1 <= X)%Q) by lra.
    set (P := pow2 53) in *. clearbody P S X. nra.
Qed.

End QuotientBound.

Section ProductBound.

(** If the exact product [d * s] exceeds [a] by at most the factor
    [1 / (1 - 2^-53)], the rounded product is at most every rounded
    number that is not below the number after [a] (not below [a] itself
    when [a] is subnormal). *)
Lemma product_below ma ea md ed ms es P m2 e2 r2 :
  valid_binary (S754_finite false ma ea) = true ->
  valid_binary (S754_finite false md ed) = true ->
  valid_binary (S754_finite false ms es) = true ->
  (SF2Q (S754_finite false md ed) * SF2Q (S754_finite false ms es)
     * (pow2 53 - 1)
   <= SF2Q (S754_finite false ma ea) * pow2 53)%Q ->
  rounds_to P m2 e2 -> round_result false m2 e2 r2 ->
  (inject_Z (Z.pos ma) * pow2 ea <= P)%Q ->
  ((2 ^ 52 <= Z.pos ma)%Z -> ((inject_Z (Z.pos ma) + 1) * pow2 ea <= P)%Q) ->
  SFleb (SF64mul (S754_finite false md ed) (S754_finite false ms es)) r2
  = true.
Proof.
  intros Ha Hd Hs Hb Hrt2 Hr2 HP0 HP1.
  destruct (SFmul_rounds md ed ms es Hd Hs) as (m1 & e1 & Hrt1 & Hr1).
  set (X := (SF2Q (S754_finite false md ed) * SF2Q (S754_finite false ms es))%Q) in *.
  cbn [SF2Q] in Hb.
  pose proof (valid_finite_inv _ _ _ Ha) as (Hea & Hma & Hna).
  pose proof (pow2_pos ea) as Hpa. pose proof (pow2_pos 52) as Hp52.
  assert (H53 : (pow2 53 == 2 * pow2 52)%Q)
    by (rewrite <- pow2_succ; reflexivity).
  assert (Hma' : (inject_Z (Z.pos ma) + 1 <= pow2 53)%Q).
  { rewrite pow2_Z by lia. change 1%Q with (inject_Z 1).
    rewrite <- inject_Z_plus, <- Zle_Qle. lia. }
  assert (Hma0 : (0 < inject_Z (Z.pos ma))%Q).
  { change 0%Q with (inject_Z 0). rewrite <- Zlt_Qlt. lia. }
  set (M := inject_Z (Z.pos ma)) in *. set (u := pow2 ea) in *.
  (* the exact product is at most [(ma + 1) * 2^ea] *)
  assert (HX : (X <= (M + 1) * u)%Q).
  { set (p := pow2 53) in *. set (q := pow2 52) in *.
    clearbody X M u p q. nra. }
  destruct (Z_lt_le_dec (Z.pos ma) (2 ^ 52)) as [Hsub|Hnorm].
  - (* [a] is subnormal: the product rounds to at most [a] *)
    destruct Hna as [->|Hna]; [|lia].
    assert (Hsub' : (M + 1 <= pow2 52)%Q).
    { subst M. rewrite pow2_Z by lia. change 1%Q with (inject_Z 1).
      rewrite <- inject_Z_plus, <- Zle_Qle. lia. }
    apply (round_result_le_trans _ _ _ _ _ _ ma (-1074)%Z Hr1 Hr2).
    + apply (round_result_le X m1 e1); [done | done | done |].
      fold M u. set (p := pow2 53) in *. set (q := pow2 52) in *.
      clearbody X M u p q.
      assert (K : (M * u * p < (M + (1 # 2)) * u * (p - 1))%Q) by nra.
      apply (Qmult_lt_r _ _ (p - 1)); [lra | lra].
    + by apply (round_result_ge P m2 e2).
  - (* [a] is normal: the next number above [a] lies between *)
    specialize (HP1 Hnorm).
    destruct (Qlt_le_dec ((M + 1) * u) (pow2 1024)) as [Hfin|Hovf].
    + destruct (representable (Z.pos ma + 1) ea) as (mz & ez & Hz & Hzv);
        [lia | lia | |].
      { rewrite inject_Z_plus. done. }
      rewrite inject_Z_plus in Hzv. fold M u in Hzv.
      change (inject_Z 1) with 1%Q in Hzv.
      pose proof (pow2_pos ez) as Hpz.
      apply (round_result_le_trans _ _ _ _ _ _ mz ez Hr1 Hr2).
      * apply (round_result_le X m1 e1); [done | done | done |].
        set (Z := inject_Z (Z.pos mz)) in *. set (v := pow2 ez) in *.
        clearbody X M u Z v. nra.
      * apply (round_result_ge P m2 e2); [done | done | done |].
        rewrite Hzv. done.
    + assert (E : r2 = S754_infinity false).
      { apply (round_result_overflow P m2 e2); [done | done | lra]. }
      rewrite E. by apply (round_result_le_infinity m1 e1).
Qed.

Lemma product_slack ma ea md ed ms es :
  valid_binary (S754_finite false ma ea) = true ->
  valid_binary (S754_finite false md ed) = true ->
  valid_binary (S754_finite false ms es) = true ->
  (SF2Q (S754_finite false md ed) * SF2Q (S754_finite false ms es)
     * (pow2 53 - 1)
   <= SF2Q (S754_finite false ma ea) * pow2 53)%Q ->
  SFleb (SF64mul (S754_finite false md ed) (S754_finite false ms es))
        (SF64mul (S754_finite false ma ea) SF_one_eps) = true.
Proof.
  intros Ha Hd Hs Hb.
  assert (Hc : valid_binary SF_one_eps = true) by done.
  destruct (SFmul_rounds ma ea _ _ Ha Hc) as (m2 & e2 & Hrt2 & Hr2).
  fold SF_one_eps in Hrt2, Hr2.
  apply (product_below ma ea md ed ms es
           (SF2Q (S754_finite false ma ea) * SF2Q SF_one_eps) m2 e2); try done.
  all: assert (Ec : (SF2Q SF_one_eps * pow2 52 == pow2 52 + 1)%Q)
         by (by vm_compute).
  all: set (C := SF2Q SF_one_eps) in *; cbn [SF2Q].
  all: pose proof (pow2_pos ea) as Hpa; pose proof (pow2_pos 52) as Hp52.
  all: assert (Hma0 : (0 < inject_Z (Z.pos ma))%Q)
         by (change 0%Q with (inject_Z 0); rewrite <- Zlt_Qlt; lia).
  all: set (M := inject_Z (Z.pos ma)) in *; set (u := pow2 ea) in *.
  all: assert (K0 : (M * u * C * pow2 52 == M * u * (pow2 52 + 1))%Q)
         by (rewrite <- Ec; ring).
  all: assert (K1 : (0 < M * u)%Q) by (by apply Qmult_lt_0_compat).
  - apply (Qmult_le_r _ _ (pow2 52)); [lra | lra].
  - intros Hnorm.
    assert (Hnorm' : (pow2 52 <= M)%Q) by (by apply inject_Z_pow2_le).
    assert (K2 : (pow2 52 * u <= M * u)%Q) by (apply Qmult_le_r; lra).
    apply (Qmult_le_r _ _ (pow2 52)); [lra|].
    set (q := pow2 52) in *. clearbody M u q C. nra.
Qed.

End ProductBound.

(* ===================================================================== *)
(** * Binary64: sum and successor *)
(* ===================================================================== *)

Section Successor.

Lemma iter_xO_value m d : Z.pos (Pos.iter xO m d) = (Z.pos m * 2 ^ Z.pos d)%Z.
Proof.
  induction d as [|d IH] using Pos.peano_ind.
  - cbn. lia.
  - rewrite Pos.iter_succ, Pos2Z.inj_xO, IH, Pos2Z.inj_succ, Z.pow_succ_r by lia.
    lia.
Qed.

Lemma shl_align_spec mx ex ex' :
  let '(mz, ez) := shl_align mx ex ex' in
  ez = Z.min ex ex' /\ Z.pos mz = (Z.pos mx * 2 ^ (ex - ez))%Z.
Proof.
  unfold shl_align. destruct (ex' - ex)%Z as [|d|d] eqn:E.
  - split; [lia|]. rewrite Z.sub_diag. lia.
  - split; [lia|]. rewrite Z.sub_diag. lia.
  - split; [lia|]. rewrite iter_xO_value. f_equal. f_equal. lia.
Qed.

Lemma Zdigits2_shift m k :
  (0 < m)%Z -> (0 <= k)%Z -> Zdigits2 (m * 2 ^ k) = (Zdigits2 m + k)%Z.
Proof.
  intros Hm Hk. destruct (Zdigits2_bounds m Hm) as [Hl Hu].
  assert (0 < Zdigits2 m)%Z by (destruct m; cbn; lia).
  assert (Hp : (0 < 2 ^ k)%Z) by (apply Z.pow_pos_nonneg; lia).
  apply Z.le_antisymm.
  - apply Zdigits2_le; [nia | lia |].
    apply inject_Z_pow2_lt; [lia|]. rewrite Z.pow_add_r by lia. nia.
  - assert (Hle : (2 ^ (Zdigits2 m - 1 + k) <= m * 2 ^ k)%Z)
      by (rewrite Z.pow_add_r by lia; nia).
    apply inject_Z_pow2_le in Hle; [|lia]. apply Zdigits2_ge in Hle. lia.
Qed.

(** [binary_round]: the value [mx * 2^ex], rounded. *)
Lemma binary_round_rounds s mx ex :
  exists m1 e1,
    rounds_to (inject_Z (Z.pos mx) * pow2 ex) m1 e1
    /\ round_result s m1 e1 (binary_round prec emax s mx ex).
Proof.
  unfold binary_round.
  pose proof (shl_align_spec mx ex (fexp prec emax (Z.pos (digits2_pos mx) + ex)))
    as Hal.
  destruct (shl_align mx ex _) as [mz ez]. destruct Hal as [Hez Hmz].
  change (Z.pos (digits2_pos mx)) with (Zdigits2 (Z.pos mx)) in Hez.
  assert (Hd : (Zdigits2 (Z.pos mz) + ez = Zdigits2 (Z.pos mx) + ex)%Z).
  { rewrite Hmz, Zdigits2_shift by lia. lia. }
  apply binary_round_aux_spec; [lia | |].
  - rewrite Hd. lia.
  - assert (E : (inject_Z (Z.pos mx) * pow2 ex * pow2 (- ez)
                 == inject_Z (Z.pos mz))%Q).
    { rewrite Hmz, inject_Z_mult, <- pow2_Z by lia.
      rewrite <- Qmult_assoc, <- pow2_add.
      by replace (ex + - ez)%Z with (ex - ez)%Z by lia. }
    unfold shr_inv. cbn [shr_record_of_loc shr_m shr_r]. rewrite E.
    split; [lia|]. split; [lra|]. split; [lra | done].
Qed.

(** The sum of two positive finite numbers is their exact sum,
    rounded. *)
Lemma SFadd_rounds mx ex my ey :
  exists m1 e1,
    rounds_to (SF2Q (S754_finite false mx ex) + SF2Q (S754_finite false my ey))
      m1 e1
    /\ round_result false m1 e1
         (SF64add (S754_finite false mx ex) (S754_finite false my ey)).
Proof.
  unfold SF64add, SFadd. cbn [cond_Zopp SF2Q].
  set (ez := Z.min ex ey).
  pose proof (shl_align_spec mx ex ez) as Hx.
  pose proof (shl_align_spec my ey ez) as Hy.
  destruct (shl_align mx ex ez) as [mx' ex'], (shl_align my ey ez) as [my' ey'].
  destruct Hx as [Hex Hmx], Hy as [Hey Hmy]. cbn [fst].
  replace ex' with ez in Hmx by lia. replace ey' with ez in Hmy by lia.
  change (Z.pos mx' + Z.pos my')%Z with (Z.pos (mx' + my')). cbn [binary_normalize].
  destruct (binary_round_rounds false (mx' + my') ez) as (m1 & e1 & Hrt & Hr).
  exists m1, e1. split; [|done].
  assert (E : (inject_Z (Z.pos mx) * pow2 ex + inject_Z (Z.pos my) * pow2 ey
               == inject_Z (Z.pos (mx' + my')) * pow2 ez)%Q).
  { rewrite Pos2Z.inj_add, inject_Z_plus, Hmx, Hmy, !inject_Z_mult.
    rewrite <- !pow2_Z by lia.
    rewrite (pow2_shift ex ez), (pow2_shift ey ez). ring. }
  destruct Hrt as [H1 H2 H3 H4 H5 H6].
  split; [done | by rewrite E | | done | by rewrite E | by rewrite E].
  destruct H3 as [|H3]; [by left | right]. by rewrite E.
Qed.

Lemma representable_pow2 e :
  (-1074 <= e <= 971)%Z ->
  exists mz ez,
    valid_binary (S754_finite false mz ez) = true
    /\ (inject_Z (Z.pos mz) * pow2 ez == pow2 e)%Q.
Proof.
  intros He. destruct (Z_lt_le_dec e (-1022)) as [Hsub|Hnorm].
  - assert (Hp : (0 < 2 ^ (e + 1074))%Z) by (apply Z.pow_pos_nonneg; lia).
    exists (Z.to_pos (2 ^ (e + 1074))), (-1074)%Z.
    rewrite Z2Pos.id by done. split.
    + apply valid_finite_intro; [lia | | by left]. rewrite Z2Pos.id by done.
      apply Z.pow_lt_mono_r; lia.
    + rewrite <- pow2_Z, <- pow2_add by lia. by replace (e + 1074 + -1074)%Z
        with e by lia.
  - exists 4503599627370496%positive, (e - 52)%Z. split.
    + apply valid_finite_intro; [lia | done | by right].
    + change (inject_Z (Z.pos 4503599627370496)) with (pow2 52).
      rewrite <- pow2_add. by replace (52 + (e - 52))%Z with e by lia.
Qed.

(** The number after a positive finite number is [+Infinity], or the
    rounding of a number that is at least one unit in the last place
    above. *)
Lemma SFsucc_above ma ea :
  valid_binary (S754_finite false ma ea) = true ->
  SF64succ (S754_finite false ma ea) = S754_infinity false
  \/ exists P m2 e2,
       rounds_to P m2 e2
       /\ round_result false m2 e2 (SF64succ (S754_finite false ma ea))
       /\ ((inject_Z (Z.pos ma) + 1) * pow2 ea <= P)%Q.
Proof.
  intros Ha. unfold SF64succ, SFsucc.
  assert (Hu : SFulp prec emax (S754_finite false ma ea)
               = binary_round prec emax false 4503599627370496 (-52 + ea)).
  { unfold SFulp, SFldexp. change (SFone prec emax) with SF_one.
    unfold SF_one. f_equal. f_equal.
    pose proof (valid_canonical _ _ _ Ha) as Hc.
    pose proof (valid_finite_inv _ _ _ Ha) as (_ & Hm & _).
    assert (Hd : (Zdigits2 (Z.pos ma) <= 53)%Z).
    { apply Zdigits2_le; [lia | lia |]. apply inject_Z_pow2_lt; lia. }
    unfold SFfrexp. change (Z.pos (digits2_pos ma)) with (Zdigits2 (Z.pos ma)).
    destruct (prec <=? Zdigits2 (Z.pos ma))%Z eqn:E; cbn [snd];
      rewrite fexp_eq; change prec with 53%Z in *.
    - apply Z.leb_le in E. lia.
    - lia. }
  rewrite Hu.
  destruct (binary_round_rounds false 4503599627370496 (-52 + ea))
    as (mu & eu & Hrtu & Hru).
  assert (Eu : (inject_Z (Z.pos 4503599627370496) * pow2 (-52 + ea)
                == pow2 ea)%Q).
  { rewrite pow2_add. change (inject_Z (Z.pos 4503599627370496)) with (pow2 52).
    rewrite Qmult_assoc, pow2_cancel. ring. }
  pose proof (pow2_pos ea) as Hpa.
  destruct Hru as [Hm0|m e Hm0 Hv Hval|Hinf].
  - (* the unit does not round to 0 *)
    exfalso. subst mu. destruct Hrtu as [H1 H2 H3 _ H5 H6].
    rewrite Eu in *. change (inject_Z 0 + 1)%Q with 1%Q in H6.
    pose proof (valid_finite_inv _ _ _ Ha) as (Hea & _ & _).
    pose proof (pow2_le eu ea) as Hle. pose proof (pow2_pos eu).
    destruct H3 as [->|H3].
    + specialize (Hle ltac:(lia)). lra.
    + pose proof (pow2_lt eu (52 + eu) ltac:(lia)). lra.
  - destruct (SFadd_rounds ma ea m e) as (m2 & e2 & Hrt2 & Hr2).
    right. eexists _, m2, e2. split; [exact Hrt2|]. split; [exact Hr2|].
    cbn [SF2Q]. rewrite Hval.
    assert (Hge : (pow2 ea <= inject_Z mu * pow2 eu)%Q).
    { destruct (representable_pow2 ea) as (mz & ez & Hz & Hzv).
      - by apply valid_finite_inv in Ha as (? & _ & _).
      - rewrite <- Hzv. apply (rounds_to_ge _ _ _ _ _ Hrtu Hz).
        rewrite Hzv, Eu. lra. }
    lra.
  - left. reflexivity.
Qed.

End Successor.

(* ===================================================================== *)
(** * [calculateScale]: the scaled device and the available space *)
(* ===================================================================== *)

Section ScaleRounding.
Local Open Scope float_scope.
Implicit Types (x y z a d s : float).

Lemma le3_trans (a b c : Z * Z * Z) : le3 a b -> le3 b c -> le3 a c.
Proof.
  unfold le3, lt3. intros [H1 | ->] [H2 | ->]; auto. left. lia.
Qed.

Lemma lt3_le3_trans (a b c : Z * Z * Z) : lt3 a b -> le3 b c -> lt3 a c.
Proof. unfold le3, lt3. intros H1 [H2 | <-]; [lia | done]. Qed.

Lemma lt3_not_le3 (a b : Z * Z * Z) : lt3 a b -> ~ le3 b a.
Proof. unfold le3, lt3. intros H1 [H2 | ->]; lia. Qed.

Lemma fleb_trans x y z :
  (x <=? y) = true -> (y <=? z) = true -> (x <=? z) = true.
Proof.
  intros (Hx & Hy & H1)%fleb_true (_ & Hz & H2)%fleb_true.
  apply fleb_true. repeat split; try done. by eapply le3_trans.
Qed.

Lemma fltb_fleb_trans x y z :
  (x <? y) = true -> (y <=? z) = true -> (x <? z) = true.
Proof.
  intros (Hx & Hy & H1)%fltb_true (_ & Hz & H2)%fleb_true.
  apply fltb_true. repeat split; try done. by eapply lt3_le3_trans.
Qed.

Lemma fltb_not_fleb x y : (x <? y) = true -> (y <=? x) = false.
Proof.
  intros (Hx & Hy & H1)%fltb_true. apply not_true_is_false.
  intros (_ & _ & H2)%fleb_true. by apply (lt3_not_le3 _ _ H1).
Qed.

Lemma Math_max_zero_pos x : (0 <? x) = true -> Js.Math_max 0 x = x.
Proof.
  intros H. pose proof H as (_ & Hx & _)%fltb_true.
  unfold Js.Math_max. by rewrite Hx, H.
Qed.

(** A number above 0 is a positive finite number or [+Infinity]. *)
Lemma positive_shape x :
  (0 <? x) = true ->
  (exists m e, Prim2SF x = S754_finite false m e)
  \/ Prim2SF x = S754_infinity false.
Proof.
  rewrite FloatAxioms.ltb_spec, Prim2SF_zero.
  destruct (Prim2SF x) as [s|s| |s m e]; try done; destruct s; try done; eauto.
Qed.

(** One side of the scaled device: the rounded product [d * s], for a
    scale [s] that is at most the rounded quotient [a / d] and at most
    1, is at most the number after [a], provided the quotient is not
    below the normal range. *)
Lemma scaled_side_fits a d s :
  (0 <? d) = true -> (0 <? a) = true ->
  (0x1p-1022 <=? a / d) = true ->
  (0 <? s) = true -> (s <=? a / d) = true -> (s <=? 1) = true ->
  (d * s <=? next_up a) = true
  /\ (d * s <=? a * (1 + 0x1p-52)) = true.
Proof.
  intros Hd Ha Hq Hs Hsq Hs1.
  rewrite FloatAxioms.leb_spec in Hq, Hsq, Hs1.
  rewrite !FloatAxioms.leb_spec.
  rewrite FloatAxioms.div_spec in Hq, Hsq.
  rewrite !FloatAxioms.mul_spec, FloatAxioms.next_up_spec.
  change (Prim2SF 0x1p-1022) with SF_tiny in Hq.
  change (Prim2SF 1) with SF_one in Hs1.
  change (Prim2SF (1 + 0x1p-52)) with SF_one_eps.
  pose proof (Prim2SF_valid a) as Hva. pose proof (Prim2SF_valid d) as Hvd.
  pose proof (Prim2SF_valid s) as Hvs.
  apply positive_shape in Hd as [(md & ed & Ed) | Ed];
    apply positive_shape in Ha as [(ma & ea & Ea) | Ea];
    apply positive_shape in Hs as [(ms & es & Es) | Es];
    rewrite Ed, Ea, Es in *; try done.
  - pose proof (quotient_bound _ _ _ _ _ _ Hva Hvd Hvs Hq Hsq Hs1) as Hb.
    split; [|by apply product_slack].
    destruct (SFsucc_above ma ea Hva) as [-> | (P & m2 & e2 & Hrt & Hr & HP)].
    + destruct (SFmul_rounds md ed ms es Hvd Hvs) as (m1 & e1 & _ & Hr).
      by apply (round_result_le_infinity m1 e1).
    + apply (product_below ma ea md ed ms es P m2 e2); try done.
      pose proof (pow2_pos ea). lra.
  - destruct (SFmul_rounds md ed ms es Hvd Hvs) as (m1 & e1 & _ & Hr).
    split; by apply (round_result_le_infinity m1 e1).
Qed.

(** The scale of [calculateScale], between the quotients and 1. *)
Lemma scale_between qx qy :
  (0x1p-1022 <=? qx) = true -> (0x1p-1022 <=? qy) = true ->
  let s := Js.Math_min (Js.Math_min qx qy) 1 in
  (0 <? s) = true /\ (s <=? qx) = true /\ (s <=? qy) = true
  /\ (s <=? 1) = true.
Proof.
  intros Hx Hy s.
  pose proof Hx as (_ & Hnx & _)%fleb_true.
  pose proof Hy as (_ & Hny & _)%fleb_true.
  destruct (Math_min_spec qx qy Hnx Hny) as (Hm & Hmx & Hmy).
  set (m := Js.Math_min qx qy) in *.
  assert (Hnm : is_nan m = false) by (by destruct Hm as [-> | ->]).
  assert (Htm : (0x1p-1022 <=? m) = true) by (by destruct Hm as [-> | ->]).
  destruct (Math_min_spec m 1 Hnm eq_refl) as (Hs & Hsm & Hs1). fold s in Hs, Hsm, Hs1.
  assert (Hts : (0x1p-1022 <=? s) = true) by (by destruct Hs as [-> | ->]).
  split; [|split; [|split]].
  - by apply (fltb_fleb_trans _ 0x1p-1022).
  - by apply (fleb_trans _ m).
  - by apply (fleb_trans _ m).
  - done.
Qed.

End ScaleRounding.

(** C9, as the code has it: on the binary64 numbers the code computes
    with, for a positive device size and positive space inside the
    padding, when the two quotients are not below the normal range
    (at least [2^-1022]), [calculateScale] returns a scale in
    [(0, 1]], the scaled sizes are the rounded products, and each is at
    most the binary64 number after the available space: the scaled
    device fits up to one rounding step. *)
Theorem calculateScale_fits_up_to_rounding
    (containerW containerH deviceW deviceH : float)
    (paddingPx : option float) :
  let padding := default 20%float paddingPx in
  let availableWidth := (containerW - padding * 2)%float in
  let availableHeight := (containerH - padding * 2)%float in
  (0 <? deviceW)%float = true -> (0 <? deviceH)%float = true ->
  (0 <? availableWidth)%float = true -> (0 <? availableHeight)%float = true ->
  (0x1p-1022 <=? availableWidth / deviceW)%float = true ->
  (0x1p-1022 <=? availableHeight / deviceH)%float = true ->
  let r := Viewport.calculateScale containerW containerH deviceW deviceH
             paddingPx in
  (0 <? Viewport.scale r)%float = true
  /\ (Viewport.scale r <=? 1)%float = true
  /\ Viewport.scaledWidth r = (deviceW * Viewport.scale r)%float
  /\ Viewport.scaledHeight r = (deviceH * Viewport.scale r)%float
  /\ (Viewport.scaledWidth r <=? next_up availableWidth)%float = true
  /\ (Viewport.scaledHeight r <=? next_up availableHeight)%float = true
  /\ (Viewport.scaledWidth r <=? availableWidth * (1 + 0x1p-52))%float = true
  /\ (Viewport.scaledHeight r <=? availableHeight * (1 + 0x1p-52))%float
     = true.
Proof.
  intros padding aW aH HdW HdH HaW HaH HqW HqH.
  unfold Viewport.calculateScale, Viewport.calculateScale_divs. cbn.
  fold padding aW aH.
  rewrite (Math_max_zero_pos aW HaW), (Math_max_zero_pos aH HaH).
  rewrite (fltb_not_fleb _ _ HdW), (fltb_not_fleb _ _ HdH),
    (fltb_not_fleb _ _ HaW), (fltb_not_fleb _ _ HaH). cbn.
  destruct (scale_between _ _ HqW HqH) as (Hs0 & Hsx & Hsy & Hs1).
  set (s := Js.Math_min (Js.Math_min (aW / deviceW) (aH / deviceH)) 1) in *.
  destruct (scaled_side_fits aW deviceW s HdW HaW HqW Hs0 Hsx Hs1) as [Hw1 Hw2].
  destruct (scaled_side_fits aH deviceH s HdH HaH HqH Hs0 Hsy Hs1) as [Hh1 Hh2].
  done.
Qed.

Lemma calculateScale_fits_up_to_rounding_witness :
  let r := Viewport.calculateScale 500%float 500%float 375%float 667%float
             None in
  ((0 <? 375)%float = true /\ (0 <? 667)%float = true
   /\ (0 <? 500 - 20 * 2)%float = true
   /\ (0x1p-1022 <=? (500 - 20 * 2) / 375)%float = true
   /\ (0x1p-1022 <=? (500 - 20 * 2) / 667)%float = true)
  /\ (0 <? Viewport.scale r)%float = true
  /\ (Viewport.scale r <=? 1)%float = true
  /\ (Viewport.scaledWidth r <=? next_up (500 - 20 * 2))%float = true
  /\ (Viewport.scaledHeight r <=? next_up (500 - 20 * 2))%float = true.
Proof.
  intros r.
  assert (H1 : (0 <? 375)%float = true) by reflexivity.
  assert (H2 : (0 <? 667)%float = true) by reflexivity.
  assert (H3 : (0 <? 500 - 20 * 2)%float = true) by reflexivity.
  assert (H4 : (0x1p-1022 <=? (500 - 20 * 2) / 375)%float = true)
    by reflexivity.
  assert (H5 : (0x1p-1022 <=? (500 - 20 * 2) / 667)%float = true)
    by reflexivity.
  split; [by repeat split|].
  destruct (calculateScale_fits_up_to_rounding 500 500 375 667 None
              H1 H2 H3 H3 H4 H5) as (Hs0 & Hs1 & _ & _ & Hw & Hh & _).
  split; [exact Hs0|]. split; [exact Hs1|]. split; [exact Hw | exact Hh].
Defined.

(** C9 as stated fails on the binary64 numbers the code computes with.
    Rounding: for a 375 by 667 device in a 500 by 500 container with
    the default padding, the quotient [460 / 667] is rounded, and
    [667 * scale] is the next number above 460: the scaled height
    exceeds the 460 pixels inside the padding. Underflow: a quotient
    below the normal range is rounded with a large relative error (a
    device of width [2^1023] in a space of [1.375 * 2^-50] gets the
    scaled width [1.5 * 2^-50]), or to 0 (a device of width [2^600] in
    a space of [2^-600] gets the scale 0). *)
Lemma calculateScale_rounding_counterexample :
  let r := Viewport.calculateScale 500%float 500%float 375%float 667%float
             None in
  let r1 := Viewport.calculateScale 0x1.6p-50%float 0x1.6p-50%float
              0x1p1023%float 0x1p1023%float (Some 0%float) in
  let r0 := Viewport.calculateScale 0x1p-600%float 0x1p-600%float
              0x1p600%float 0x1p600%float (Some 0%float) in
  (((0 <? 375)%float = true /\ (0 <? 667)%float = true
    /\ (0 <? 500 - 20 * 2)%float = true)
   /\ Viewport.scaledHeight r = (667 * Viewport.scale r)%float
   /\ Viewport.scaledHeight r = next_up 460%float
   /\ (Viewport.scaledHeight r <=? 500 - 20 * 2)%float = false)
  /\ (((0 <? 0x1p1023)%float = true
       /\ (0 <? 0x1.6p-50 - 0 * 2)%float = true)
      /\ Viewport.scaledWidth r1 = 0x1.8p-50%float
      /\ (Viewport.scaledWidth r1 <=? next_up (0x1.6p-50 - 0 * 2))%float
         = false)
  /\ (((0 <? 0x1p600)%float = true
       /\ (0 <? 0x1p-600 - 0 * 2)%float = true)
      /\ Viewport.scale r0 = 0%float
      /\ (0 <? Viewport.scale r0)%float = false).
Proof. cbv zeta. repeat split; reflexivity. Qed.

(* ===================================================================== *)
(** * [useNavigation]: what the history holds and how actions compose *)
(* ===================================================================== *)

Section NavMore.
Context {platform : UrlPlatform}.
Implicit Types (st : Nav.State) (url : Js.jsstring).

Lemma nav_normaliseUrl_has_scheme url :
  Js.has_http_scheme (Nav.normaliseUrl url) = true.
Proof.
  unfold Nav.normaliseUrl.
  destruct (Js.has_http_scheme (Js.trim url)) eqn:E; [exact E | reflexivity].
Qed.

Lemma nav_valid_entry_ok url :
  Nav.isValidUrl url = true -> nav_entry_ok (Nav.normaliseUrl url).
Proof.
  unfold Nav.isValidUrl. intros H. split; [apply nav_normaliseUrl_has_scheme|].
  destruct (URL_protocol (Nav.normaliseUrl url)) as [p|]; [|done]. eauto.
Qed.

Lemma nav_entries_inv_step a st :
  nav_inv st -> nav_entries_inv st -> nav_entries_inv (Nav.step a st).
Proof.
  intros [Hidx _] [Hempty Hall]. unfold nav_entries_inv, Nav.historyIndex in *.
  destruct a; cbn; try done.
  - destruct (Nav.isValidUrl url) eqn:Hvalid.
    + rewrite nav_navigate_valid by done. cbn.
      rewrite len_app, len_slice0 by lia. change (Js.len [_]) with 1%Z.
      split; [lia|]. apply Forall_app. split.
      * rewrite slice0_take by lia. by apply Forall_take.
      * apply Forall_singleton. by apply nav_valid_entry_ok.
    + rewrite nav_navigate_invalid by done. done.
  - unfold Nav.goBack, Nav.canGoBack.
    destruct (0 <? Nav.currentIndex (Nav.history st))%Z eqn:E; cbn; [|done].
    apply Z.ltb_lt in E. split; [lia | done].
  - unfold Nav.goForward, Nav.canGoForward.
    destruct (Nav.currentIndex (Nav.history st)
              <? Js.len (Nav.entries (Nav.history st)) - 1)%Z eqn:E;
      cbn; [|done].
    apply Z.ltb_lt in E. split; [lia | done].
  - unfold Nav.refresh. by destruct (Nav.falsy _).
Qed.

Lemma nav_entries_inv_run l : nav_entries_inv (Nav.run l Nav.initial).
Proof.
  induction l as [|a l IH] using rev_ind.
  - split; [done | apply Forall_nil_2].
  - rewrite nav_run_snoc. apply nav_entries_inv_step; [apply nav_inv_run|done].
Qed.

(** X1: after every sequence of actions, every entry of the history
    went through the validation (it starts with [http://] or
    [https://] and parses with protocol [http:] or [https:]), and
    [currentUrl] is the empty string or such a URL. *)
Theorem nav_history_holds_validated_urls (l : list Nav.Action) :
  let st := Nav.run l Nav.initial in
  Forall nav_entry_ok (Nav.entries (Nav.history st))
  /\ (Nav.currentUrl st = Some []
      \/ exists url, Nav.currentUrl st = Some url /\ nav_entry_ok url).
Proof.
  cbn. destruct (nav_entries_inv_run l) as [_ Hall].
  destruct (nav_inv_run l) as [Hidx Hurl]. split; [done|].
  destruct (Nav.currentIndex _ =? -1)%Z eqn:E; [by left|]. right.
  destruct (index_in_range (Nav.entries (Nav.history (Nav.run l Nav.initial)))
              (Nav.currentIndex (Nav.history (Nav.run l Nav.initial))))
    as [url Hget]; [lia|].
  exists url. split; [congruence|].
  unfold Js.index in Hget. destruct (0 <=? _)%Z; [|done].
  rewrite Forall_lookup in Hall. by apply (Hall _ _ Hget).
Qed.

(** X2: a successful [navigate] from a state that shows an entry can be
    undone: [goBack] brings back the URL and the cursor from before the
    navigation, and [goForward] after it shows the new URL again. *)
Theorem nav_navigate_then_goBack url st :
  Nav.reachable st ->
  (0 <= Nav.historyIndex st)%Z ->
  Nav.isValidUrl url = true ->
  let st1 := Nav.goBack (Nav.navigate url st) in
  Nav.currentUrl st1 = Nav.currentUrl st
  /\ Nav.historyIndex st1 = Nav.historyIndex st
  /\ Nav.currentUrl (Nav.goForward st1) = Some (Nav.normaliseUrl url)
  /\ Nav.historyIndex (Nav.goForward st1) = (Nav.historyIndex st + 1)%Z.
Proof.
  intros [Hidx Hurl]%nav_inv_reachable Hpos Hvalid.
  unfold Nav.historyIndex in *. cbn zeta.
  rewrite nav_navigate_valid by done. cbn zeta.
  set (e := (Nav.currentIndex (Nav.history st) + 1)%Z).
  assert (He : (0 < e <= Js.len (Nav.entries (Nav.history st)))%Z)
    by (subst e; lia).
  set (entries' := Js.slice0 (Nav.entries (Nav.history st)) e
                   ++ [Nav.normaliseUrl url]).
  assert (Hlen : (Js.len entries' - 1 = e)%Z).
  { subst entries'. rewrite len_app, len_slice0 by lia.
    change (Js.len [_]) with 1%Z. lia. }
  unfold Nav.goBack, Nav.canGoBack. cbn. rewrite Hlen.
  destruct (0 <? e)%Z eqn:E; [|lia]. cbn.
  replace (e - 1)%Z with (Nav.currentIndex (Nav.history st)) by (subst e; lia).
  assert (Hsame : Js.index entries' (Nav.currentIndex (Nav.history st))
                  = Nav.currentUrl st).
  { rewrite Hurl. destruct (_ =? -1)%Z eqn:E'; [lia|].
    subst entries'. unfold Js.index.
    destruct (0 <=? Nav.currentIndex (Nav.history st))%Z; [|done].
    rewrite slice0_take by lia. unfold Js.len in *.
    rewrite lookup_app_l by (rewrite length_take; lia).
    apply lookup_take_lt. lia. }
  split; [done|]. split; [done|].
  unfold Nav.goForward, Nav.canGoForward. cbn. rewrite Hlen.
  destruct (Nav.currentIndex (Nav.history st) <? e)%Z eqn:E2;
    [|subst e; lia].
  cbn. fold e. split; [|done].
  subst entries'. apply index_slice0_app. lia.
Qed.

End NavMore.

Lemma nav_navigate_then_goBack_witness :
  let A := Js.str "a.example" in
  let B := Js.str "https://b.example/path" in
  let st := Nav.run (platform := ExampleParser.platform)
              [Nav.Navigate A; Nav.OnLoadComplete] Nav.initial in
  let st1 := Nav.goBack (Nav.navigate (platform := ExampleParser.platform) B st) in
  (Nav.historyIndex st = 0%Z
   /\ Nav.isValidUrl (platform := ExampleParser.platform) B = true)
  /\ Nav.currentUrl st1 = Some (Js.str "https://a.example")
  /\ Nav.historyIndex st1 = 0%Z
  /\ Nav.currentUrl (Nav.goForward st1) = Some B.
Proof.
  cbv zeta.
  assert (H1 : Nav.reachable (platform := ExampleParser.platform)
                 (Nav.run (platform := ExampleParser.platform)
                    [Nav.Navigate (Js.str "a.example"); Nav.OnLoadComplete]
                    Nav.initial))
    by (eexists; reflexivity).
  assert (H3 : Nav.isValidUrl (platform := ExampleParser.platform)
                 (Js.str "https://b.example/path") = true) by reflexivity.
  split; [split; [reflexivity | exact H3]|].
  destruct (nav_navigate_then_goBack (platform := ExampleParser.platform)
              (Js.str "https://b.example/path") _ H1 ltac:(vm_compute; discriminate) H3)
    as (Hu & Hi & Hf & _).
  split; [exact Hu|]. split; [exact Hi | exact Hf].
Defined.

(** X3: the mirror of [goBack] then [goForward]. From a reachable state
    where [goForward] can move (an entry lies after the cursor) or
    [goBack] cannot (the cursor is at most 0), [goForward] and then
    [goBack] bring [currentUrl] and the cursor back; in [useNavigation]
    and in the store. *)
Theorem goForward_then_goBack_restores {platform : UrlPlatform}
    (st : Nav.State) (s : BrowserStore.NavigationState) :
  Nav.reachable st ->
  (Nav.historyIndex st < Js.len (Nav.entries (Nav.history st)) - 1
   \/ Nav.historyIndex st <= 0)%Z ->
  BrowserStore.reachable s ->
  (BrowserStore.historyIndex s < Js.len (BrowserStore.history s) - 1
   \/ BrowserStore.historyIndex s <= 0)%Z ->
  (Nav.currentUrl (Nav.goBack (Nav.goForward st)) = Nav.currentUrl st
   /\ Nav.historyIndex (Nav.goBack (Nav.goForward st)) = Nav.historyIndex st)
  /\ exists s1 s2,
       BrowserStore.goForward s = Some s1
       /\ BrowserStore.goBack s1 = Some s2
       /\ BrowserStore.currentUrl s2 = BrowserStore.currentUrl s
       /\ BrowserStore.historyIndex s2 = BrowserStore.historyIndex s.
Proof.
  intros [l Hl] Hcase
         (Hsidx & Hsempty & Hsurl & Hsback & Hsfwd)%store_inv_reachable Hscase.
  pose proof (nav_inv_run l) as [Hidx Hurl].
  pose proof (nav_entries_inv_run l) as [Hempty _].
  rewrite Hl in Hidx, Hurl, Hempty. clear l Hl.
  split.
  - unfold Nav.historyIndex in *.
    unfold Nav.goForward, Nav.canGoForward.
    destruct (Nav.currentIndex (Nav.history st)
              <? Js.len (Nav.entries (Nav.history st)) - 1)%Z eqn:Efwd; cbn.
    + apply Z.ltb_lt in Efwd.
      assert (0 <= Nav.currentIndex (Nav.history st))%Z as Hpos.
      { destruct (Z.eq_dec (Nav.currentIndex (Nav.history st)) (-1)%Z)
          as [Hm|]; [|lia].
        rewrite (Hempty Hm) in Efwd. unfold Js.len in Efwd. simpl in Efwd. lia. }
      unfold Nav.goBack, Nav.canGoBack. cbn.
      destruct (0 <? Nav.currentIndex (Nav.history st) + 1)%Z eqn:Eback;
        [|apply Z.ltb_ge in Eback; lia].
      cbn.
      replace (Nav.currentIndex (Nav.history st) + 1 - 1)%Z
        with (Nav.currentIndex (Nav.history st)) by lia.
      split; [|done]. rewrite Hurl.
      destruct (Nav.currentIndex (Nav.history st) =? -1)%Z eqn:E; [lia|done].
    + apply Z.ltb_ge in Efwd.
      unfold Nav.goBack, Nav.canGoBack.
      destruct (0 <? Nav.currentIndex (Nav.history st))%Z eqn:Eback;
        [apply Z.ltb_lt in Eback; lia|].
      done.
  - unfold BrowserStore.goForward.
    destruct (BrowserStore.historyIndex s
              <? Js.len (BrowserStore.history s) - 1)%Z eqn:Efwd.
    + apply Z.ltb_lt in Efwd.
      assert (0 <= BrowserStore.historyIndex s)%Z as Hpos.
      { destruct (Z.eq_dec (BrowserStore.historyIndex s) (-1)%Z) as [Hm|];
          [|lia].
        rewrite (Hsempty Hm) in Efwd. unfold Js.len in Efwd. simpl in Efwd.
        lia. }
      specialize (Hsurl Hpos).
      destruct (Js.index (BrowserStore.history s) (BrowserStore.historyIndex s))
        as [e|] eqn:He; [|done].
      cbn in Hsurl. injection Hsurl as Hsurl.
      destruct (index_in_range (BrowserStore.history s)
                  (BrowserStore.historyIndex s + 1)) as [e1 He1]; [lia|].
      rewrite He1. cbn. eexists. eexists. split; [done|].
      unfold BrowserStore.goBack. cbn.
      destruct (0 <? BrowserStore.historyIndex s + 1)%Z eqn:Eback;
        [|apply Z.ltb_ge in Eback; lia].
      replace (BrowserStore.historyIndex s + 1 - 1)%Z
        with (BrowserStore.historyIndex s) by lia.
      rewrite He. cbn. split; [reflexivity|]. cbn. by split.
    + apply Z.ltb_ge in Efwd. exists s, s. split; [done|].
      unfold BrowserStore.goBack.
      destruct (0 <? BrowserStore.historyIndex s)%Z eqn:Eback;
        [apply Z.ltb_lt in Eback; lia|].
      done.
Qed.

Lemma goForward_then_goBack_restores_witness :
  let A := Js.str "a.example" in
  let B := Js.str "b.example" in
  let st := Nav.run (platform := ExampleParser.platform)
              [Nav.Navigate A; Nav.Navigate B; Nav.GoBack] Nav.initial in
  let s := BrowserStore.mkState A
             [NavigationEntry.mk A None 1 None None;
              NavigationEntry.mk B None 2 None None]%Z
             0 true 0 None false true in
  (Nav.historyIndex st = 0%Z /\ BrowserStore.historyIndex s = 0%Z)
  /\ (Nav.currentUrl (Nav.goBack (Nav.goForward st)) = Nav.currentUrl st
      /\ Nav.historyIndex (Nav.goBack (Nav.goForward st)) = Nav.historyIndex st)
  /\ exists s1 s2,
       BrowserStore.goForward s = Some s1
       /\ BrowserStore.goBack s1 = Some s2
       /\ BrowserStore.currentUrl s2 = BrowserStore.currentUrl s
       /\ BrowserStore.historyIndex s2 = BrowserStore.historyIndex s.
Proof.
  intros A B st s. split; [split; reflexivity|].
  apply (goForward_then_goBack_restores (platform := ExampleParser.platform)).
  - exists [Nav.Navigate A; Nav.Navigate B; Nav.GoBack]. reflexivity.
  - right. unfold st, Nav.historyIndex. vm_compute. discriminate.
  - exists [BrowserStore.Navigate A None 1; BrowserStore.Navigate B None 2;
            BrowserStore.GoBack].
    reflexivity.
  - right. unfold s. simpl. lia.
Defined.

(* ===================================================================== *)
(** * The load progress *)
(* ===================================================================== *)

Section Progress.
Local Open Scope float_scope.

Lemma progress_clamp (p : float) :
  let r := Js.Math_max 0 (Js.Math_min 100 p) in
  (is_nan p = false -> progress_in_range r)
  /\ ((p <? 0) = true -> r = 0)
  /\ ((100 <? p) = true -> r = 100)
  /\ ((0 <? p) = true -> (p <? 100) = true -> r = p)
  /\ (is_nan p = true -> r = nan).
Proof.
  cbn zeta. repeat split.
  - by apply (clamp_in_range 0 100 p).
  - by apply (clamp_in_range 0 100 p).
  - by apply clamp_below.
  - intros H. by rewrite (clamp_above 0 100 p).
  - by apply clamp_inside.
  - intros H. rewrite (Math_min_nan 100 p) by (by right).
    by apply Math_max_nan; right.
Qed.

(** X4: [setProgress] of [useNavigation] and [setLoadProgress] of the
    store clamp: a number below 0 is stored as 0, one above 100 as 100,
    one strictly between as itself, any number ends within [[0, 100]],
    and [NaN] is stored as [NaN]. Nothing but the progress changes. *)
Theorem setProgress_clamps (p : float) (st : Nav.State)
    (s : BrowserStore.NavigationState) :
  let r := Nav.loadProgress (Nav.setProgress p st) in
  BrowserStore.loadProgress (BrowserStore.setLoadProgress p s) = r
  /\ (is_nan p = false -> progress_in_range r)
  /\ ((p <? 0) = true -> r = 0)
  /\ ((100 <? p) = true -> r = 100)
  /\ ((0 <? p) = true -> (p <? 100) = true -> r = p)
  /\ (is_nan p = true -> r = nan)
  /\ Nav.history (Nav.setProgress p st) = Nav.history st
  /\ Nav.currentUrl (Nav.setProgress p st) = Nav.currentUrl st
  /\ Nav.isLoading (Nav.setProgress p st) = Nav.isLoading st
  /\ Nav.error (Nav.setProgress p st) = Nav.error st.
Proof.
  cbn zeta. split; [reflexivity|].
  destruct (progress_clamp p) as (H1 & H2 & H3 & H4 & H5).
  split; [exact H1|]. split; [exact H2|]. split; [exact H3|].
  split; [exact H4|]. split; [exact H5|]. by destruct st.
Qed.

Lemma nav_progress_step {platform : UrlPlatform} a st :
  nav_progress_given a ->
  progress_in_range (Nav.loadProgress st) ->
  progress_in_range (Nav.loadProgress (Nav.step a st)).
Proof.
  intros Ha Hst.
  assert (H0 : progress_in_range 0) by (split; reflexivity).
  assert (H100 : progress_in_range 100) by (split; reflexivity).
  destruct a; cbn; try done.
  - unfold Nav.navigate. by destruct (negb _).
  - unfold Nav.goBack. by destruct (negb _).
  - unfold Nav.goForward. by destruct (negb _).
  - unfold Nav.refresh. by destruct (Nav.falsy _).
  - by apply (progress_clamp progress).
Qed.

(** X5: when no [setProgress] call passes [NaN], [loadProgress] stays
    within [[0, 100]] after every sequence of actions of
    [useNavigation]. *)
Theorem nav_loadProgress_in_range {platform : UrlPlatform}
    (l : list Nav.Action) :
  Forall nav_progress_given l ->
  progress_in_range (Nav.loadProgress (Nav.run l Nav.initial)).
Proof.
  induction l as [|a l IH] using rev_ind; intros Hl.
  - split; reflexivity.
  - apply Forall_app in Hl as [Hl Ha]. apply Forall_inv in Ha.
    rewrite nav_run_snoc. apply nav_progress_step; [done | by apply IH].
Qed.

Lemma nav_loadProgress_in_range_witness :
  let l := [Nav.Navigate (Js.str "a.example"); Nav.SetProgress 10;
            Nav.SetProgress 150; Nav.SetProgress (-10)] in
  Forall nav_progress_given l
  /\ Nav.loadProgress (Nav.run (platform := ExampleParser.platform) l
                         Nav.initial) = 0
  /\ progress_in_range
       (Nav.loadProgress (Nav.run (platform := ExampleParser.platform) l
                            Nav.initial)).
Proof.
  cbv zeta.
  assert (H : Forall nav_progress_given
                [Nav.Navigate (Js.str "a.example"); Nav.SetProgress 10;
                 Nav.SetProgress 150; Nav.SetProgress (-10)])
    by (repeat constructor).
  split; [exact H|]. split; [reflexivity|].
  exact (nav_loadProgress_in_range (platform := ExampleParser.platform) _ H).
Defined.

End Progress.

(* ===================================================================== *)
(** * [useBrowserStore]: sequences of actions, titles, replacing *)
(* ===================================================================== *)

Lemma store_currentEntry_in_range (s : BrowserStore.NavigationState) :
  (0 <= BrowserStore.historyIndex s < Js.len (BrowserStore.history s))%Z ->
  store_currentEntry s
  = Js.index (BrowserStore.history s) (BrowserStore.historyIndex s).
Proof.
  intros [H1 H2]. unfold store_currentEntry.
  destruct (0 <=? BrowserStore.historyIndex s)%Z eqn:E1; [|lia].
  destruct (BrowserStore.historyIndex s
            <? Js.len (BrowserStore.history s))%Z eqn:E2; [done | lia].
Qed.

(** X6: no sequence of store actions, from the initial state, reads an
    entry that is not there (no [TypeError]) or writes outside the
    history. After the sequence the cursor is [-1] on an empty history
    or a position of it, [currentUrl] is the URL of [currentEntry],
    [canGoBack] is up to date, and [canGoForward] is only set when an
    entry lies after the cursor. *)
Theorem store_actions_never_throw (l : list BrowserStore.Action) :
  exists s,
    BrowserStore.run l BrowserStore.initial = Some s
    /\ ((BrowserStore.historyIndex s = (-1)%Z /\ BrowserStore.history s = []
         /\ store_currentEntry s = None)
        \/ ((0 <= BrowserStore.historyIndex s
             < Js.len (BrowserStore.history s))%Z
            /\ exists entry,
                 store_currentEntry s = Some entry
                 /\ NavigationEntry.url entry = BrowserStore.currentUrl s))
    /\ BrowserStore.canGoBack s = (0 <? BrowserStore.historyIndex s)%Z
    /\ (BrowserStore.canGoForward s = true ->
        BrowserStore.historyIndex s
        < Js.len (BrowserStore.history s) - 1)%Z.
Proof.
  destruct (store_run_total l _ store_inv_initial)
    as (s & Hrun & Hidx & Hempty & Hurl & Hback & Hfwd).
  exists s. split; [done|]. split; [|by split].
  destruct (Z.eq_dec (BrowserStore.historyIndex s) (-1)%Z) as [Hm | Hm].
  - left. split; [done|]. split; [by apply Hempty|].
    unfold store_currentEntry. by rewrite Hm.
  - right. split; [lia|]. rewrite store_currentEntry_in_range by lia.
    specialize (Hurl ltac:(lia)).
    destruct (Js.index _ _) as [entry|]; [|done].
    injection Hurl as Hurl. eauto.
Qed.

Lemma index_insert_other {A} (a : list A) (i j : Z) (x : A) :
  (0 <= i)%Z -> i <> j ->
  Js.index (<[Z.to_nat i := x]> a) j = Js.index a j.
Proof.
  intros Hi Hne. unfold Js.index. destruct (0 <=? j)%Z eqn:E; [|done].
  apply list_lookup_insert_ne. lia.
Qed.

(** X7: on a reachable state that shows an entry, [updateTitle(t)]
    succeeds, [currentTitle] then reads [t], and the URLs of the
    history, the cursor and [currentUrl] stay as they were; every other
    entry is untouched. Without an entry it changes nothing. *)
Theorem store_updateTitle_then_currentTitle (title : Js.jsstring)
    (s : BrowserStore.NavigationState) :
  BrowserStore.reachable s ->
  exists s',
    BrowserStore.updateTitle title s = Some s'
    /\ BrowserStore.historyIndex s' = BrowserStore.historyIndex s
    /\ BrowserStore.currentUrl s' = BrowserStore.currentUrl s
    /\ (NavigationEntry.url <$> BrowserStore.history s')
       = (NavigationEntry.url <$> BrowserStore.history s)
    /\ (forall j, j <> BrowserStore.historyIndex s ->
          Js.index (BrowserStore.history s') j
          = Js.index (BrowserStore.history s) j)
    /\ store_currentTitle s'
       = if (0 <=? BrowserStore.historyIndex s)%Z then title else [].
Proof.
  intros (Hidx & Hempty & Hurl & Hback & Hfwd)%store_inv_reachable.
  unfold BrowserStore.updateTitle.
  destruct (0 <=? BrowserStore.historyIndex s)%Z eqn:E.
  - apply Z.leb_le in E. unfold BrowserStore.update_current.
    destruct (index_in_range (BrowserStore.history s)
                (BrowserStore.historyIndex s)) as [entry Hentry]; [lia|].
    rewrite Hentry. cbn. unfold Js.set_at.
    destruct ((0 <=? BrowserStore.historyIndex s)%Z
              && (BrowserStore.historyIndex s
                  <? Js.len (BrowserStore.history s))%Z) eqn:E2;
      [|apply andb_false_iff in E2 as [?|?]; lia].
    cbn. eexists. split; [reflexivity|]. cbn.
    split; [done|]. split; [done|].
    assert (Hlook : BrowserStore.history s
                      !! Z.to_nat (BrowserStore.historyIndex s) = Some entry).
    { unfold Js.index in Hentry.
      by destruct (0 <=? BrowserStore.historyIndex s)%Z. }
    split.
    { rewrite list_fmap_insert. apply list_insert_id.
      rewrite list_lookup_fmap, Hlook. done. }
    split.
    { intros j Hj. by apply index_insert_other. }
    unfold store_currentTitle, store_currentEntry. cbn.
    unfold Js.len in *. rewrite length_insert.
    destruct ((0 <=? BrowserStore.historyIndex s)%Z
              && (BrowserStore.historyIndex s
                  <? Z.of_nat (length (BrowserStore.history s)))%Z);
      [|done].
    unfold Js.index.
    destruct (0 <=? BrowserStore.historyIndex s)%Z eqn:E3; [|lia].
    rewrite list_lookup_insert_eq by lia. done.
  - exists s. repeat split; try done.
    unfold store_currentTitle, store_currentEntry. by rewrite E.
Qed.

Lemma store_updateTitle_then_currentTitle_witness :
  let A := Js.str "https://a.example/" in
  let s := BrowserStore.mkState A [NavigationEntry.mk A None 1 None None]
             0 true 0 None false false in
  exists s',
    BrowserStore.updateTitle (Js.str "Home") s = Some s'
    /\ store_currentTitle s' = Js.str "Home"
    /\ BrowserStore.currentUrl s' = A.
Proof.
  intros A s.
  assert (H : BrowserStore.reachable s)
    by (exists [BrowserStore.Navigate A None 1]; reflexivity).
  destruct (store_updateTitle_then_currentTitle (Js.str "Home") s H)
    as (s' & Hs' & _ & Hurl & _ & _ & Htitle).
  exists s'. split; [exact Hs'|]. split; [exact Htitle | exact Hurl].
Defined.

(** X8: on a reachable state that shows an entry, [navigate] with
    [replace] overwrites that entry only: the history keeps its length,
    the cursor stays, the entry under the cursor is the new one, every
    other entry is untouched, and [currentUrl] is the new URL. *)
Theorem store_navigate_replace_in_place (url : Js.jsstring)
    (options : option BrowserStore.NavigateOptions) (now : Z)
    (s : BrowserStore.NavigationState) :
  BrowserStore.reachable s ->
  (0 <= BrowserStore.historyIndex s)%Z ->
  BrowserStore.wants_replace options = true ->
  exists s',
    BrowserStore.navigate url options now s = Some s'
    /\ Js.len (BrowserStore.history s') = Js.len (BrowserStore.history s)
    /\ BrowserStore.historyIndex s' = BrowserStore.historyIndex s
    /\ store_currentEntry s' = Some (NavigationEntry.mk url None now None None)
    /\ (forall j, j <> BrowserStore.historyIndex s ->
          Js.index (BrowserStore.history s') j
          = Js.index (BrowserStore.history s) j)
    /\ BrowserStore.currentUrl s' = url.
Proof.
  intros (Hidx & _)%store_inv_reachable Hpos Hrep.
  unfold BrowserStore.navigate. rewrite Hrep.
  destruct (0 <=? BrowserStore.historyIndex s)%Z eqn:E; [|lia]. cbn.
  destruct (Js.set_at (BrowserStore.history s) (BrowserStore.historyIndex s)
              (NavigationEntry.mk url None now None None)) as [h|] eqn:Hh.
  - destruct (index_set_at _ _ _ _ Hh) as [Hget Hlen].
    cbn. eexists. split; [reflexivity|]. cbn.
    split; [done|]. split; [done|]. split.
    { rewrite store_currentEntry_in_range; cbn; [done | lia]. }
    split; [|done].
    intros j Hj. unfold Js.set_at in Hh.
    destruct ((0 <=? BrowserStore.historyIndex s)%Z && _); [|done].
    injection Hh as <-. by apply index_insert_other.
  - destruct (set_at_in_range (BrowserStore.history s)
                (BrowserStore.historyIndex s)
                (NavigationEntry.mk url None now None None)) as [h Hh'];
      [lia | congruence].
Qed.

Lemma store_navigate_replace_in_place_witness :
  let A := Js.str "https://a.example/" in
  let B := Js.str "https://b.example/" in
  let C := Js.str "https://c.example/" in
  let entry u t := NavigationEntry.mk u None t None None in
  let s := BrowserStore.mkState A [entry A 1; entry B 2]%Z 0
             true 0 None false true in
  let replace := Some (BrowserStore.mkOptions (Some true)) in
  exists s',
    BrowserStore.navigate C replace 3 s = Some s'
    /\ BrowserStore.history s' = [entry C 3; entry B 2]%Z
    /\ BrowserStore.historyIndex s' = 0%Z.
Proof.
  intros A B C entry s replace.
  assert (H1 : BrowserStore.reachable s)
    by (exists [BrowserStore.Navigate A None 1; BrowserStore.Navigate B None 2;
                BrowserStore.GoBack]; reflexivity).
  assert (H2 : (0 <= BrowserStore.historyIndex s)%Z) by (unfold s; simpl; lia).
  destruct (store_navigate_replace_in_place C replace 3 s H1 H2 eq_refl)
    as (s' & Hs' & _ & Hi & _).
  exists s'. split; [exact Hs'|]. split; [|exact Hi].
  assert (Hv : BrowserStore.navigate C replace 3 s
               = Some (BrowserStore.mkState C [entry C 3; entry B 2]%Z 0
                         true 0 None false false)) by reflexivity.
  rewrite Hv in Hs'. by injection Hs' as <-.
Defined.

(* ===================================================================== *)
(** * [calculateScale]: the scale never exceeds 1 *)
(* ===================================================================== *)

Section ScaleMore.
Local Open Scope float_scope.
Implicit Types (containerW containerH deviceW deviceH : float).

Lemma rank_finite_inj (a : spec_float) (m : positive) (e : Z) :
  a <> S754_nan -> rank a = (1, e, Z.pos m)%Z -> a = S754_finite false m e.
Proof.
  destruct a as [s|s| |s m' e']; try destruct s; try done; cbn.
  intros _ [= -> ->]. done.
Qed.

(** The smaller of a number that is at least 1 and 1 is 1. *)
Lemma Math_min_one (x : float) : (1 <=? x) = true -> Js.Math_min x 1 = 1.
Proof.
  intros Hle. pose proof Hle as (H1 & Hx & Hr)%fleb_true.
  unfold Js.Math_min. rewrite Hx, H1. cbn [orb].
  assert ((x <? 1) = false) as -> by (by apply fltb_false).
  destruct (1 <? x) eqn:E; [done|].
  apply fltb_false in E; [|done..].
  assert (Heq : frank x = frank 1).
  { unfold le3, lt3 in *.
    destruct Hr as [Hr | Hr]; [|done]. destruct E as [E | E]; [lia | done]. }
  assert (x = 1) as ->; [|by destruct (get_sign 1)].
  apply Prim2SF_inj. apply is_nan_false in Hx.
  replace (Prim2SF 1) with (S754_finite false 4503599627370496 (-52))
    by reflexivity.
  apply (rank_finite_inj _ _ _ Hx). exact Heq.
Qed.

(** X9: on every input, the scale [calculateScale] returns is at most
    1, or it is [NaN] (which takes a [NaN] or infinite input): the
    device is never shown larger than its logical size. *)
Theorem calculateScale_never_upscales containerW containerH deviceW deviceH
    (paddingPx : option float) :
  let r := Viewport.calculateScale containerW containerH deviceW deviceH
             paddingPx in
  is_nan (Viewport.scale r) = true \/ (Viewport.scale r <=? 1) = true.
Proof.
  cbn zeta. unfold Viewport.calculateScale, Viewport.calculateScale_divs.
  cbn. destruct (_ || _); cbn; [by right|].
  set (m := Js.Math_min (_ / _) (_ / _)).
  destruct (is_nan m) eqn:Em.
  - left. by rewrite (Math_min_nan m 1) by (by left).
  - right. by destruct (Math_min_spec m 1 Em eq_refl) as (_ & _ & H).
Qed.

(** X10: when [calculateScale] reports [fitsContainer], the scale is
    exactly 1. *)
Theorem calculateScale_fits_at_natural_size containerW containerH
    deviceW deviceH (paddingPx : option float) :
  let r := Viewport.calculateScale containerW containerH deviceW deviceH
             paddingPx in
  Viewport.fitsContainer r = true -> Viewport.scale r = 1.
Proof.
  cbn zeta. unfold Viewport.calculateScale, Viewport.calculateScale_divs.
  cbn. destruct (_ || _); cbn; [done|].
  intros [Hx Hy]%andb_true_iff.
  pose proof Hx as (_ & Hnx & _)%fleb_true.
  pose proof Hy as (_ & Hny & _)%fleb_true.
  destruct (Math_min_spec _ _ Hnx Hny) as ([-> | ->] & _);
    by apply Math_min_one.
Qed.

Lemma calculateScale_fits_at_natural_size_witness :
  let r := Viewport.calculateScale 1024 1000 393 852 None in
  Viewport.fitsContainer r = true /\ Viewport.scale r = 1.
Proof.
  cbv zeta.
  assert (H : Viewport.fitsContainer
                (Viewport.calculateScale 1024 1000 393 852 None) = true)
    by reflexivity.
  split; [exact H|].
  exact (calculateScale_fits_at_natural_size 1024 1000 393 852 None H).
Defined.

End ScaleMore.

(* ===================================================================== *)
(** * [calculateScale]: when the device fits unscaled *)
(* ===================================================================== *)

Section FitsContainer.
Local Open Scope float_scope.
Implicit Types (x y z a d s : float).

(** Between two valid positive numbers [a < d] the quotient [a / d]
    stays below the midpoint between 1 and the number before it. *)
Lemma quotient_below_one ma ea md ed :
  valid_binary (S754_finite false ma ea) = true ->
  valid_binary (S754_finite false md ed) = true ->
  SFleb (S754_finite false md ed) (S754_finite false ma ea) = false ->
  (SF2Q (S754_finite false ma ea) / SF2Q (S754_finite false md ed)
   < (inject_Z (Z.pos 9007199254740991) + (1 # 2)) * pow2 (-53))%Q.
Proof.
  intros Ha Hd Hlt.
  assert (Hord : (ea < ed \/ (ea = ed /\ Z.pos ma < Z.pos md))%Z).
  { destruct (SFleb_finite md ed ma ea) as [_ H].
    destruct (Z.lt_trichotomy ea ed) as [?|[->|?]]; [by left | |].
    - right. split; [done|].
      destruct (Z_lt_le_dec (Z.pos ma) (Z.pos md)) as [|Hle]; [done|].
      rewrite H in Hlt; [done | right; split; [done | lia]].
    - rewrite H in Hlt; [done | by left]. }
  pose proof (valid_finite_value _ _ _ Ha) as (Hea & Hma & Hna).
  pose proof (valid_finite_value _ _ _ Hd) as (Hed & Hmd & Hnd).
  cbn [SF2Q].
  set (A := inject_Z (Z.pos ma)) in *. set (D := inject_Z (Z.pos md)) in *.
  pose proof (pow2_pos ea) as Hpa. pose proof (pow2_pos ed) as Hpd.
  assert (HD0 : (0 < D)%Q)
    by (subst D; change 0%Q with (inject_Z 0); rewrite <- Zlt_Qlt; lia).
  assert (HA0 : (0 < A)%Q)
    by (subst A; change 0%Q with (inject_Z 0); rewrite <- Zlt_Qlt; lia).
  assert (Hc : ((inject_Z (Z.pos 9007199254740991) + (1 # 2)) * pow2 (-53)
                == 1 - pow2 (-54))%Q) by (by vm_compute).
  rewrite Hc.
  assert (H53 : (pow2 53 * pow2 (-54) == 1 # 2)%Q) by (by vm_compute).
  assert (H52 : (pow2 53 == 2 * pow2 52)%Q) by (by vm_compute).
  pose proof (pow2_pos (-54)) as Hp54. pose proof (pow2_pos 53) as Hp53.
  pose proof (pow2_pos 52) as Hp52.
  assert (HDv : (0 < D * pow2 ed)%Q) by (by apply Qmult_lt_0_compat).
  apply Qlt_shift_div_r; [done|].
  destruct Hord as [Hlt' | [-> Hm]].
  - destruct Hnd as [->|Hnd]; [lia|].
    pose proof (pow2_lt ea ed Hlt') as H2.
    assert (K1 : (A * pow2 ea <= (pow2 53 - 1) * pow2 ea)%Q)
      by (apply Qmult_pow2_le; lra).
    assert (K2 : (pow2 52 * pow2 ed <= D * pow2 ed)%Q)
      by (by apply Qmult_pow2_le).
    assert (Ht : (pow2 (-54) < 1)%Q) by (by vm_compute).
    assert (Fd : (pow2 (-54) * pow2 52 == 1 # 4)%Q) by (by vm_compute).
    set (X := (A * pow2 ea)%Q) in *. set (Y := (D * pow2 ed)%Q) in *.
    set (u := pow2 ea) in *. set (v := pow2 ed) in *.
    set (p := pow2 53) in *. set (q := pow2 52) in *. set (t := pow2 (-54)) in *.
    clearbody X Y u v p q t.
    assert (Fa : ((p - 1) * u <= (p - 1) * (v * (1 # 2)))%Q) by nra.
    assert (Fc : ((1 - t) * (q * v) <= (1 - t) * Y)%Q) by nra.
    assert (Fe : ((1 - t) * (q * v) == q * v - (1 # 4) * v)%Q)
      by (rewrite <- Fd; ring).
    assert (Ff : (p * v == 2 * (q * v))%Q) by (rewrite H52; ring).
    lra.
  - assert (HAD : (A + 1 <= D)%Q).
    { subst A D. change 1%Q with (inject_Z 1).
      rewrite <- inject_Z_plus, <- Zle_Qle. lia. }
    set (v := pow2 ed) in *. set (p := pow2 53) in *. set (t := pow2 (-54)) in *.
    clearbody A D v p t.
    assert (K3 : (D * t * p == D * (1 # 2))%Q) by (rewrite <- H53; ring).
    assert (K4 : (A < (1 - t) * D)%Q).
    { apply (Qmult_lt_r _ _ p); [lra|]. nra. }
    apply (Qmult_lt_r _ _ v) in K4; [|done]. lra.
Qed.

(** The rounded quotient reaches 1 exactly when the divisor is at most
    the dividend. *)
Lemma SFdiv_ge_one ma ea md ed :
  valid_binary (S754_finite false ma ea) = true ->
  valid_binary (S754_finite false md ed) = true ->
  SFleb SF_one (SF64div (S754_finite false ma ea) (S754_finite false md ed))
  = SFleb (S754_finite false md ed) (S754_finite false ma ea).
Proof.
  intros Ha Hd.
  destruct (SFdiv_rounds ma ea md ed Ha Hd) as (m1 & e1 & Hrt & Hr).
  destruct (SFleb (S754_finite false md ed) (S754_finite false ma ea)) eqn:E.
  - apply SFleb_value in E; [|done|done].
    eapply round_result_ge; [exact Hrt | exact Hr | done |].
    pose proof (valid_value_pos md ed) as HD. cbn [SF2Q] in *.
    assert (E1 : (inject_Z (Z.pos 4503599627370496) * pow2 (-52) == 1)%Q)
      by (by vm_compute).
    rewrite E1. apply Qle_shift_div_l; [done | lra].
  - pose proof (quotient_below_one _ _ _ _ Ha Hd E) as HX.
    assert (Hz : valid_binary (S754_finite false 9007199254740991 (-53)) = true)
      by done.
    pose proof (round_result_le _ m1 e1 _ _ _ Hrt Hr Hz HX) as Hle.
    destruct Hr as [Hm0|m e Hm0 Hv Hval|Hinf]; [done | | done].
    apply not_true_is_false. intros Hge.
    unfold SF_one in Hge. apply SFleb_finite in Hge, Hle. lia.
Qed.

(** The quotient reaches 1 exactly when the divisor is at most the
    dividend. *)
Lemma quotient_ge_one a d :
  (0 <? d) = true -> (0 <? a) = true -> (d <? infinity) = true ->
  (1 <=? a / d) = (d <=? a).
Proof.
  intros Hd Ha Hfin.
  rewrite FloatAxioms.ltb_spec in Hfin.
  rewrite !FloatAxioms.leb_spec, FloatAxioms.div_spec.
  change (Prim2SF 1) with SF_one.
  change (Prim2SF infinity) with (S754_infinity false) in Hfin.
  pose proof (Prim2SF_valid a) as Hva. pose proof (Prim2SF_valid d) as Hvd.
  apply positive_shape in Hd as [(md & ed & Ed) | Ed];
    apply positive_shape in Ha as [(ma & ea & Ea) | Ea];
    rewrite Ed, Ea in *; try done.
  by apply SFdiv_ge_one.
Qed.

(** Multiplying a positive finite number by 1 is exact. *)
Lemma mul_one_r d :
  (0 <? d) = true -> (d <? infinity) = true -> d * 1 = d.
Proof.
  intros Hd Hfin. apply Prim2SF_inj.
  rewrite FloatAxioms.ltb_spec in Hfin.
  change (Prim2SF infinity) with (S754_infinity false) in Hfin.
  rewrite FloatAxioms.mul_spec. change (Prim2SF 1) with SF_one.
  pose proof (Prim2SF_valid d) as Hvd.
  apply positive_shape in Hd as [(md & ed & Ed) | Ed]; rewrite Ed in *;
    [|done].
  assert (H1 : valid_binary SF_one = true) by done.
  destruct (SFmul_rounds md ed _ _ Hvd H1) as (m1 & e1 & Hrt & Hr).
  fold SF_one in Hrt, Hr.
  assert (E1 : (SF2Q SF_one == 1)%Q) by (by vm_compute).
  assert (EX : (SF2Q (S754_finite false md ed) * SF2Q SF_one
                == inject_Z (Z.pos md) * pow2 ed)%Q)
    by (rewrite E1; cbn [SF2Q]; ring).
  pose proof (pow2_pos ed) as Hp.
  assert (Hle : SFleb (SF64mul (S754_finite false md ed) SF_one)
                  (S754_finite false md ed) = true).
  { eapply round_result_le; [exact Hrt | exact Hr | done |]. rewrite EX. lra. }
  assert (Hge : SFleb (S754_finite false md ed)
                  (SF64mul (S754_finite false md ed) SF_one) = true).
  { eapply round_result_ge; [exact Hrt | exact Hr | done |]. rewrite EX. lra. }
  destruct Hr as [Hm0|m e Hm0 Hv Hval|Hinf]; [done | | done].
  apply SFleb_finite in Hle, Hge.
  assert (e = ed) by lia. assert (m = md) by lia. by subst.
Qed.

End FitsContainer.

Section FitsContainerClaim.
Local Open Scope float_scope.

(** X12: on the binary64 numbers the code computes with, for a positive
    finite device size and positive space inside the padding,
    [fitsContainer] is true exactly when the unscaled device fits the
    space inside the padding; then the scale is 1 and the scaled sizes
    are the device sizes themselves. *)
Theorem calculateScale_fitsContainer_iff
    (containerW containerH deviceW deviceH : float)
    (paddingPx : option float) :
  let padding := default 20 paddingPx in
  let availableWidth := containerW - padding * 2 in
  let availableHeight := containerH - padding * 2 in
  (0 <? deviceW) = true -> (0 <? deviceH) = true ->
  (deviceW <? infinity) = true -> (deviceH <? infinity) = true ->
  (0 <? availableWidth) = true -> (0 <? availableHeight) = true ->
  let r := Viewport.calculateScale containerW containerH deviceW deviceH
             paddingPx in
  Viewport.fitsContainer r
  = (deviceW <=? availableWidth) && (deviceH <=? availableHeight)
  /\ (Viewport.fitsContainer r = true ->
      Viewport.scale r = 1
      /\ Viewport.scaledWidth r = deviceW
      /\ Viewport.scaledHeight r = deviceH).
Proof.
  intros padding aW aH HdW HdH HfW HfH HaW HaH.
  unfold Viewport.calculateScale, Viewport.calculateScale_divs. cbn.
  fold padding. subst aW aH.
  rewrite (Math_max_zero_pos _ HaW), (Math_max_zero_pos _ HaH).
  rewrite (fltb_not_fleb _ _ HdW), (fltb_not_fleb _ _ HdH),
    (fltb_not_fleb _ _ HaW), (fltb_not_fleb _ _ HaH). cbn.
  split.
  - by rewrite (quotient_ge_one _ deviceW), (quotient_ge_one _ deviceH).
  - intros [Hx Hy]%andb_true_iff.
    pose proof Hx as (_ & Hnx & _)%fleb_true.
    pose proof Hy as (_ & Hny & _)%fleb_true.
    destruct (Math_min_spec _ _ Hnx Hny) as (Hm & _ & _).
    assert (H1 : (1 <=? Js.Math_min ((containerW - padding * 2) / deviceW)
                          ((containerH - padding * 2) / deviceH)) = true)
      by (by destruct Hm as [-> | ->]).
    rewrite (Math_min_one _ H1).
    by rewrite (mul_one_r deviceW), (mul_one_r deviceH).
Qed.

Lemma calculateScale_fitsContainer_iff_witness :
  let r := Viewport.calculateScale 1024 1000 393 852 None in
  ((0 <? 393) = true /\ (0 <? 852) = true
   /\ (393 <? infinity) = true /\ (852 <? infinity) = true
   /\ (0 <? 1024 - 20 * 2) = true /\ (0 <? 1000 - 20 * 2) = true)
  /\ Viewport.fitsContainer r = true
  /\ Viewport.scale r = 1.
Proof.
  intros r.
  assert (H1 : (0 <? 393) = true) by reflexivity.
  assert (H2 : (0 <? 852) = true) by reflexivity.
  assert (H3 : (393 <? infinity) = true) by reflexivity.
  assert (H4 : (852 <? infinity) = true) by reflexivity.
  assert (H5 : (0 <? 1024 - 20 * 2) = true) by reflexivity.
  assert (H6 : (0 <? 1000 - 20 * 2) = true) by reflexivity.
  split; [by repeat split|].
  destruct (calculateScale_fitsContainer_iff 1024 1000 393 852 None
              H1 H2 H3 H4 H5 H6) as [Hf Hs].
  fold r in Hf, Hs.
  assert (Hfit : Viewport.fitsContainer r = true) by (rewrite Hf; reflexivity).
  split; [exact Hfit|]. exact (proj1 (Hs Hfit)).
Defined.

End FitsContainerClaim.

(* ===================================================================== *)
(** * [useViewport]: what the setters keep *)
(* ===================================================================== *)

Section UseViewportFacts.
Local Open Scope float_scope.
Set Warnings "-inexact-float".

Lemma viewport_inv_initial : viewport_inv UseViewport.initial.
Proof. repeat split. Qed.

Lemma Math_max_lower (lo x : float) :
  is_nan lo = false -> is_nan x = false -> (lo <=? Js.Math_max lo x) = true.
Proof. intros Hlo Hx. by destruct (Math_max_spec lo x Hlo Hx) as (_ & H & _). Qed.

Lemma viewport_inv_step (a : UseViewport.Action) (st : UseViewport.State) :
  Forall (fun x => is_nan x = false) (UseViewport.arguments a) ->
  viewport_inv st -> viewport_inv (UseViewport.step a st).
Proof.
  intros Ha (Hcw & Hch & Hdw & Hdh & Hp & Hm1 & Hm2).
  destruct a; cbn in *; try (by repeat split).
  - apply Forall_cons in Ha as [Hw [Hh _]%Forall_cons].
    repeat split; try done; by apply Math_max_lower.
  - apply Forall_cons in Ha as [Hw [Hh _]%Forall_cons].
    repeat split; try done; by apply Math_max_lower.
  - apply Forall_cons in Ha as [Hw [Hh _]%Forall_cons].
    repeat split; try done; by apply Math_max_lower.
  - apply Forall_cons in Ha as [Hx _].
    destruct (clamp_in_range 0.1 2 scale eq_refl Hx) as [H1 H2].
    by repeat split.
  - apply Forall_cons in Ha as [Hx _].
    repeat split; try done; by apply Math_max_lower.
  - destruct entries as [|entry entries]; [by repeat split|].
    apply Forall_cons in Ha as [Hw [Hh _]%Forall_cons]. cbn.
    repeat split; try done; by apply Math_max_lower.
Qed.

(** X13: when no setter is called with [NaN], after every sequence of
    [useViewport] actions the container sizes and the padding are not
    negative, the device is at least 1 by 1, and the manual scale lies
    in [[0.1, 2]]; so with auto-fit off [currentScale] lies in
    [[0.1, 2]]. *)
Theorem useViewport_setters_keep_bounds (l : list UseViewport.Action) :
  Forall (fun a => Forall (fun x => is_nan x = false)
                     (UseViewport.arguments a)) l ->
  let st := UseViewport.run l UseViewport.initial in
  viewport_inv st
  /\ (UseViewport.autoFit st = false ->
      (0.1 <=? UseViewport.currentScale st) = true
      /\ (UseViewport.currentScale st <=? 2) = true).
Proof.
  intros Hl. cbn zeta.
  assert (Hinv : viewport_inv (UseViewport.run l UseViewport.initial)).
  { induction l as [|a l IH] using rev_ind; [apply viewport_inv_initial|].
    apply Forall_app in Hl as [Hl Ha]. apply Forall_inv in Ha.
    unfold UseViewport.run. rewrite fold_left_app. cbn.
    apply viewport_inv_step; [done | by apply IH]. }
  split; [done|]. intros Hauto. unfold UseViewport.currentScale.
  rewrite Hauto. cbn.
  by destruct Hinv as (_ & _ & _ & _ & _ & H1 & H2).
Qed.

Lemma useViewport_setters_keep_bounds_witness :
  let l := [UseViewport.SetContainerDimensions (-5) 600;
            UseViewport.SetDeviceDimensions 0 667;
            UseViewport.SetManualScale 7;
            UseViewport.SetPadding (-1)] in
  let st := UseViewport.run l UseViewport.initial in
  Forall (fun a => Forall (fun x => is_nan x = false)
                     (UseViewport.arguments a)) l
  /\ viewport_inv st
  /\ UseViewport.containerWidth st = 0
  /\ UseViewport.deviceWidth st = 1
  /\ UseViewport.currentScale st = 2.
Proof.
  cbv zeta.
  assert (H : Forall (fun a => Forall (fun x => is_nan x = false)
                                 (UseViewport.arguments a))
                [UseViewport.SetContainerDimensions (-5) 600;
                 UseViewport.SetDeviceDimensions 0 667;
                 UseViewport.SetManualScale 7;
                 UseViewport.SetPadding (-1)])
    by (repeat constructor).
  split; [exact H|].
  split; [exact (proj1 (useViewport_setters_keep_bounds _ H))|].
  repeat split.
Defined.

Set Warnings "inexact-float".
End UseViewportFacts.

(* ===================================================================== *)
(** * [utils/dimensions.ts]: responsive scale and compact mode *)
(* ===================================================================== *)

Section DimensionsFacts.
Local Open Scope float_scope.

(** X14: [isCompactMode] and [getResponsiveScale] agree: below the
    tablet breakpoint the mode is compact and the scale is 0.5 (below
    the mobile breakpoint) or 0.75; otherwise, and for [NaN], the mode
    is not compact and the scale is 1. *)
Theorem isCompactMode_matches_responsive_scale (viewportWidth : float) :
  (Dimensions.isCompactMode viewportWidth = true /\
   ((viewportWidth <? 768) = true
    /\ Dimensions.getResponsiveScale viewportWidth = 0.5
    \/ (viewportWidth <? 768) = false
       /\ Dimensions.getResponsiveScale viewportWidth = 0.75))
  \/ (Dimensions.isCompactMode viewportWidth = false
      /\ Dimensions.getResponsiveScale viewportWidth = 1).
Proof.
  unfold Dimensions.isCompactMode, Dimensions.getResponsiveScale,
    Dimensions.BREAKPOINTS_MOBILE, Dimensions.BREAKPOINTS_TABLET.
  destruct (viewportWidth <? 1024) eqn:E1.
  - left. split; [done|]. destruct (viewportWidth <? 768); [by left | by right].
  - right. split; [done|].
    destruct (viewportWidth <? 768) eqn:E2; [|done].
    exfalso. apply fltb_true in E2 as (Hx & _ & H2).
    assert ((viewportWidth <? 1024) = true) as E; [|congruence].
    apply fltb_true. repeat split; try done.
    unfold lt3 in *. change (frank 768) with (1, -43, 6755399441055744)%Z in H2.
    change (frank 1024) with (1, -42, 4503599627370496)%Z.
    cbn in *. lia.
Qed.

End DimensionsFacts.

(* ===================================================================== *)
(** * URL normalisation, again *)
(* ===================================================================== *)

Section TrimFacts.
Implicit Types (s t : Js.jsstring).

(** [trimStart] removes a prefix made of white space only. *)
Lemma trimStart_split s :
  exists p, s = p ++ Js.trimStart s /\ forallb Js.is_whitespace p = true.
Proof.
  induction s as [|c s IH]; [by exists []|]. cbn.
  destruct (Js.is_whitespace c) eqn:E; [|by exists []].
  destruct IH as (p & Hp & Hws). exists (c :: p). cbn.
  rewrite E, Hws. split; [by f_equal | done].
Qed.

Lemma trimStart_head s c t :
  Js.trimStart s = c :: t -> Js.is_whitespace c = false.
Proof.
  induction s as [|d s IH]; [done|]. cbn.
  destruct (Js.is_whitespace d) eqn:E; [done|]. by intros [= <- _].
Qed.

Lemma trimStart_fixed c t :
  Js.is_whitespace c = false -> Js.trimStart (c :: t) = c :: t.
Proof. intros H. cbn. by rewrite H. Qed.

Lemma trimStart_idem s : Js.trimStart (Js.trimStart s) = Js.trimStart s.
Proof.
  destruct (Js.trimStart s) as [|c t] eqn:E; [done|].
  apply trimStart_fixed. by apply (trimStart_head s c t).
Qed.

Lemma trimStart_app_fixed s t :
  s <> [] -> Js.trimStart s = s -> Js.trimStart (s ++ t) = s ++ t.
Proof.
  destruct s as [|c s]; [done|]. intros _ H.
  assert (Js.is_whitespace c = false) by (by apply (trimStart_head _ _ _ H)).
  by apply trimStart_fixed.
Qed.

Lemma trim_ends s :
  Js.trimStart (Js.trim s) = Js.trim s
  /\ Js.trimStart (rev (Js.trim s)) = rev (Js.trim s).
Proof.
  unfold Js.trim, Js.trimEnd. set (u := Js.trimStart s).
  split.
  - destruct (trimStart_split (rev u)) as (p & Hp & _).
    set (v := Js.trimStart (rev u)) in *.
    assert (Hu : u = rev v ++ rev p).
    { rewrite <- (rev_involutive u), Hp, rev_app_distr. done. }
    destruct (rev v) as [|c r] eqn:Ev; [done|].
    apply trimStart_fixed. apply (trimStart_head s c (r ++ rev p)).
    fold u. by rewrite Hu.
  - rewrite rev_involutive. apply trimStart_idem.
Qed.

Lemma trim_fixed s :
  Js.trimStart s = s -> Js.trimStart (rev s) = rev s -> Js.trim s = s.
Proof.
  intros H1 H2. unfold Js.trim, Js.trimEnd.
  by rewrite H1, H2, rev_involutive.
Qed.

Lemma trim_idem s : Js.trim (Js.trim s) = Js.trim s.
Proof. destruct (trim_ends s). by apply trim_fixed. Qed.

(** Putting [https://] before a trimmed string gives a trimmed
    string. *)
Lemma trim_https s :
  Js.trim (Js.str "https://" ++ Js.trim s) = Js.str "https://" ++ Js.trim s.
Proof.
  destruct (trim_ends s) as [H1 H2]. apply trim_fixed; [done|].
  rewrite rev_app_distr.
  destruct (rev (Js.trim s)) as [|c r] eqn:E; [done|].
  change ((c :: r) ++ rev (Js.str "https://"))
    with (c :: (r ++ rev (Js.str "https://"))).
  apply trimStart_fixed. by apply (trimStart_head _ _ _ H2).
Qed.

End TrimFacts.

(** X15: [normaliseUrl] is idempotent, in [utils/url.ts] and in
    [useNavigation]: normalising a normalised URL changes nothing. The
    result of [useNavigation]'s function always starts with [http://]
    or [https://]; that of [utils/url.ts] does unless it is empty. *)
Theorem normaliseUrl_idempotent (s : Js.jsstring) :
  Url.normaliseUrl (Url.normaliseUrl s) = Url.normaliseUrl s
  /\ Nav.normaliseUrl (Nav.normaliseUrl s) = Nav.normaliseUrl s
  /\ Js.has_http_scheme (Nav.normaliseUrl s) = true
  /\ (Url.normaliseUrl s = []
      \/ Js.has_http_scheme (Url.normaliseUrl s) = true).
Proof.
  assert (Hnav : Nav.normaliseUrl (Nav.normaliseUrl s) = Nav.normaliseUrl s).
  { unfold Nav.normaliseUrl at 2 3.
    destruct (Js.has_http_scheme (Js.trim s)) eqn:E; cbn [negb].
    - unfold Nav.normaliseUrl. by rewrite trim_idem, E.
    - unfold Nav.normaliseUrl. rewrite trim_https.
      by change (Js.has_http_scheme (Js.str "https://" ++ Js.trim s))
        with true. }
  assert (Hscheme : Js.has_http_scheme (Nav.normaliseUrl s) = true).
  { unfold Nav.normaliseUrl.
    by destruct (Js.has_http_scheme (Js.trim s)) eqn:E. }
  split; [|split; [done|split; [done|]]].
  - unfold Url.normaliseUrl at 2 3.
    destruct (bool_decide (Js.trim s = [])) eqn:Eb; [done|].
    apply bool_decide_eq_false in Eb.
    destruct (Js.has_http_scheme (Js.trim s)) eqn:E.
    + unfold Url.normaliseUrl. rewrite trim_idem, E.
      by rewrite bool_decide_eq_false_2.
    + unfold Url.normaliseUrl. rewrite trim_https.
      rewrite bool_decide_eq_false_2 by done.
      by change (Js.has_http_scheme (Js.str "https://" ++ Js.trim s))
        with true.
  - unfold Url.normaliseUrl.
    destruct (bool_decide (Js.trim s = [])); [by left|]. right.
    by destruct (Js.has_http_scheme (Js.trim s)) eqn:E.
Qed.

(** X16: the two implementations agree on every input that is not
    blank: [normaliseUrl] gives the same string and [isValidUrl] the
    same verdict. On blank input [utils/url.ts] answers [''] and
    [false] without parsing. *)
Theorem url_and_nav_validation_agree {platform : UrlPlatform}
    (s : Js.jsstring) :
  (Js.trim s <> [] ->
   Url.normaliseUrl s = Nav.normaliseUrl s
   /\ Url.isValidUrl s = Nav.isValidUrl s)
  /\ (Js.trim s = [] ->
      Url.normaliseUrl s = [] /\ Url.isValidUrl s = false
      /\ Nav.normaliseUrl s = Js.str "https://").
Proof.
  split.
  - intros Hne.
    assert (Hsame : Url.normaliseUrl s = Nav.normaliseUrl s).
    { unfold Url.normaliseUrl, Nav.normaliseUrl.
      rewrite bool_decide_eq_false_2 by done.
      by destruct (Js.has_http_scheme (Js.trim s)). }
    split; [done|]. unfold Url.isValidUrl, Nav.isValidUrl. cbn zeta.
    rewrite Hsame. rewrite bool_decide_eq_false_2; [done|].
    intros E. pose proof (nav_normaliseUrl_has_scheme s) as H.
    by rewrite E in H.
  - intros He. unfold Url.isValidUrl, Url.normaliseUrl, Nav.normaliseUrl.
    rewrite He. done.
Qed.

(* ===================================================================== *)
(** * [utils/url.ts]: truncation and the secure flag *)
(* ===================================================================== *)

Section UrlUtilsFacts.
Context {parser : UrlParser}.

Lemma len_substring0 (s : Js.jsstring) (e : Z) :
  (0 <= e)%Z -> (Js.len (UrlUtils.substring0 s e) <= e)%Z.
Proof.
  intros He. unfold UrlUtils.substring0, Js.len. rewrite length_take. lia.
Qed.

Lemma len_substring0_exact (s : Js.jsstring) (e : Z) :
  (0 <= e <= Js.len s)%Z -> Js.len (UrlUtils.substring0 s e) = e.
Proof.
  intros He. unfold UrlUtils.substring0, Js.len in *. rewrite length_take. lia.
Qed.

(** X17: for a limit of at least 3, [truncateUrl] never returns more
    than [maxLength] code units, and it returns a URL that is short
    enough unchanged. (A smaller limit cannot hold the three dots.) *)
Theorem truncateUrl_length (url : Js.jsstring) (maxLength : option Z) :
  (3 <= default 50 maxLength)%Z ->
  (Js.len (UrlUtils.truncateUrl url maxLength) <= default 50 maxLength)%Z
  /\ ((Js.len url <= default 50 maxLength)%Z ->
      UrlUtils.truncateUrl url maxLength = url).
Proof.
  intros Hmax. unfold UrlUtils.truncateUrl. cbn zeta.
  set (n := default 50%Z maxLength) in *.
  destruct (Js.len url <=? n)%Z eqn:E1.
  { apply Z.leb_le in E1. by split. }
  apply Z.leb_gt in E1. split; [|lia].
  assert (Hdots : Js.len (Js.str "...") = 3%Z) by reflexivity.
  destruct (n - 3 <=? Js.len (UrlUtils.getDisplayDomain url))%Z eqn:E2.
  { rewrite len_app, Hdots.
    pose proof (len_substring0 (UrlUtils.getDisplayDomain url) (n - 3)). lia. }
  apply Z.leb_gt in E2.
  destruct (UrlUtils.parseUrl url) as [parsed|].
  - destruct (n - Js.len (UrlUtils.getDisplayDomain url) - 3
              <? Js.len (UrlUtils.pathname parsed ++ UrlUtils.search parsed))%Z
      eqn:E3.
    + apply Z.ltb_lt in E3. rewrite !len_app, Hdots.
      rewrite len_substring0_exact by lia. lia.
    + apply Z.ltb_ge in E3. rewrite len_app. lia.
  - rewrite len_app, Hdots. pose proof (len_substring0 url (n - 3)). lia.
Qed.

(** X18: a URL that [isSecureUrl] accepts is one [isValidUrl] accepts,
    given that the parser rejects the empty string (as [new URL('')]
    does). *)
Theorem isSecureUrl_implies_valid (url : Js.jsstring) :
  URL_parse [] = None ->
  UrlUtils.isSecureUrl url = true ->
  Url.isValidUrl url = true
  /\ exists parsed, UrlUtils.parseUrl url = Some parsed
                    /\ UrlUtils.isSecure parsed = true.
Proof.
  intros Hempty. unfold UrlUtils.isSecureUrl, Url.isValidUrl, UrlUtils.parseUrl.
  cbn zeta. unfold URL_protocol, parser_platform.
  destruct (bool_decide (Url.normaliseUrl url = [])) eqn:Eb.
  { apply bool_decide_eq_true in Eb. by rewrite Eb, Hempty. }
  destruct (URL_parse (Url.normaliseUrl url)) as [parsed|]; [|done]. cbn.
  intros H. pose proof H as ->%bool_decide_eq_true.
  split; [reflexivity|]. eexists. split; [reflexivity|]. cbn.
  by apply bool_decide_eq_true.
Qed.

End UrlUtilsFacts.

Lemma truncateUrl_length_witness :
  let url := Js.str "https://www.example.com/articles/a-rather-long-article-title?page=2" in
  (3 <= 30)%Z
  /\ UrlUtils.truncateUrl (parser := ExampleUrl.parser) url (Some 30%Z)
     = Js.str "example.com/articles/a-rath..."
  /\ (Js.len (UrlUtils.truncateUrl (parser := ExampleUrl.parser) url
                (Some 30%Z)) <= 30)%Z.
Proof.
  cbv zeta.
  assert (H : (3 <= default 50 (Some 30))%Z) by (cbn; lia).
  split; [lia|]. split; [reflexivity|].
  exact (proj1 (truncateUrl_length (parser := ExampleUrl.parser) _ (Some 30%Z) H)).
Defined.

Lemma isSecureUrl_implies_valid_witness :
  let url := Js.str " example.com/login " in
  (URL_parse (UrlParser := ExampleUrl.parser) [] = None
   /\ UrlUtils.isSecureUrl (parser := ExampleUrl.parser) url = true)
  /\ Url.isValidUrl (platform := parser_platform (parser := ExampleUrl.parser))
       url = true.
Proof.
  cbv zeta.
  assert (H1 : URL_parse (UrlParser := ExampleUrl.parser) [] = None)
    by reflexivity.
  assert (H2 : UrlUtils.isSecureUrl (parser := ExampleUrl.parser)
                 (Js.str " example.com/login ") = true) by reflexivity.
  split; [by split|].
  exact (proj1 (isSecureUrl_implies_valid (parser := ExampleUrl.parser)
                  _ H1 H2)).
Defined.

(* ===================================================================== *)
(** * [usePreferencesStore]: the URL history *)
(* ===================================================================== *)

Section PreferencesFacts.
Implicit Types (url : Js.jsstring) (h : list Js.jsstring).

Lemma addToUrlHistory_unfold url h :
  url <> [] ->
  Preferences.addToUrlHistory url h
  = url :: take 49 (filter (fun u => u <> url) h).
Proof.
  intros Hne. unfold Preferences.addToUrlHistory.
  rewrite bool_decide_eq_false_2 by done. cbn zeta.
  rewrite slice0_take by lia. done.
Qed.

Lemma addToUrlHistory_inv url h :
  url <> [] ->
  (length (Preferences.addToUrlHistory url h) <= 50)%nat
  /\ (NoDup h -> NoDup (Preferences.addToUrlHistory url h)).
Proof.
  intros Hne. rewrite addToUrlHistory_unfold by done.
  set (f := filter (fun u => u <> url) h).
  split; [cbn; rewrite length_take; lia|].
  intros Hnd. apply NoDup_cons. split.
  - intros H%(elem_of_prefix _ f); [|apply prefix_take].
    subst f. apply list_elem_of_filter in H as [H _]. done.
  - apply (sublist_NoDup _ f); [subst f; by apply NoDup_filter|].
    apply sublist_take.
Qed.

(** X19: [addToUrlHistory] with a non-empty URL puts that URL first and
    nowhere else, adds no other URL, keeps the order of the URLs it
    keeps, and returns at most 50 entries; the URLs it drops are the
    oldest ones. With the empty URL it changes nothing. *)
Theorem addToUrlHistory_moves_to_front url h :
  url <> [] ->
  let h' := Preferences.addToUrlHistory url h in
  head h' = Some url
  /\ (url ∉ tail h')
  /\ tail h' `prefix_of` filter (fun u => u <> url) h
  /\ (length h' <= 50)%nat
  /\ ((length h < 50)%nat -> tail h' = filter (fun u => u <> url) h)
  /\ (NoDup h -> NoDup h')
  /\ Preferences.addToUrlHistory [] h = h.
Proof.
  intros Hne. cbn zeta. rewrite addToUrlHistory_unfold by done. cbn [head tail].
  set (f := filter (fun u => u <> url) h).
  assert (Hnot : url ∉ f).
  { subst f. intros [H _]%list_elem_of_filter. done. }
  assert (Hpre : take 49 f `prefix_of` f) by apply prefix_take.
  split; [done|]. split.
  { intros H. apply Hnot. by eapply elem_of_prefix. }
  split; [done|]. split.
  { cbn. rewrite length_take. lia. }
  split.
  { intros Hlen. apply take_ge.
    pose proof (length_filter (fun u => u <> url) h). subst f. lia. }
  split; [|done].
  subst f. rewrite <- addToUrlHistory_unfold by done.
  by apply addToUrlHistory_inv.
Qed.

Lemma addToUrlHistory_moves_to_front_witness :
  let A := Js.str "https://a.example" in
  let B := Js.str "https://b.example" in
  let C := Js.str "https://c.example" in
  B <> []
  /\ Preferences.addToUrlHistory B [A; B; C] = [B; A; C].
Proof.
  intros A B C.
  assert (H : B <> []) by done.
  split; [exact H|].
  destruct (addToUrlHistory_moves_to_front B [A; B; C] H)
    as (_ & _ & _ & _ & Htail & _).
  assert (Hlen : (length [A; B; C] < 50)%nat) by (simpl; lia).
  specialize (Htail Hlen).
  rewrite addToUrlHistory_unfold in * by exact H. cbn [tail] in Htail.
  rewrite Htail. reflexivity.
Defined.

Lemma url_history_inv_step a h :
  url_history_inv h -> url_history_inv (Preferences.step a h).
Proof.
  intros [Hnd Hlen]. destruct a as [url| |url]; cbn.
  - destruct (decide (url = [])) as [-> | Hne]; [by split|].
    destruct (addToUrlHistory_inv url h Hne) as [H50 Hnd'].
    split; [by apply Hnd' | done].
  - split; [constructor | cbn; lia].
  - unfold Preferences.removeFromUrlHistory. split; [by apply NoDup_filter|].
    pose proof (length_filter (fun u => u <> url) h). lia.
Qed.

(** X20: starting from a stored history without repeats and with at
    most 50 entries (the default is the empty one), every sequence of
    [addToUrlHistory], [removeFromUrlHistory] and [clearUrlHistory]
    leaves a history without repeats and with at most 50 entries;
    [recentUrls] is its first 10 entries at most; and a removed URL is
    gone. *)
Theorem urlHistory_stays_bounded_and_distinct
    (l : list Preferences.Action) h :
  url_history_inv h ->
  let h' := Preferences.run l h in
  url_history_inv h'
  /\ Preferences.recentUrls h' `prefix_of` h'
  /\ (length (Preferences.recentUrls h') <= 10)%nat
  /\ forall url, url ∉ Preferences.removeFromUrlHistory url h'.
Proof.
  intros Hh. cbn zeta.
  assert (Hinv : url_history_inv (Preferences.run l h)).
  { induction l as [|a l IH] using rev_ind; [done|].
    unfold Preferences.run. rewrite fold_left_app. cbn.
    by apply url_history_inv_step. }
  split; [done|]. unfold Preferences.recentUrls.
  rewrite slice0_take by lia.
  split; [apply prefix_take|]. split; [rewrite length_take; lia|].
  intros url [H _]%list_elem_of_filter. done.
Qed.

Lemma urlHistory_stays_bounded_and_distinct_witness :
  let A := Js.str "https://a.example" in
  let B := Js.str "https://b.example" in
  let l := [Preferences.AddToUrlHistory A; Preferences.AddToUrlHistory B;
            Preferences.AddToUrlHistory A] in
  url_history_inv []
  /\ Preferences.run l [] = [A; B]
  /\ url_history_inv (Preferences.run l []).
Proof.
  intros A B l.
  assert (H : url_history_inv []) by (split; [constructor | simpl; lia]).
  split; [exact H|]. split; [reflexivity|].
  exact (proj1 (urlHistory_stays_bounded_and_distinct l [] H)).
Defined.

End PreferencesFacts.

(* ===================================================================== *)
(** * [config/devices.ts]: looking a device up *)
(* ===================================================================== *)

Section DevicesFacts.

Lemma map_of_entries_list_to_map {V} (l : list (Js.jsstring * V)) :
  Devices.map_of_entries l = list_to_map (reverse l).
Proof.
  unfold Devices.map_of_entries.
  induction l as [|kv l IH] using rev_ind; [done|].
  rewrite foldl_snoc, reverse_snoc, IH. by destruct kv.
Qed.

Lemma deviceModels_ids_distinct :
  NoDup (Devices.id <$> Devices.deviceModels).
Proof. apply (bool_decide_unpack _). by vm_compute. Qed.

Lemma deviceModelMap_lookup (i : Js.jsstring) (device : Devices.DeviceModel) :
  Devices.deviceModelMap !! i = Some device
  <-> device ∈ Devices.deviceModels /\ Devices.id device = i.
Proof.
  unfold Devices.deviceModelMap. rewrite map_of_entries_list_to_map.
  rewrite <- elem_of_list_to_map.
  - rewrite elem_of_reverse.
    change (map ?f ?l) with (f <$> l). rewrite list_elem_of_fmap. split.
    + intros (d & [= -> ->] & Hd). done.
    + intros [Hd <-]. by exists device.
  - change (map ?f ?l) with (f <$> l).
    rewrite <- fmap_reverse, <- list_fmap_compose, fmap_reverse.
    rewrite reverse_Permutation. apply deviceModels_ids_distinct.
Qed.

(** X21: [getDeviceById] always returns a device of the catalogue: the
    device with that id when there is one ([isValidDeviceId]), the
    iPhone 15 Pro otherwise. Ids are unique, so every device of the
    catalogue is found under its own id, and the selector options list
    exactly the ids of the catalogue, in its order. *)
Theorem getDeviceById_catalogue :
  (forall i,
     Devices.getDeviceById i ∈ Devices.deviceModels
     /\ (Devices.isValidDeviceId i = true ->
         Devices.id (Devices.getDeviceById i) = i)
     /\ (Devices.isValidDeviceId i = false ->
         Devices.getDeviceById i = Devices.iPhone15Pro))
  /\ (forall device,
        device ∈ Devices.deviceModels ->
        Devices.getDeviceById (Devices.id device) = device
        /\ Devices.isValidDeviceId (Devices.id device) = true)
  /\ (Devices.value <$> Devices.deviceOptions)
     = (Devices.id <$> Devices.deviceModels).
Proof.
  split; [|split].
  - intros i. unfold Devices.getDeviceById, Devices.isValidDeviceId.
    destruct (Devices.deviceModelMap !! i) as [device|] eqn:E; cbn.
    + apply deviceModelMap_lookup in E as [Hd Hi].
      split; [done|]. by split.
    + split; [|by split].
      unfold Devices.deviceModels. set_solver.
  - intros device Hd.
    assert (Devices.deviceModelMap !! Devices.id device = Some device) as E
      by (by apply deviceModelMap_lookup).
    unfold Devices.getDeviceById, Devices.isValidDeviceId. rewrite E.
    split; [done|]. apply bool_decide_eq_true. eauto.
  - reflexivity.
Qed.

End DevicesFacts.
